(** * fsk-decoder: the demodulation and framing core of [src/index.js]

    A shallow embedding of the two JavaScript programs of the repository:
    the watcher ([SignalProcessor], [FrameParser], [processFile]) and the
    batch extractor ([readCU8File] ... [extractUnique64BitSequences]).

    Conventions of the embedding.
    - A Node [Buffer] and a [Uint8Array] are lists of bytes; a
      [Float32Array] or [Float64Array] is a list of numbers.
    - The sample arrays [I] and [Q] of the source are named [Is] and [Qs].
    - An array read [a[i]] is [a .[ i ]], an [option]: [None] is the
      [undefined] JavaScript gives out of range.  A typed-array store out of
      range does nothing, as in JavaScript.
    - Array lengths, indices, the minimum run length and the samples-per-bit
      width are integers ([Z]).
    - The floating-point operations the code performs on samples are the
      fields of the class [Float], so that what is proved of the pipeline
      holds whatever the rounding.  [IEEEFloat] interprets them as the
      program performs them: in binary64, with the rounding to binary32 of
      a store into a [Float32Array].  [RealFloat] interprets them over the
      real numbers extended with NaN, without rounding.
    - A call that returns no value yields [None]: with a width of 0 the
      symbol loop of [decodeBits] has no bound and pushes bits until the
      array cannot grow, where [push] throws a [RangeError] that nothing
      catches ([push_loop]). *)

From Stdlib Require Import ZArith QArith Qround Reals Machin Lra Lia.
From Stdlib Require Import Strings.Ascii Strings.String Strings.Byte.
From Stdlib Require HexString SpecFloat.
From stdpp Require Import base tactics option list list_numbers strings pretty gmap.

#[local] Open Scope Z_scope.

(** ** JavaScript arrays and loops *)

(** [a[i]]: the element, or [undefined]. *)
Definition read {A} (a : list A) (i : Z) : option A :=
  if decide (0 ≤ i) then a !! Z.to_nat i else None.

(** [a[i] = v] on a typed array: ignored when [i] is not an index of [a]. *)
Definition store {A} (a : list A) (i : Z) (v : A) : list A :=
  if decide (0 ≤ i) then <[Z.to_nat i := v]> a else a.

Notation "a .[ i ]" := (read a i) (at level 1, format "a .[ i ]").

(** [a.length]. *)
Definition len {A} (a : list A) : Z := Z.of_nat (length a).

(** [for (let i = from; i < bound; i++) s = body(s, i)] for a rational
    [bound]: [i] takes the values [from], [from+1], ... below [bound]. *)
Definition for_lt {S} (from : Z) (bound : Q) (body : S → Z → S) (s : S) : S :=
  foldl body s (seqZ from (Qceiling bound - from)).

(** The same loop with an integer bound. *)
Definition for_to {S} (from bound : Z) (body : S → Z → S) (s : S) : S :=
  foldl body s (seqZ from (bound - from)).

(** [ToIndex]: the length a typed-array constructor makes of its numeric
    argument (truncation; the arguments here are never negative). *)
Definition ToIndex (n : Q) : nat := Z.to_nat (Qfloor n).

(** [new Uint8Array(n)]: [ToIndex n] zero bytes. *)
Definition Uint8Array (n : Q) : list byte := replicate (ToIndex n) x00.

(** What a [Uint8Array] stores for a byte read from a buffer; [undefined]
    converts to NaN and then to 0. *)
Definition ToUint8 (v : option byte) : byte := default x00 v.

(** [a.forEach((x, i) => s = body(s, x, i))], from index [i]. *)
Fixpoint forEach_from {A S} (i : Z) (a : list A) (body : S → A → Z → S) (s : S) : S :=
  match a with
  | [] => s
  | x :: a' => forEach_from (i + 1) a' body (body s x i)
  end.

Definition forEach {A S} (a : list A) (body : S → A → Z → S) (s : S) : S :=
  forEach_from 0 a body s.

(** [Math.floor(a / b)] on integers: an integer, or what a division by 0
    leaves. *)
Inductive quotient := Finite (q : Z) | PlusInfinity | MinusInfinity | NotANumber.

Definition floor_div (a b : Z) : quotient :=
  if decide (b = 0) then
    if decide (0 < a) then PlusInfinity
    else if decide (a < 0) then MinusInfinity
    else NotANumber
  else Finite (a / b).

(** [for (let s = 0; s < bound; s++) ...] where [bound] is such a quotient:
    [s < Infinity] holds for every [s], so that the loop does not come to
    its end and yields no result ([None]); [s < -Infinity] and [s < NaN]
    are false at once.  The two loops of this form push a bit in each
    round: below [Infinity] they go on until [push] throws
    ([push_loop]). *)
Definition for_quotient {S} (bound : quotient) (body : S → Z → S) (s : S) : option S :=
  match bound with
  | Finite n => Some (for_to 0 n body s)
  | PlusInfinity => None
  | MinusInfinity | NotANumber => Some s
  end.

(** [s < bound]. *)
Definition below (s : Z) (bound : quotient) : bool :=
  match bound with
  | Finite n => bool_decide (s < n)
  | PlusInfinity => true
  | MinusInfinity | NotANumber => false
  end.

(** [a.push(x)] on an array that can hold [limit] elements: past the
    limit, [push] throws a [RangeError] ([None]).  The limit is the
    engine's; ECMAScript allows no more than [2 ^ 32 - 1] elements. *)
Definition push {A} (limit : Z) (a : list A) (x : A) : option (list A) :=
  if decide (len a < limit) then Some (a ++ [x]) else None.

(** How the run of a loop ends: it returns, it throws, or it is still
    going when the rounds it was given are used up. *)
Inductive run (A : Type) :=
  | Returned (a : A)
  | Threw
  | Unfinished.

Arguments Returned {A} a.
Arguments Threw {A}.
Arguments Unfinished {A}.

(** [for (; s < bound; s++) bits.push(bit(s))], for at most [rounds] tests
    of the condition. *)
Fixpoint push_loop {A} (limit : Z) (rounds : nat) (bound : quotient) (bit : Z → A)
    (s : Z) (bits : list A) : run (list A) :=
  match rounds with
  | O => Unfinished
  | S rounds =>
      if below s bound then
        match push limit bits (bit s) with
        | Some bits => push_loop limit rounds bound bit (s + 1) bits
        | None => Threw
        end
      else Returned bits
  end.

(** A JavaScript [Set] of strings keeps insertion order: [add] appends a
    string that is not yet a member; [[...set]] is the list itself. *)
Definition Set_add (set : list string) (x : string) : list string :=
  if decide (x ∈ set) then set else set ++ [x].

(** ** Numbers *)

(** The floating-point operations of the program.  [fround] is the rounding
    of a store into a [Float32Array]; [nan] is what [undefined] becomes in
    arithmetic. *)
Class Float := {
  num : Type;
  of_Z : Z → num;
  nan : num;
  add : num → num → num;
  sub : num → num → num;
  mul : num → num → num;
  neg : num → num;
  gtb : num → num → bool;
  ltb : num → num → bool;
  atan2 : num → num → num;
  fround : num → num;
  PI : num;
  (** Two facts of any IEEE arithmetic the proofs rely on: rounding 0 to
      single precision gives 0, and no number is greater than itself. *)
  fround_0 : fround (of_Z 0) = of_Z 0;
  gtb_irrefl : ∀ x, gtb x x = false
}.

(** The number a [Uint8Array] element (or [undefined]) is in arithmetic. *)
Definition of_byte `{Float} (v : option byte) : num :=
  match v with
  | Some b => of_Z (Z.of_N (Byte.to_N b))
  | None => nan
  end.

(** The number an element of a float array (or [undefined]) is. *)
Definition val `{Float} (v : option num) : num := default nan v.

(** [new Float32Array(n)] and [new Float64Array(n)]: [n] zeros. *)
Definition FloatArray `{Float} (n : Z) : list num := replicate (Z.to_nat n) (of_Z 0).

(** ** Protocol constants *)

Definition POWER_THRESHOLD : Z := 5.
Definition MIN_SIGNAL_LENGTH : Z := 35000.
Definition SAMPLES_PER_BIT : Z := 635.

Definition PREAMBLE_LENGTH : Z := 24.
Definition SYNC_WORD_LENGTH : Z := 16.
Definition DEVICE_ID_LENGTH : Z := 20.
Definition COMMAND_LENGTH : Z := 3.
Definition BATTERY_LENGTH : Z := 1.

Definition SYNC_WORD : string := "0010110111010100".
Definition COMMANDS : gmap string string := {[ "001" := "OPEN"; "010" := "CLOSE" ]}%string.
Definition BATTERY_STATUS : gmap string string := {[ "1" := "OK"; "0" := "LOW" ]}%string.

Definition DISCOVERY_PREFIX : string := "homeassistant".

(** ** The watcher: [SignalProcessor] *)

Module SignalProcessor.

Definition readIq (buffer : list byte) : list byte * list byte :=
  let len : Q := (inject_Z (len buffer) / 2)%Q in
  let Is := Uint8Array len in
  let Qs := Uint8Array len in
  for_lt 0 len (λ '(Is, Qs) i,
    (store Is i (ToUint8 buffer.[2 * i]),
     store Qs i (ToUint8 buffer.[2 * i + 1]))) (Is, Qs).

Section Numeric.
Context `{Float}.

Definition normalize '((Is, Qs) : list byte * list byte) : list num * list num :=
  let len := len Is in
  let nI := FloatArray len in
  let nQ := FloatArray len in
  for_to 0 len (λ '(nI, nQ) i,
    (store nI i (fround (sub (of_byte Is.[i]) (of_Z 128))),
     store nQ i (fround (sub (of_byte Qs.[i]) (of_Z 128))))) (nI, nQ).

Definition calculatePower '((Is, Qs) : list num * list num) : list num :=
  let len := len Is in
  let p := FloatArray len in
  for_to 0 len (λ p i,
    store p i (fround (add (mul (val Is.[i]) (val Is.[i]))
                           (mul (val Qs.[i]) (val Qs.[i]))))) p.

Definition aboveThreshold (power : list num) (threshold : num) : list bool :=
  (λ v, gtb v threshold) <$> power.

Definition findIntervals (flags : list bool) (minLen : Z) : list (Z * Z) :=
  let '(intervals, start) :=
    forEach flags (λ '(intervals, start) f i,
      let start := if f && bool_decide (start = None) then Some i else start in
      match start with
      | Some st =>
          if negb f then
            ((if decide (minLen ≤ i - st) then intervals ++ [(st, i - 1)] else intervals),
             None)
          else (intervals, start)
      | None => (intervals, start)
      end) ([], None) in
  match start with
  | Some st =>
      if decide (minLen ≤ len flags - st) then intervals ++ [(st, len flags - 1)]
      else intervals
  | None => intervals
  end.

Definition computePhases '((Is, Qs) : list num * list num) : list num :=
  let len := len Is in
  let phases := FloatArray len in
  for_to 0 len (λ phases i, store phases i (atan2 (val Qs.[i]) (val Is.[i]))) phases.

Definition computeDiffs (phases : list num) : list num :=
  let len := len phases in
  let diffs := FloatArray len in
  for_to 1 len (λ diffs i,
    let d := sub (val phases.[i]) (val phases.[i - 1]) in
    let d := if gtb d PI then sub d (mul (of_Z 2) PI) else d in
    let d := if ltb d (neg PI) then add d (mul (of_Z 2) PI) else d in
    store diffs i (fround d)) diffs.

Definition decodeBits (diffs : list num) '((start, end_) : Z * Z)
    (samplesPerBit : Z) : option (list string) :=
  let total := end_ - start + 1 in
  let symbols := floor_div total samplesPerBit in
  for_quotient symbols (λ bits s,
    let offset := start + s * samplesPerBit in
    let sum := for_to 0 samplesPerBit (λ sum k, add sum (val diffs.[offset + k])) (of_Z 0) in
    bits ++ [if gtb sum (of_Z 0) then "1" else "0"]%string) [].

Definition extractSequences (file : list byte) (threshold : num) (minLen samplesPerBit : Z)
    : option (list string) :=
  let raw := readIq file in
  let norm := normalize raw in
  let power := calculatePower norm in
  let flags := aboveThreshold power threshold in
  let intervals := findIntervals flags minLen in
  if decide (len intervals = 0) then Some [] else
  let phases := computePhases norm in
  let diffs := computeDiffs phases in
  let validLen := PREAMBLE_LENGTH + SYNC_WORD_LENGTH + DEVICE_ID_LENGTH
                  + COMMAND_LENGTH + BATTERY_LENGTH in
  foldl (λ sequences interval,
    sequences ← sequences;
    bits ← decodeBits diffs interval samplesPerBit;
    Some (if decide (len bits = validLen) then Set_add sequences (String.concat "" bits)
          else sequences)) (Some []) intervals.

End Numeric.

End SignalProcessor.

(** ** Strings *)

#[local] Open Scope string_scope.

(** [s.length]. *)
Definition slen (s : string) : Z := Z.of_nat (String.length s).

(** [s.slice(a, b)]: negative positions count from the end, and both are
    clamped to the string. *)
Definition slice (s : string) (a b : Z) : string :=
  let n := slen s in
  let from := if decide (a < 0) then Z.max (n + a) 0 else Z.min a n in
  let to := if decide (b < 0) then Z.max (n + b) 0 else Z.min b n in
  substring (Z.to_nat from) (Z.to_nat (to - from)) s.

Fixpoint repeat_char (n : nat) (c : ascii) : string :=
  match n with
  | O => ""
  | S n' => String c (repeat_char n' c)
  end.

(** [s.padStart(target, fill)] for a fill of one character. *)
Definition padStart (s : string) (target : Z) (fill : ascii) : string :=
  repeat_char (Z.to_nat (target - slen s)) fill ++ s.

(** The white space [parseInt] skips (the part of it that is in Latin-1). *)
Definition is_white_space (c : ascii) : bool :=
  bool_decide (nat_of_ascii c ∈ [9; 10; 11; 12; 13; 32; 160]%nat).

Fixpoint skip_white_space (s : string) : string :=
  match s with
  | String c s' => if is_white_space c then skip_white_space s' else s
  | EmptyString => s
  end.

Definition binary_digit (c : ascii) : option Z :=
  if decide (c = "0"%char) then Some 0
  else if decide (c = "1"%char) then Some 1
  else None.

(** The value of the longest prefix of binary digits; [acc] is [None] until
    a digit has been read. *)
Fixpoint binary_prefix (s : string) (acc : option Z) : option Z :=
  match s with
  | String c s' =>
      match binary_digit c with
      | Some d => binary_prefix s' (Some (2 * default 0 acc + d))
      | None => acc
      end
  | EmptyString => acc
  end.

(** [parseInt(s, 2)]: an integer, or [None] for NaN. *)
Definition parseInt2 (s : string) : option Z :=
  let s := skip_white_space s in
  let '(sign, s) :=
    match s with
    | String "-" s' => (-1, s')
    | String "+" s' => (1, s')
    | _ => (1, s)
    end in
  (λ n, sign * n) <$> binary_prefix s None.

(** [n.toString(16)] for an integer or NaN. *)
Definition toString16 (n : option Z) : string :=
  match n with
  | None => "NaN"
  | Some Z0 => "0"
  | Some (Zpos p) => HexString.Raw.of_pos p ""
  | Some (Zneg p) => String "-" (HexString.Raw.of_pos p "")
  end.

(** [for (let i = from; i < bound; i += step) s = body(s, i)], [step > 0]. *)
Definition for_step {S} (from bound step : Z) (body : S → Z → S) (s : S) : S :=
  foldl body s
    ((λ j, from + step * j) <$> seqZ 0 (Qceiling (inject_Z (bound - from) / inject_Z step))).

(** [table[key] || fallback] on a table of strings: the fallback also
    replaces an empty string.  (The keys used are at most three characters
    long, so no inherited property of the object is ever hit.) *)
Definition lookup_or (table : gmap string string) (key fallback : string) : string :=
  match table !! key with
  | Some "" | None => fallback
  | Some v => v
  end.

(** ** The watcher: [FrameParser] *)

Record Frame := {
  sync : string;
  deviceId : string;
  command : string;
  battery : string
}.

Module FrameParser.

Definition binToHex (b : string) : string :=
  let b := padStart b (Qceiling (inject_Z (slen b) / 4) * 4) "0" in
  let h := "" in
  for_step 0 (slen b) 4 (λ h i, h ++ toString16 (parseInt2 (slice b i (i + 4)))) h.

Definition parse (frame : string) : Frame :=
  let pre := slice frame 0 PREAMBLE_LENGTH in
  let sync := slice frame PREAMBLE_LENGTH (PREAMBLE_LENGTH + SYNC_WORD_LENGTH) in
  let idStart := PREAMBLE_LENGTH + SYNC_WORD_LENGTH in
  let deviceId := "0x" ++ binToHex (slice frame idStart (idStart + DEVICE_ID_LENGTH)) in
  let cmdStart := idStart + DEVICE_ID_LENGTH in
  let commandBits := slice frame cmdStart (cmdStart + COMMAND_LENGTH) in
  let batteryBit :=
    slice frame (cmdStart + COMMAND_LENGTH) (cmdStart + COMMAND_LENGTH + BATTERY_LENGTH) in
  {| sync := sync;
     deviceId := deviceId;
     command := lookup_or COMMANDS commandBits "UNKNOWN";
     battery := lookup_or BATTERY_STATUS batteryBit "UNKNOWN" |}.

End FrameParser.

(** ** The watcher: publication *)

(** What a published message carries: one of the two discovery
    configurations of a device, or the state of its contact and battery. *)
Inductive payload :=
  | ContactConfig (deviceId : string)
  | BatteryConfig (deviceId : string)
  | State (contact battery_low : bool).

Record message := { topic : string; body : payload; retain : bool }.

(** The state the watcher keeps between frames: the messages sent, the
    devices already announced, and the lines printed. *)
Record world := {
  sent : list message;
  discovered : list string;
  console : list (string * string * string)
}.

Definition send (w : world) (topic : string) (body : payload) (retain : bool) : world :=
  {| sent := sent w ++ [ {| topic := topic; body := body; retain := retain |} ];
     discovered := discovered w;
     console := console w |}.

Definition publishDiscovery (w : world) (deviceId : string) : world :=
  let baseTopic := "rtl_433/" ++ deviceId in
  let w := send w (DISCOVERY_PREFIX ++ "/binary_sensor/" ++ deviceId ++ "/contact/config")
             (ContactConfig deviceId) true in
  let w := send w (DISCOVERY_PREFIX ++ "/binary_sensor/" ++ deviceId ++ "/battery_low/config")
             (BatteryConfig deviceId) true in
  {| sent := sent w; discovered := Set_add (discovered w) deviceId; console := console w |}.

(** The callback [processFile] runs on each extracted bit string. *)
Definition processFrame (w : world) (frameBits : string) : world :=
  let f := FrameParser.parse frameBits in
  if decide (sync f ≠ SYNC_WORD) then w else
  let w := if decide (deviceId f ∈ discovered w) then w else publishDiscovery w (deviceId f) in
  let baseTopic := "rtl_433/" ++ deviceId f in
  let w := send w baseTopic
             (State (bool_decide (command f = "OPEN")) (bool_decide (battery f = "LOW")))
             false in
  {| sent := sent w; discovered := discovered w;
     console := console w ++ [(deviceId f, command f, battery f)] |}.

Definition processFile `{Float} (w : world) (file : list byte) : option world :=
  frames ← SignalProcessor.extractSequences file (of_Z POWER_THRESHOLD)
              MIN_SIGNAL_LENGTH SAMPLES_PER_BIT;
  Some (foldl processFrame w frames).

#[local] Close Scope string_scope.

(** ** The batch extractor *)

Definition readCU8File (buffer : list byte) : list byte * list byte :=
  let n : Q := (inject_Z (len buffer) / 2)%Q in
  let Is := Uint8Array n in
  let Qs := Uint8Array n in
  for_lt 0 n (λ '(Is, Qs) i,
    (store Is i (ToUint8 buffer.[2 * i]),
     store Qs i (ToUint8 buffer.[2 * i + 1]))) (Is, Qs).

(** Whether a value read from a mask is truthy; the mask of the batch
    extractor is a [Float32Array] of the numbers 1 and 0 that
    [Float32Array.prototype.map] makes of [true] and [false], kept as
    integers. *)
Definition truthy (v : option Z) : bool :=
  match v with
  | Some z => negb (z =? 0)
  | None => false
  end.

(** [ToString] of an integer. *)
Definition Number_toString (z : Z) : string := pretty z.

Section Batch.
Context `{Float}.

Definition normalizeIQ (Iu Qu : list byte) : list num * list num :=
  let n := len Iu in
  let Is := FloatArray n in
  let Qs := FloatArray n in
  for_to 0 n (λ '(Is, Qs) i,
    (store Is i (fround (sub (of_byte Iu.[i]) (of_Z 128))),
     store Qs i (fround (sub (of_byte Qu.[i]) (of_Z 128))))) (Is, Qs).

Definition computePower (Is Qs : list num) : list num :=
  let n := len Is in
  let p := FloatArray n in
  for_to 0 n (λ p i,
    store p i (fround (add (mul (val Is.[i]) (val Is.[i]))
                           (mul (val Qs.[i]) (val Qs.[i]))))) p.

Definition detectSignal (power : list num) (threshold : num) : list Z :=
  (λ v, Z.b2z (gtb v threshold)) <$> power.

Definition findSignalIntervals (isSig : list Z) (minLen : Z) : list (Z * Z) :=
  let intervals := [] in
  let len := len isSig in
  let inSig := false in
  let start := 0 in
  let '(intervals, inSig, start) :=
    for_to 0 len (λ '(intervals, inSig, start) i,
      let '(inSig, start) :=
        if negb inSig && truthy isSig.[i] then (true, i) else (inSig, start) in
      if inSig && negb (truthy isSig.[i]) then
        let end_ := i - 1 in
        ((if decide (minLen ≤ end_ - start + 1) then intervals ++ [(start, end_)]
          else intervals),
         false, start)
      else (intervals, inSig, start)) (intervals, inSig, start) in
  if inSig then
    let end_ := len - 1 in
    if decide (minLen ≤ end_ - start + 1) then intervals ++ [(start, end_)] else intervals
  else intervals.

Definition computePhases (Is Qs : list num) : list num :=
  let n := len Is in
  let ph := FloatArray n in
  for_to 0 n (λ ph i, store ph i (atan2 (val Qs.[i]) (val Is.[i]))) ph.

Definition computePhaseDiff (phases : list num) : list num :=
  let n := len phases in
  let dp := FloatArray n in
  let dp := store dp 0 (fround (of_Z 0)) in
  for_to 1 n (λ dp i,
    let d := sub (val phases.[i]) (val phases.[i - 1]) in
    let d := if gtb d PI then sub d (mul (of_Z 2) PI) else d in
    let d := if ltb d (neg PI) then add d (mul (of_Z 2) PI) else d in
    store dp i (fround d)) dp.

Definition decodeFSK (dphi : list num) (start end_ samplesPerBit : Z) : option (list Z) :=
  let total := end_ - start + 1 in
  let nSymbols := floor_div total samplesPerBit in
  for_quotient nSymbols (λ bits s,
    let base := start + s * samplesPerBit in
    let sum := for_to 0 samplesPerBit (λ sum k, add sum (val dphi.[base + k])) (of_Z 0) in
    bits ++ [if gtb sum (of_Z 0) then 1 else 0]) [].

Definition extractUnique64BitSequences (filePath : list byte) (powerThreshold : num)
    (minSignalLength samplesPerBit : Z) : option (list string) :=
  let '(Iu, Qu) := readCU8File filePath in
  let '(Is, Qs) := normalizeIQ Iu Qu in
  let power := computePower Is Qs in
  let isSignal := detectSignal power powerThreshold in
  let intervals := findSignalIntervals isSignal minSignalLength in
  if decide (len intervals = 0) then Some [] else
  let phases := computePhases Is Qs in
  let dphi := computePhaseDiff phases in
  foldl (λ uniqueSequences '(start, end_),
    uniqueSequences ← uniqueSequences;
    bits ← decodeFSK dphi start end_ samplesPerBit;
    Some (if decide (len bits = 64)
          then Set_add uniqueSequences (String.concat "" (Number_toString <$> bits))
          else uniqueSequences)) (Some []) intervals.

End Batch.

(** ** IEEE 754 numbers

    The numbers of the program: binary64 doubles, rounded to binary32 by a
    store into a [Float32Array].  A finite number is kept as an integer
    times a power of two; every operation computes the exact result and
    rounds it once, to nearest with ties to even.  The zero has no sign:
    the sums, differences, products and comparisons of the program depend
    on the sign of a zero at most in the sign of a zero, and the samples it
    gives to [Math.atan2], which tells the zeros apart, are differences
    [byte - 128], which are never -0. *)

Module IEEE.

(** A binary format: significands of [prec] bits, exponents from [emin]
    on, overflow to an infinity from [2 ^ emax] on. *)
Record format := { prec : Z; emin : Z; emax : Z }.

Definition binary64 : format := {| prec := 53; emin := -1074; emax := 1024 |}.
Definition binary32 : format := {| prec := 24; emin := -149; emax := 128 |}.

(** A JavaScript number: the finite number [m * 2 ^ e], an infinity, or
    NaN. *)
Inductive double :=
  | Fin (m e : Z)
  | Inf (negative : bool)
  | Nan.

(** [m / 2 ^ k] rounded to the nearest integer, a tie to the even one. *)
Definition nearest_even (m k : Z) : Z :=
  let q := m / 2 ^ k in
  let r := m mod 2 ^ k in
  let half := 2 ^ (k - 1) in
  if decide (r < half) then q
  else if decide (half < r) then q + 1
  else if Z.even q then q else q + 1.

(** The exponent the format gives the last bit of [m * 2 ^ e]: [prec] bits
    below the leading one, and not below [emin]. *)
Definition last_bit (f : format) (m e : Z) : Z :=
  Z.max (Z.log2 (Z.abs m) + 1 + e - prec f) (emin f).

(** [m * 2 ^ e] rounded to a multiple of its last bit. *)
Definition round_significand (f : format) (m e : Z) : Z * Z :=
  let c := last_bit f m e in
  if decide (e < c) then (nearest_even m (c - e), c) else (m, e).

(** [m * 2 ^ e] rounded to the format: an infinity when the rounded number
    reaches [2 ^ emax]. *)
Definition round (f : format) (m e : Z) : double :=
  let '(m, e) := round_significand f m e in
  if decide (m = 0) then Fin 0 0
  else if decide (emax f ≤ Z.log2 (Z.abs m) + e) then Inf (bool_decide (m < 0))
  else Fin m e.

(** The number an integer literal or an array element is. *)
Definition of_Z (z : Z) : double := round binary64 z 0.

Definition neg (x : double) : double :=
  match x with
  | Fin m e => Fin (- m) e
  | Inf s => Inf (negb s)
  | Nan => Nan
  end.

Definition add (x y : double) : double :=
  match x, y with
  | Nan, _ | _, Nan => Nan
  | Inf s, Inf t => if decide (s = t) then Inf s else Nan
  | Inf s, Fin _ _ => Inf s
  | Fin _ _, Inf t => Inf t
  | Fin m1 e1, Fin m2 e2 =>
      let e := Z.min e1 e2 in
      round binary64 (m1 * 2 ^ (e1 - e) + m2 * 2 ^ (e2 - e)) e
  end.

Definition sub (x y : double) : double := add x (neg y).

Definition mul (x y : double) : double :=
  match x, y with
  | Nan, _ | _, Nan => Nan
  | Inf s, Inf t => Inf (xorb s t)
  | Inf s, Fin m _ | Fin m _, Inf s =>
      if decide (m = 0) then Nan else Inf (xorb s (bool_decide (m < 0)))
  | Fin m1 e1, Fin m2 e2 => round binary64 (m1 * m2) (e1 + e2)
  end.

(** [x < y]; false when either is NaN. *)
Definition ltb (x y : double) : bool :=
  match x, y with
  | Nan, _ | _, Nan => false
  | Inf s, Inf t => s && negb t
  | Inf s, Fin _ _ => s
  | Fin _ _, Inf t => negb t
  | Fin m1 e1, Fin m2 e2 =>
      let e := Z.min e1 e2 in
      bool_decide (m1 * 2 ^ (e1 - e) < m2 * 2 ^ (e2 - e))
  end.

Definition gtb (x y : double) : bool := ltb y x.

(** The rounding of a store into a [Float32Array]. *)
Definition fround (x : double) : double :=
  match x with
  | Fin m e => round binary32 m e
  | Inf s => Inf s
  | Nan => Nan
  end.

(** [Math.PI], the double nearest to π: 3.141592653589793. *)
Definition PI : double := Fin 884279719003555 (-48).

Definition ltb_irrefl (x : double) : ltb x x = false :=
  match x with
  | Fin m e => bool_decide_eq_false_2 _ (Z.lt_irrefl _)
  | Inf s => andb_negb_r s
  | Nan => eq_refl
  end.

(** The real number a finite double is. *)
Definition value (x : double) : R :=
  match x with
  | Fin m e => (IZR m * powerRZ 2 e)%R
  | _ => 0%R
  end.

(** [x] is finite and of magnitude at most that of [bound]. *)
Definition within (bound x : double) : Prop :=
  match x with
  | Fin _ _ => (Rabs (value x) <= value bound)%R
  | _ => False
  end.

(** A number the format holds: a significand of at most [prec] bits (or
    [2 ^ prec] itself) at an exponent the format has. *)
Definition held (f : format) (m e : Z) : Prop := Z.abs m ≤ 2 ^ prec f ∧ emin f ≤ e.

End IEEE.

(** The arithmetic of the program.  [Math.atan2] is approximated by the
    implementation and stays a parameter. *)
Definition IEEEFloat (math_atan2 : IEEE.double → IEEE.double → IEEE.double) : Float := {|
  num := IEEE.double;
  of_Z := IEEE.of_Z;
  nan := IEEE.Nan;
  add := IEEE.add;
  sub := IEEE.sub;
  mul := IEEE.mul;
  neg := IEEE.neg;
  gtb := IEEE.gtb;
  ltb := IEEE.ltb;
  atan2 := math_atan2;
  fround := IEEE.fround;
  PI := IEEE.PI;
  fround_0 := eq_refl;
  gtb_irrefl := IEEE.ltb_irrefl
|}.

(** [Math.atan2(y, x)] where [y] is 0, as ECMAScript fixes it: the double
    nearest to π for a negative [x], 0 for any other number, NaN for
    NaN. *)
Definition atan2_of_zero (y x : IEEE.double) : IEEE.double :=
  match x with
  | IEEE.Nan => IEEE.Nan
  | _ => if IEEE.ltb x (IEEE.of_Z 0) then IEEE.PI else IEEE.of_Z 0
  end.

(** *** The standard library's specification of IEEE 754, for comparison *)

(** [m * 2 ^ e] rounded as the standard library's specification rounds
    it. *)
Definition reference_round (prec emax m e : Z) : SpecFloat.spec_float :=
  match m with
  | 0 => SpecFloat.S754_zero false
  | Zpos p => SpecFloat.binary_round prec emax false p e
  | Zneg p => SpecFloat.binary_round prec emax true p e
  end.

(** A double in the standard library's representation. *)
Definition reference_double (x : IEEE.double) : SpecFloat.spec_float :=
  match x with
  | IEEE.Fin m e => reference_round 53 1024 m e
  | IEEE.Inf s => SpecFloat.S754_infinity s
  | IEEE.Nan => SpecFloat.S754_nan
  end.

(** The two are the same number; a zero is, whatever its sign. *)
Definition same_number (x : IEEE.double) (y : SpecFloat.spec_float) : bool :=
  match x, y with
  | IEEE.Fin m _, SpecFloat.S754_zero _ => m =? 0
  | IEEE.Fin m1 e1, SpecFloat.S754_finite s m2 e2 =>
      let e := Z.min e1 e2 in
      m1 * 2 ^ (e1 - e) =? (if s then Zneg m2 else Zpos m2) * 2 ^ (e2 - e)
  | IEEE.Inf s, SpecFloat.S754_infinity t => bool_decide (s = t)
  | IEEE.Nan, SpecFloat.S754_nan => true
  | _, _ => false
  end.

(** Significands and exponents to compare the roundings on: around the
    24th and the 53rd bit, with ties, at the subnormal and at the overflow
    end of each format. *)
Definition significands : list Z :=
  [1; 2; 3; 5; 7; -1; -3; 16777215; 16777216; 16777217; 33554431; 33554433; 33554434;
   33554435; 50331647; 50331648; 50331649; -33554433; -33554435; -50331648;
   9007199254740991; 9007199254740992; 9007199254740993; 18014398509481983;
   18014398509481985; 18014398509481986; 18014398509481987; 27021597764222976;
   -18014398509481985; -18014398509481987; -27021597764222976;
   7074237752028440; 884279719003555; 123456789012345678901234567890;
   -98765432109876543210987].

Definition exponents : list Z :=
  [-1100; -1075; -1074; -1073; -200; -151; -150; -149; -148; -130; -52; -51; -29; -22;
   -1; 0; 1; 5; 100; 103; 104; 105; 127; 128; 970; 971; 972; 1023; 1024].

(** Doubles to compare the operations on. *)
Definition doubles : list IEEE.double :=
  [IEEE.Fin 0 0; IEEE.Fin 1 0; IEEE.Fin (-1) 0; IEEE.PI; IEEE.neg IEEE.PI;
   IEEE.Fin 1768559438007110 (-48); IEEE.Fin 13176795 (-22); IEEE.Fin (-13176795) (-22);
   IEEE.Fin 3602879701896397 (-55); IEEE.Fin 1 (-1074); IEEE.Fin (-3) (-1074);
   IEEE.Fin 9007199254740991 971; IEEE.Fin (-9007199254740991) 971;
   IEEE.Fin 6369051672525773 (-52); IEEE.Fin 8388609 (-23); IEEE.Fin 16777215 104;
   IEEE.Inf false; IEEE.Inf true; IEEE.Nan].

(** ** Numbers over the reals

    An interpretation without rounding: a number is a real or NaN,
    arithmetic is exact, and [fround] rounds nothing.  It is used where
    every number the program computes is an integer of small magnitude or
    an exact zero, which the program's arithmetic computes exactly as
    well. *)

Inductive number := Real (r : R) | NaN.

#[local] Instance Rlt_decision (x y : R) : Decision (x < y)%R := Rlt_dec x y.

Definition number_lift (f : R → R → R) (a b : number) : number :=
  match a, b with
  | Real x, Real y => Real (f x y)
  | _, _ => NaN
  end.

Definition number_neg (a : number) : number :=
  match a with
  | Real x => Real (- x)
  | NaN => NaN
  end.

Definition number_ltb (a b : number) : bool :=
  match a, b with
  | Real x, Real y => bool_decide (x < y)%R
  | _, _ => false
  end.

Definition number_gtb (a b : number) : bool := number_ltb b a.

(** [Math.atan2(y, x)], by quadrant. *)
Definition number_atan2 (a b : number) : number :=
  match a, b with
  | Real y, Real x =>
      Real (if decide (0 < x)%R then atan (y / x)
            else if decide (x < 0)%R then
              (if decide (y < 0)%R then atan (y / x) - Rtrigo1.PI
               else atan (y / x) + Rtrigo1.PI)
            else if decide (0 < y)%R then Rtrigo1.PI / 2
            else if decide (y < 0)%R then - Rtrigo1.PI / 2
            else 0)%R
  | _, _ => NaN
  end.

Definition number_gtb_irrefl (x : number) : number_gtb x x = false :=
  match x with
  | Real r => bool_decide_eq_false_2 (r < r)%R (Rlt_irrefl r)
  | NaN => eq_refl
  end.

#[export] Instance RealFloat : Float := {|
  num := number;
  of_Z := λ z, Real (IZR z);
  nan := NaN;
  add := number_lift Rplus;
  sub := number_lift Rminus;
  mul := number_lift Rmult;
  neg := number_neg;
  gtb := number_gtb;
  ltb := number_ltb;
  atan2 := number_atan2;
  fround := λ x, x;
  PI := Real Rtrigo1.PI;
  fround_0 := eq_refl;
  gtb_irrefl := number_gtb_irrefl
|}.

(** A phase, or a phase difference, within the half-open range (-π, π]. *)
Definition in_half_open_range (x : number) : Prop :=
  match x with
  | Real r => (- Rtrigo1.PI < r <= Rtrigo1.PI)%R
  | NaN => False
  end.

(** The mask of the specification's example. *)
Definition mask13 : list bool :=
  [false; true; true; true; false; true; true; false; false; true; true; true; true].

(** ** What the Interval Extractor is to return *)

(** [(s, e)] is a run of the mask: within the mask, active at every sample
    from [s] to [e], and at least [minLen] samples long. *)
Definition run_of (mask : list bool) (minLen : Z) (iv : Z * Z) : Prop :=
  (0 ≤ iv.1 ∧ iv.1 ≤ iv.2 ∧ iv.2 < len mask) ∧
  minLen ≤ iv.2 - iv.1 + 1 ∧
  ∀ i, iv.1 ≤ i ∧ i ≤ iv.2 → mask.[i] = Some true.

(** Each interval ends before the next one starts. *)
Definition ascending (ivs : list (Z * Z)) : Prop :=
  ∀ (j k : nat) iv1 iv2,
    (j < k)%nat → ivs !! j = Some iv1 → ivs !! k = Some iv2 → iv1.2 < iv2.1.

(** No sample belongs to two intervals. *)
Definition pairwise_disjoint (ivs : list (Z * Z)) : Prop :=
  ∀ (j k : nat) iv1 iv2 i,
    j ≠ k → ivs !! j = Some iv1 → ivs !! k = Some iv2 →
    ¬ ((iv1.1 ≤ i ∧ i ≤ iv1.2) ∧ (iv2.1 ≤ i ∧ i ≤ iv2.2)).

(** ** What the Frame Parser is to recover *)

(** A string of the characters 0 and 1. *)
Fixpoint bit_string (s : string) : Prop :=
  match s with
  | EmptyString => True
  | String c s' => (c = "0"%char ∨ c = "1"%char) ∧ bit_string s'
  end.

(** The four bits a hexadecimal digit stands for. *)
Definition hex_digit_bits (c : ascii) : string :=
  (if decide (c = "0"%char) then "0000" else if decide (c = "1"%char) then "0001"
   else if decide (c = "2"%char) then "0010" else if decide (c = "3"%char) then "0011"
   else if decide (c = "4"%char) then "0100" else if decide (c = "5"%char) then "0101"
   else if decide (c = "6"%char) then "0110" else if decide (c = "7"%char) then "0111"
   else if decide (c = "8"%char) then "1000" else if decide (c = "9"%char) then "1001"
   else if decide (c = "a"%char) then "1010" else if decide (c = "b"%char) then "1011"
   else if decide (c = "c"%char) then "1100" else if decide (c = "d"%char) then "1101"
   else if decide (c = "e"%char) then "1110" else if decide (c = "f"%char) then "1111"
   else "")%string.

(** The bits a string of hexadecimal digits stands for. *)
Fixpoint hexToBin (h : string) : string :=
  match h with
  | EmptyString => EmptyString
  | String c h' => (hex_digit_bits c ++ hexToBin h')%string
  end.

(** One hexadecimal digit for each group of four characters, as
    [binToHex] makes it of a group. *)
Fixpoint hex_of_nibbles (b : string) : string :=
  match b with
  | String c1 (String c2 (String c3 (String c4 rest))) =>
      (toString16 (parseInt2 (String c1 (String c2 (String c3 (String c4 EmptyString)))))
       ++ hex_of_nibbles rest)%string
  | _ => EmptyString
  end.

(** ** What the Bit Slicer is to return *)

(** The samples of the symbol period that starts at [offset]: the [w]
    phase differences from there on, NaN where the array has none. *)
Definition symbol_period `{Float} (diffs : list num) (offset w : Z) : list num :=
  (λ k, val diffs.[offset + k]) <$> seqZ 0 w.

(** Integrate and dump: the sum of the samples, from 0, left to right. *)
Definition integrate `{Float} (samples : list num) : num := foldl add (of_Z 0) samples.

(** ** The batch extractor: [processDirectory] *)

(** An entry of the directory read: a regular file with its bytes, or
    anything else ([isFile()] is false). *)
Inductive entry := RegularFile (content : list byte) | NotAFile.

(** [results[file] = value] on the object literal [{}]: an own property,
    except that the key [__proto__] is the inherited setter, which sets the
    prototype and adds no property. *)
Definition assign (results : gmap string (list string)) (file : string)
    (value : list string) : gmap string (list string) :=
  if decide (file = "__proto__"%string) then results else <[file := value]> results.

Definition processDirectory `{Float} (dirPath : list (string * entry)) (powerThreshold : num)
    (minSignalLength samplesPerBit : Z) : option (gmap string (list string)) :=
  let results : gmap string (list string) := ∅ in
  let files := dirPath in
  foldl (λ results '(file, fullPath),
    results ← results;
    match fullPath with
    | RegularFile content =>
        value ← extractUnique64BitSequences content powerThreshold minSignalLength
                   samplesPerBit;
        Some (assign results file value)
    | NotAFile => Some results
    end) (Some results) files.

(** ** What the remaining properties speak of *)

(** The buffer that holds [Is] at the even and [Qs] at the odd positions. *)
Fixpoint interleave (Is Qs : list byte) : list byte :=
  match Is, Qs with
  | i :: Is', q :: Qs' => i :: q :: interleave Is' Qs'
  | _, _ => []
  end.

(** The value of a byte. *)
Definition byte_val (b : byte) : Z := Z.of_N (Byte.to_N b).

(** The power of one sample, in integers. *)
Definition sample_power (i q : byte) : Z :=
  (byte_val i - 128) * (byte_val i - 128) + (byte_val q - 128) * (byte_val q - 128).

(** The activity mask of a capture for an integer threshold, in integers. *)
Definition integer_mask (file : list byte) (threshold : Z) : list bool :=
  let '(Is, Qs) := SignalProcessor.readIq file in
  zip_with (λ i q, bool_decide (threshold < sample_power i q)) Is Qs.

(** [(s, e)] is a maximal run of the mask: active from [s] to [e], with no
    active sample just before [s] or just after [e]. *)
Definition maximal_run (mask : list bool) (iv : Z * Z) : Prop :=
  (0 ≤ iv.1 ∧ iv.1 ≤ iv.2 ∧ iv.2 < len mask) ∧
  (∀ i, iv.1 ≤ i ∧ i ≤ iv.2 → mask.[i] = Some true) ∧
  mask.[iv.1 - 1] ≠ Some true ∧ mask.[iv.2 + 1] ≠ Some true.

#[export] Instance payload_eq_dec : EqDecision payload.
Proof. solve_decision. Defined.

(** The two discovery messages of a device: retained, each on its
    configuration topic. *)
Definition contact_discovery (d : string) : message :=
  {| topic := "homeassistant/binary_sensor/" ++ d ++ "/contact/config";
     body := ContactConfig d; retain := true |}%string.

Definition battery_discovery (d : string) : message :=
  {| topic := "homeassistant/binary_sensor/" ++ d ++ "/battery_low/config";
     body := BatteryConfig d; retain := true |}%string.

(** The messages that carry the payload [b], in the order sent. *)
Definition carrying (b : payload) (msgs : list message) : list message :=
  filter (λ m, body m = b) msgs.

(** The discovery configurations sent so far are those of the devices
    recorded as announced: for such a device, the one message that carries
    its contact configuration is its retained contact discovery message,
    and likewise for the battery; for any other device there is no such
    message. *)
Definition announced_once (w : world) : Prop :=
  NoDup (discovered w) ∧
  ∀ d, carrying (ContactConfig d) (sent w)
       = (if decide (d ∈ discovered w) then [contact_discovery d] else []) ∧
       carrying (BatteryConfig d) (sent w)
       = (if decide (d ∈ discovered w) then [battery_discovery d] else []).

(** A hexadecimal digit, in lower case as [toString(16)] writes it. *)
Definition hex_digit (c : ascii) : Prop :=
  c ∈ list_ascii_of_string "0123456789abcdef".

(** A string of hexadecimal digits. *)
Fixpoint hex_string (s : string) : Prop :=
  match s with
  | EmptyString => True
  | String c s' => hex_digit c ∧ hex_string s'
  end.

(** A device id as [parse] makes it of a bit string: "0x" and five
    hexadecimal digits. *)
Definition well_formed_id (d : string) : Prop :=
  ∃ h : string, d = ("0x" ++ h)%string ∧ slen h = 5 ∧ hex_string h.

(** [decodeBits] with the limit of the array of bits: the same symbol
    loop, run for at most [rounds] tests of its condition. *)
Definition decodeBits_run `{Float} (limit : Z) (rounds : nat) (diffs : list num)
    '((start, end_) : Z * Z) (samplesPerBit : Z) : run (list string) :=
  let total := end_ - start + 1 in
  let symbols := floor_div total samplesPerBit in
  push_loop limit rounds symbols (λ s,
    let offset := start + s * samplesPerBit in
    let sum := for_to 0 samplesPerBit (λ sum k, add sum (val diffs.[offset + k])) (of_Z 0) in
    if gtb sum (of_Z 0) then "1" else "0")%string 0 [].

(** A capture of [n] samples that are all the same: an unmodulated
    carrier. *)
Definition carrier (n : nat) (bi bq : byte) : list byte :=
  interleave (replicate n bi) (replicate n bq).

(** * Properties *)

(** Evaluation of a pipeline over the reals, down to the real arithmetic. *)
Ltac real_compute :=
  cbv -[Rplus Rminus Rmult Rdiv Ropp IZR Rlt Rlt_dec Rtrigo1.PI atan].

(** ** Reads, stores and loops *)

Lemma len_nonneg {A} (a : list A) : 0 ≤ len a.
Proof. unfold len. lia. Qed.

Lemma read_Some_lt {A} (a : list A) i x : a.[i] = Some x → 0 ≤ i < len a.
Proof.
  unfold read, len. case_decide; [|done]. intros Hx%lookup_lt_Some. lia.
Qed.

Lemma read_is_Some {A} (a : list A) i : 0 ≤ i < len a → is_Some a.[i].
Proof.
  unfold read, len. intros Hi. rewrite decide_True by lia.
  apply lookup_lt_is_Some. lia.
Qed.

Lemma read_None {A} (a : list A) i : ¬ (0 ≤ i < len a) → a.[i] = None.
Proof.
  unfold read, len. intros Hi. case_decide; [|done].
  apply lookup_ge_None. lia.
Qed.

Lemma len_store {A} (a : list A) i v : len (store a i v) = len a.
Proof. unfold store, len. case_decide; [|done]. by rewrite length_insert. Qed.

Lemma read_store {A} (a : list A) i j v :
  (store a i v).[j] = if decide (i = j) then const v <$> a.[i] else a.[j].
Proof.
  unfold store, read. destruct (decide (i = j)) as [->|Hne].
  - case_decide; [|done]. destruct (decide (Z.to_nat j < length a)%nat) as [Hlt|Hge].
    + rewrite list_lookup_insert_eq by done.
      destruct (lookup_lt_is_Some_2 a _ Hlt) as [x ->]. done.
    + rewrite list_insert_ge by lia. rewrite lookup_ge_None_2 by lia. done.
  - case_decide; [|done]. case_decide; [|done].
    rewrite list_lookup_insert_ne by lia. done.
Qed.

(** A loop that stores [f i] at each index [i] it visits: what a later read
    finds. *)
Lemma read_store_loop {A} (f : Z → A) (cnt : nat) : ∀ (a : list A) (from j : Z),
  (foldl (λ a i, store a i (f i)) a (seqZ from (Z.of_nat cnt))).[j]
  = if decide (from ≤ j < from + Z.of_nat cnt) then const (f j) <$> a.[j] else a.[j].
Proof.
  induction cnt as [|cnt IH]; intros a from j.
  - simpl. rewrite decide_False by lia. done.
  - rewrite seqZ_cons by lia. simpl.
    replace (Z.pred (Z.of_nat (S cnt))) with (Z.of_nat cnt) by lia.
    rewrite IH, read_store. unfold Z.succ.
    destruct (decide (from = j)) as [->|Hne].
    + rewrite decide_False by lia. rewrite decide_True by lia. done.
    + destruct (decide (from + 1 ≤ j < from + 1 + Z.of_nat cnt)).
      * rewrite decide_True by lia. done.
      * rewrite decide_False by lia. done.
Qed.

Lemma len_store_loop {A} (f : Z → A) (l : list Z) : ∀ a : list A,
  len (foldl (λ a i, store a i (f i)) a l) = len a.
Proof.
  induction l as [|i l IH]; intros a; simpl; [done|]. by rewrite IH, len_store.
Qed.

(** The indices a loop with a rational bound visits are the integers from
    [from] on that are below the bound. *)
Lemma for_lt_indices (from : Z) (bound : Q) (i : Z) :
  i ∈ seqZ from (Qceiling bound - from) ↔ from ≤ i ∧ (inject_Z i < bound)%Q.
Proof.
  rewrite elem_of_seqZ. split.
  - intros [Hfrom Hi]. split; [done|].
    apply Qle_lt_trans with (inject_Z (Qceiling bound - 1)); [|apply Qceiling_lt].
    rewrite <- Zle_Qle. lia.
  - intros [Hfrom Hi]. split; [done|].
    assert (i < Qceiling bound); [|lia].
    rewrite Zlt_Qlt. eapply Qlt_le_trans; [exact Hi|apply Qle_ceiling].
Qed.

(** A loop over two arrays at once is a loop over each. *)
Lemma foldl_pair {A B C} (F : A → C → A) (G : B → C → B) (l : list C) : ∀ a b,
  foldl (λ '(a, b) i, (F a i, G b i)) (a, b) l = (foldl F a l, foldl G b l).
Proof. induction l as [|i l IH]; intros a b; simpl; [done|]. apply IH. Qed.

Lemma list_eq_read {A} (a b : list A) : (∀ i, a.[i] = b.[i]) → a = b.
Proof.
  intros Hab. apply list_eq. intros i. specialize (Hab (Z.of_nat i)).
  unfold read in Hab. rewrite !decide_True in Hab by lia.
  rewrite Nat2Z.id in Hab. exact Hab.
Qed.

Lemma read_replicate {A} (n : nat) (x : A) i :
  (replicate n x).[i] = if decide (0 ≤ i < Z.of_nat n) then Some x else None.
Proof.
  unfold read. case_decide.
  - destruct (decide (Z.to_nat i < n)%nat).
    + rewrite decide_True by lia. by apply lookup_replicate_2.
    + rewrite decide_False by lia. apply lookup_ge_None. rewrite length_replicate. lia.
  - rewrite decide_False by lia. done.
Qed.

Lemma len_replicate {A} (n : nat) (x : A) : len (replicate n x) = Z.of_nat n.
Proof. unfold len. by rewrite length_replicate. Qed.

(** A loop from [from] that fills a fresh array of [n] elements. *)
Lemma read_fill_loop {A} (f : Z → A) (z : A) (n : nat) (from cnt i : Z) :
  (foldl (λ a i, store a i (f i)) (replicate n z) (seqZ from cnt)).[i]
  = if decide (0 ≤ i < Z.of_nat n) then
      Some (if decide (from ≤ i < from + cnt) then f i else z)
    else None.
Proof.
  destruct (decide (0 ≤ cnt)) as [Hc|Hc].
  - replace cnt with (Z.of_nat (Z.to_nat cnt)) at 1 by lia.
    rewrite read_store_loop, read_replicate. rewrite Z2Nat.id by done.
    repeat case_decide; done.
  - replace (seqZ from cnt) with (@nil Z).
    + simpl. rewrite read_replicate. repeat case_decide; try done; lia.
    + unfold seqZ. replace (Z.to_nat cnt) with 0%nat by lia. done.
Qed.

(** ** The Sample Loader *)

Lemma Qfloor_half (n : Z) : Qfloor (inject_Z n / 2) = n / 2.
Proof.
  unfold Qfloor, Qdiv, Qmult, Qinv, inject_Z; simpl. f_equal. lia.
Qed.

Lemma Qceiling_half (n : Z) : Qceiling (inject_Z n / 2) = (n + 1) / 2.
Proof.
  unfold Qceiling, Qfloor, Qopp, Qdiv, Qmult, Qinv, inject_Z; simpl.
  replace (- (n * 1)) with (- n) by lia. Z.div_mod_to_equations. lia.
Qed.

(** What [readIq] returns, element by element: both arrays have the
    indices below [floor(length / 2)], and hold the bytes at the even and
    at the odd positions. *)
Lemma readIq_spec (buffer : list byte) (i : Z) :
  let '(Is, Qs) := SignalProcessor.readIq buffer in
  len Is = len buffer / 2 ∧ len Qs = len buffer / 2 ∧
  Is.[i] = (if decide (0 ≤ i < len buffer / 2) then buffer.[2 * i] else None) ∧
  Qs.[i] = (if decide (0 ≤ i < len buffer / 2) then buffer.[2 * i + 1] else None).
Proof.
  unfold SignalProcessor.readIq, for_lt. rewrite foldl_pair.
  pose proof (len_nonneg buffer) as Hn.
  assert (0 ≤ len buffer / 2) as Hh by (apply Z.div_pos; lia).
  rewrite !len_store_loop. unfold Uint8Array, ToIndex.
  rewrite !len_replicate, !read_fill_loop, Qfloor_half, Qceiling_half, !Z2Nat.id by done.
  split; [done|]. split; [done|].
  assert (len buffer / 2 ≤ (len buffer + 1) / 2) by (Z.div_mod_to_equations; lia).
  split; case_decide; try done; rewrite decide_True by lia.
  - destruct (read_is_Some buffer (2 * i)) as [b ->]; [|done].
    Z.div_mod_to_equations; lia.
  - destruct (read_is_Some buffer (2 * i + 1)) as [b ->]; [|done].
    Z.div_mod_to_equations; lia.
Qed.

Lemma readCU8File_readIq : readCU8File = SignalProcessor.readIq.
Proof. reflexivity. Qed.

Lemma read_take {A} (a : list A) (n : nat) i :
  i < Z.of_nat n → (take n a).[i] = a.[i].
Proof.
  unfold read. intros Hi. case_decide; [|done]. apply lookup_take_lt. lia.
Qed.

(** C1: for a buffer with an odd number of bytes, the Sample Loader returns
    [I] and [Q] of length [floor(bytes / 2)], and returns exactly what it
    returns for the buffer without its last byte: the dangling byte is
    dropped silently.  ([readIq] and [readCU8File] are total: no input is an
    error.) *)
Theorem C1_odd_buffer_truncated (buffer : list byte) :
  Z.odd (len buffer) = true →
  let '(Is, Qs) := SignalProcessor.readIq buffer in
  len Is = len buffer / 2 ∧ len Qs = len buffer / 2 ∧
  SignalProcessor.readIq (take (length buffer - 1) buffer) = (Is, Qs) ∧
  readCU8File buffer = (Is, Qs).
Proof.
  intros Hodd. rewrite readCU8File_readIq.
  pose proof (λ i, readIq_spec buffer i) as Hb.
  pose proof (λ i, readIq_spec (take (length buffer - 1) buffer) i) as Ht.
  destruct (SignalProcessor.readIq buffer) as [Is Qs].
  destruct (SignalProcessor.readIq (take _ buffer)) as [Is' Qs'].
  destruct (Hb 0) as (HI & HQ & _). split; [done|]. split; [done|]. split; [|done].
  assert (len buffer = 2 * (len buffer / 2) + 1) as Hodd'.
  { pose proof (Zmod_odd (len buffer)) as Hm. rewrite Hodd in Hm.
    pose proof (Z.div_mod (len buffer) 2). lia. }
  pose proof (len_nonneg buffer) as Hpos.
  assert (len (take (length buffer - 1) buffer) = len buffer - 1) as Hlen.
  { unfold len in *. rewrite length_take. Z.div_mod_to_equations. lia. }
  assert ((len buffer - 1) / 2 = len buffer / 2) as Hdiv
    by (Z.div_mod_to_equations; lia).
  f_equal; apply list_eq_read; intros i;
    destruct (Hb i) as (_ & _ & HbI & HbQ); destruct (Ht i) as (_ & _ & HtI & HtQ);
    rewrite ?HbI, ?HbQ, ?HtI, ?HtQ, Hlen, Hdiv;
    destruct (decide (0 ≤ i < len buffer / 2)); try done;
    apply read_take; unfold len in *; lia.
Qed.

Lemma C1_odd_buffer_truncated_witness :
  Z.odd (len [x01; x02; x03; x04; x05]) = true ∧
  let '(Is, Qs) := SignalProcessor.readIq [x01; x02; x03; x04; x05] in
  len Is = 2 ∧ len Qs = 2 ∧
  SignalProcessor.readIq [x01; x02; x03; x04] = (Is, Qs) ∧
  readCU8File [x01; x02; x03; x04; x05] = (Is, Qs).
Proof.
  split; [reflexivity|].
  apply (C1_odd_buffer_truncated [x01; x02; x03; x04; x05]). reflexivity.
Defined.

(** C7: for a buffer of even length [2n], the Sample Loader returns [I] and
    [Q] of length [n] with [I[i] = buffer[2i]] and [Q[i] = buffer[2i+1]] for
    every [i < n]; so do both loaders. *)
Theorem C7_even_buffer_deinterleaved (buffer : list byte) (n : Z) :
  len buffer = 2 * n →
  let '(Is, Qs) := SignalProcessor.readIq buffer in
  len Is = n ∧ len Qs = n ∧
  (∀ i, 0 ≤ i < n → Is.[i] = buffer.[2 * i] ∧ Qs.[i] = buffer.[2 * i + 1]) ∧
  readCU8File buffer = (Is, Qs).
Proof.
  intros Hlen. rewrite readCU8File_readIq.
  pose proof (λ i, readIq_spec buffer i) as Hb.
  destruct (SignalProcessor.readIq buffer) as [Is Qs].
  assert (len buffer / 2 = n) as Hn by (Z.div_mod_to_equations; lia).
  destruct (Hb 0) as (HI & HQ & _). rewrite Hn in HI, HQ.
  split; [done|]. split; [done|]. split; [|done].
  intros i Hi. destruct (Hb i) as (_ & _ & -> & ->).
  rewrite Hn, !decide_True by done. done.
Qed.

Lemma C7_even_buffer_deinterleaved_witness :
  len [x0a; x0b; x0c; x0d] = 2 * 2 ∧
  let '(Is, Qs) := SignalProcessor.readIq [x0a; x0b; x0c; x0d] in
  len Is = 2 ∧ len Qs = 2 ∧
  (∀ i, 0 ≤ i < 2 → Is.[i] = [x0a; x0b; x0c; x0d].[2 * i] ∧
                     Qs.[i] = [x0a; x0b; x0c; x0d].[2 * i + 1]) ∧
  readCU8File [x0a; x0b; x0c; x0d] = (Is, Qs).
Proof.
  split; [reflexivity|].
  apply (C7_even_buffer_deinterleaved [x0a; x0b; x0c; x0d] 2). reflexivity.
Defined.

(** ** Loops over an array *)

Lemma read_app_middle {A} (pre : list A) (x : A) (a : list A) :
  (pre ++ x :: a).[len pre] = Some x.
Proof.
  unfold read, len. rewrite decide_True by lia. rewrite Nat2Z.id.
  by rewrite list_lookup_middle.
Qed.

(** An index loop whose step reads [a[i]] is a [forEach] over [a]. *)
Lemma for_to_forEach {A S} (body : S → Z → S) (g : S → A → Z → S) (a : list A) (s : S) :
  (∀ s i x, a.[i] = Some x → body s i = g s x i) →
  for_to 0 (len a) body s = forEach a g s.
Proof.
  unfold for_to, forEach. rewrite Z.sub_0_r. intros Hstep.
  enough (∀ suf pre s, a = pre ++ suf →
            foldl body s (seqZ (len pre) (len suf)) = forEach_from (len pre) suf g s) as Hgen
    by exact (Hgen a [] s eq_refl).
  induction suf as [|x suf IH]; intros pre s' Ha; [done|].
  rewrite seqZ_cons by (unfold len; simpl; lia). simpl.
  rewrite (Hstep _ _ x) by (subst a; apply read_app_middle).
  replace (Z.pred (len (x :: suf))) with (len suf) by (unfold len; simpl; lia).
  replace (Z.succ (len pre)) with (len (pre ++ [x]))
    by (unfold len; rewrite length_app; simpl; lia).
  replace (len pre + 1) with (len (pre ++ [x]))
    by (unfold len; rewrite length_app; simpl; lia).
  apply IH. by rewrite <- (assoc_L (++)).
Qed.

Lemma forEach_from_fmap {A B S} (f : A → B) (body : S → B → Z → S) (a : list A) :
  ∀ i s, forEach_from i (f <$> a) body s = forEach_from i a (λ s x i, body s (f x) i) s.
Proof. induction a as [|x a IH]; intros i s; simpl; [done|]. apply IH. Qed.

(** Two [forEach] loops whose states stay related return related states. *)
Lemma forEach_from_rel {A S T} (R : S → T → Prop) (f : S → A → Z → S)
    (g : T → A → Z → T) (a : list A) :
  (∀ s t x i, R s t → R (f s x i) (g t x i)) →
  ∀ i s t, R s t → R (forEach_from i a f s) (forEach_from i a g t).
Proof.
  intros Hstep. induction a as [|x a IH]; intros i s t Hst; simpl; [done|].
  apply IH, Hstep, Hst.
Qed.

(** An invariant of a [forEach] loop: [Inv i s] relates the state to the
    number [i] of elements processed. *)
Lemma forEach_inv {A S} (Inv : Z → S → Prop) (body : S → A → Z → S) (a : list A) (s : S) :
  Inv 0 s →
  (∀ i x s, a.[i] = Some x → Inv i s → Inv (i + 1) (body s x i)) →
  Inv (len a) (forEach a body s).
Proof.
  unfold forEach. intros H0 Hstep.
  enough (∀ suf pre s, a = pre ++ suf → Inv (len pre) s →
            Inv (len a) (forEach_from (len pre) suf body s)) as Hgen
    by exact (Hgen a [] s eq_refl H0).
  induction suf as [|x suf IH]; intros pre s' Ha Hs; simpl.
  - subst a. by rewrite app_nil_r.
  - replace (len pre + 1) with (len (pre ++ [x]))
      by (unfold len; rewrite length_app; simpl; lia).
    apply IH; [by rewrite <- (assoc_L (++))|].
    replace (len (pre ++ [x])) with (len pre + 1)
      by (unfold len; rewrite length_app; simpl; lia).
    apply Hstep; [|done]. subst a. apply read_app_middle.
Qed.

(** ** The Interval Extractor *)

(** The two interval scans agree: the batch extractor's, on the mask of
    numbers 1 and 0, finds what the watcher's finds on the booleans. *)
Lemma findSignalIntervals_findIntervals (flags : list bool) (minLen : Z) :
  findSignalIntervals (Z.b2z <$> flags) minLen = SignalProcessor.findIntervals flags minLen.
Proof.
  unfold findSignalIntervals, SignalProcessor.findIntervals. cbv zeta.
  rewrite (for_to_forEach _ (λ '(intervals, inSig, start) v i,
      let '(inSig, start) :=
        if negb inSig && negb (v =? 0) then (true, i) else (inSig, start) in
      if inSig && negb (negb (v =? 0)) then
        ((if decide (minLen ≤ i - 1 - start + 1) then intervals ++ [(start, i - 1)]
          else intervals), false, start)
      else (intervals, inSig, start)))
    by (intros [[ivs inSig] st] i x ->; done).
  unfold forEach. rewrite forEach_from_fmap.
  set (R := λ (s : list (Z * Z) * option Z) (t : list (Z * Z) * bool * Z),
              s.1 = t.1.1 ∧
              (s.2 = None ∧ t.1.2 = false ∨ s.2 = Some t.2 ∧ t.1.2 = true)).
  lazymatch goal with
  | |- context [forEach_from 0 flags ?g ([], false, 0)] => set (G := g)
  end.
  lazymatch goal with
  | |- context [forEach_from 0 flags ?f ([], None)] => set (F := f)
  end.
  assert (R (forEach_from 0 flags F ([], None)) (forEach_from 0 flags G ([], false, 0)))
    as HR.
  { apply forEach_from_rel; [|unfold R; simpl; auto]. subst F G.
    intros [ivs st] [[ivs' inSig] st'] f i [Hivs Hst]; simpl in *; subst ivs'.
    destruct Hst as [[-> ->]|[-> ->]]; destruct f; unfold R; simpl; auto.
    replace (i - 1 - st' + 1) with (i - st') by lia.
    case_decide; simpl; auto. }
  replace (len (Z.b2z <$> flags)) with (len flags)
    by (unfold len; by rewrite length_fmap).
  destruct (forEach_from 0 flags F _) as [ivs st].
  destruct (forEach_from 0 flags G _) as [[ivs' inSig] st'].
  destruct HR as [Hivs Hst]; simpl in *; subst ivs'.
  destruct Hst as [[-> ->]|[-> ->]]; [done|].
  replace (len flags - 1 - st' + 1) with (len flags - st') by lia. done.
Qed.

Lemma ascending_snoc (ivs : list (Z * Z)) (iv : Z * Z) :
  ascending ivs → Forall (λ iv', iv'.2 < iv.1) ivs → ascending (ivs ++ [iv]).
Proof.
  intros Hasc Hlt j k iv1 iv2 Hjk Hj Hk.
  destruct (decide (k < length ivs)%nat) as [Hk'|Hk'].
  - rewrite lookup_app_l in Hj, Hk by lia. eauto.
  - rewrite lookup_app_r in Hk by lia.
    destruct (k - length ivs)%nat as [|n] eqn:Hn; simpl in Hk; [|by destruct n].
    simplify_eq. rewrite lookup_app_l in Hj by lia.
    rewrite Forall_lookup in Hlt. eauto.
Qed.

Lemma ascending_disjoint (ivs : list (Z * Z)) :
  ascending ivs → Forall (λ iv, iv.1 ≤ iv.2) ivs → pairwise_disjoint ivs.
Proof.
  intros Hasc Hle j k iv1 iv2 i Hjk Hj Hk [H1 H2].
  destruct (decide (j < k)%nat).
  - pose proof (Hasc j k iv1 iv2 ltac:(lia) Hj Hk). lia.
  - pose proof (Hasc k j iv2 iv1 ltac:(lia) Hk Hj). lia.
Qed.

(** The invariant of the scan of [findIntervals] after [k] samples: the
    intervals found are runs, ascending, and end before the open run (or
    before [k] when none is open); an open run is active up to [k]. *)
Lemma findIntervals_runs (mask : list bool) (minLen : Z) :
  Forall (run_of mask minLen) (SignalProcessor.findIntervals mask minLen) ∧
  ascending (SignalProcessor.findIntervals mask minLen).
Proof.
  unfold SignalProcessor.findIntervals.
  set (Inv := λ (k : Z) (s : list (Z * Z) * option Z),
    0 ≤ k ≤ len mask ∧
    Forall (run_of mask minLen) s.1 ∧ ascending s.1 ∧
    Forall (λ iv, iv.2 < default k s.2) s.1 ∧
    match s.2 with
    | Some st => 0 ≤ st < k ∧ ∀ i, st ≤ i < k → mask.[i] = Some true
    | None => True
    end).
  lazymatch goal with
  | |- context [forEach mask ?f ([], None)] =>
      assert (Inv (len mask) (forEach mask f ([], None))) as HInv
  end.
  { apply forEach_inv.
    - unfold Inv; simpl. pose proof (len_nonneg mask).
      repeat split; auto; try lia. intros j k iv1 iv2 _ Hj. done.
    - intros i f [ivs start] Hf (Hk & Hruns & Hasc & Hend & Hopen); simpl in *.
      pose proof (read_Some_lt _ _ _ Hf) as Hi.
      destruct start as [st|], f; simpl in *.
      + (* inside a run *)
        destruct Hopen as [Hst Htrue].
        repeat split; auto; try lia. intros j Hj.
        destruct (decide (j = i)) as [->|]; [done|]. apply Htrue. lia.
      + (* the run ends at [i - 1] *)
        destruct Hopen as [Hst Htrue]. case_decide; simpl.
        * repeat split; auto; try lia.
          -- apply Forall_app. split; [done|]. apply Forall_singleton.
             repeat split; simpl; auto; try lia. intros j Hj. apply Htrue. lia.
          -- by apply ascending_snoc.
          -- apply Forall_app. split.
             ++ eapply Forall_impl; [exact Hend|]. simpl. intros; lia.
             ++ apply Forall_singleton. simpl. lia.
        * repeat split; auto; try lia.
          eapply Forall_impl; [exact Hend|]. simpl. intros; lia.
      + (* a run starts at [i] *)
        repeat split; auto; try lia. intros j Hj. by replace j with i by lia.
      + (* outside a run *)
        repeat split; auto; try lia.
        eapply Forall_impl; [exact Hend|]. simpl. intros; lia. }
  destruct (forEach mask _ _) as [ivs start].
  destruct HInv as (Hk & Hruns & Hasc & Hend & Hopen); simpl in *.
  destruct start as [st|]; [|done]. destruct Hopen as [Hst Htrue].
  case_decide; [|done]. split.
  - apply Forall_app. split; [done|]. apply Forall_singleton.
    repeat split; simpl; auto; try lia. intros j Hj. apply Htrue. lia.
  - by apply ascending_snoc.
Qed.

(** C5: for every mask and every minimum length, the intervals returned are
    ordered by start and pairwise disjoint (each ends before the next
    starts), lie within the mask with the mask true at every sample from
    start to end, and are at least [minLen] long; both interval scans return
    them; on the mask of the example with [minLen = 3] they are
    [[1,3],[9,12]]. *)
Theorem C5_intervals_disjoint_ordered_active_long (mask : list bool) (minLen : Z) :
  Forall (run_of mask minLen) (SignalProcessor.findIntervals mask minLen) ∧
  ascending (SignalProcessor.findIntervals mask minLen) ∧
  pairwise_disjoint (SignalProcessor.findIntervals mask minLen) ∧
  findSignalIntervals (Z.b2z <$> mask) minLen = SignalProcessor.findIntervals mask minLen ∧
  SignalProcessor.findIntervals mask13 3 = [(1, 3); (9, 12)] ∧
  findSignalIntervals (Z.b2z <$> mask13) 3 = [(1, 3); (9, 12)].
Proof.
  destruct (findIntervals_runs mask minLen) as [Hruns Hasc].
  split; [done|]. split; [done|]. split.
  - apply ascending_disjoint; [done|].
    eapply Forall_impl; [exact Hruns|]. intros iv (? & _). lia.
  - split; [apply findSignalIntervals_findIntervals|]. split; reflexivity.
Qed.

(** ** The two extraction pipelines *)

Lemma foldl_snoc_fmap {A B} (h : A → B) (l : list A) : ∀ acc : list B,
  foldl (λ bits s, bits ++ [h s]) acc l = acc ++ (h <$> l).
Proof.
  induction l as [|x l IH]; intros acc; simpl; [by rewrite app_nil_r|].
  rewrite IH. by rewrite <- (assoc_L (++)).
Qed.

Lemma foldl_ext_eq {A B} (f g : A → B → A) (l : list B) (a : A) :
  (∀ a b, f a b = g a b) → foldl f a l = foldl g a l.
Proof.
  intros Hfg. revert a. induction l as [|x l IH]; intros a; simpl; [done|].
  by rewrite Hfg, IH.
Qed.

Section Pipelines.
Context `{Float}.

Lemma normalizeIQ_normalize (Iu Qu : list byte) :
  normalizeIQ Iu Qu = SignalProcessor.normalize (Iu, Qu).
Proof. reflexivity. Qed.

Lemma computePower_calculatePower (Is Qs : list num) :
  computePower Is Qs = SignalProcessor.calculatePower (Is, Qs).
Proof. reflexivity. Qed.

Lemma detectSignal_aboveThreshold (power : list num) (threshold : num) :
  detectSignal power threshold = Z.b2z <$> SignalProcessor.aboveThreshold power threshold.
Proof.
  unfold detectSignal, SignalProcessor.aboveThreshold. by rewrite <- list_fmap_compose.
Qed.

Lemma computePhases_computePhases (Is Qs : list num) :
  computePhases Is Qs = SignalProcessor.computePhases (Is, Qs).
Proof. reflexivity. Qed.

(** Storing 0 at the head of a fresh array changes nothing. *)
Lemma store_0_FloatArray (n : Z) : store (FloatArray n) 0 (fround (of_Z 0)) = FloatArray n.
Proof.
  rewrite fround_0. apply list_eq_read. intros i.
  rewrite read_store. unfold FloatArray. rewrite !read_replicate.
  repeat case_decide; subst; done.
Qed.

Lemma computePhaseDiff_computeDiffs (phases : list num) :
  computePhaseDiff phases = SignalProcessor.computeDiffs phases.
Proof.
  unfold computePhaseDiff, SignalProcessor.computeDiffs. cbv zeta.
  by rewrite store_0_FloatArray.
Qed.

(** The bits of the watcher are the digits of the bits of the batch
    extractor. *)
Lemma decodeBits_decodeFSK (diffs : list num) (start end_ samplesPerBit : Z) :
  SignalProcessor.decodeBits diffs (start, end_) samplesPerBit
  = (λ bits : list Z, Number_toString <$> bits)
      <$> decodeFSK diffs start end_ samplesPerBit.
Proof.
  unfold SignalProcessor.decodeBits, decodeFSK. cbv zeta.
  destruct (floor_div _ _); simpl; try done.
  unfold for_to. rewrite !foldl_snoc_fmap. simpl. f_equal.
  rewrite <- list_fmap_compose. apply list_fmap_ext. intros _ s _. simpl.
  by destruct (gtb _ _).
Qed.

Lemma extract_equiv (file : list byte) (threshold : num) (minLen samplesPerBit : Z) :
  extractUnique64BitSequences file threshold minLen samplesPerBit
  = SignalProcessor.extractSequences file threshold minLen samplesPerBit.
Proof.
  unfold extractUnique64BitSequences, SignalProcessor.extractSequences. cbv zeta.
  rewrite readCU8File_readIq. destruct (SignalProcessor.readIq file) as [Iu Qu].
  rewrite normalizeIQ_normalize. destruct (SignalProcessor.normalize (Iu, Qu)) as [Is Qs].
  rewrite computePower_calculatePower, detectSignal_aboveThreshold,
    findSignalIntervals_findIntervals.
  case_decide; [done|].
  rewrite computePhases_computePhases, computePhaseDiff_computeDiffs.
  apply foldl_ext_eq. intros [seqs|] [start end_]; cbv beta; [|done].
  rewrite decodeBits_decodeFSK.
  destruct (decodeFSK _ start end_ samplesPerBit) as [bits|]; simpl; [|done].
  replace (len (Number_toString <$> bits)) with (len bits)
    by (unfold len; by rewrite length_fmap).
  done.
Qed.

(** With a width other than 0 the bit slicer returns. *)
Lemma decodeFSK_returns (diffs : list num) (start end_ samplesPerBit : Z) :
  samplesPerBit ≠ 0 → is_Some (decodeFSK diffs start end_ samplesPerBit).
Proof.
  intros Hw. unfold decodeFSK, floor_div. cbv zeta.
  rewrite decide_False by done. simpl. eauto.
Qed.

Lemma extractSequences_returns (file : list byte) (threshold : num)
    (minLen samplesPerBit : Z) :
  samplesPerBit ≠ 0 →
  is_Some (SignalProcessor.extractSequences file threshold minLen samplesPerBit).
Proof.
  intros Hw. unfold SignalProcessor.extractSequences. cbv zeta.
  case_decide; [eauto|].
  lazymatch goal with
  | |- is_Some (foldl ?f _ _) => set (body := f)
  end.
  assert (∀ seqs iv, is_Some (body (Some seqs) iv)) as Hbody.
  { intros seqs [start end_]. subst body. cbv beta.
    rewrite decodeBits_decodeFSK.
    destruct (decodeFSK_returns (SignalProcessor.computeDiffs
      (SignalProcessor.computePhases (SignalProcessor.normalize
        (SignalProcessor.readIq file)))) start end_ samplesPerBit Hw) as [bits ->].
    simpl. eauto. }
  generalize (@nil string).
  lazymatch goal with
  | |- ∀ seqs, is_Some (foldl _ _ ?l) => generalize l
  end.
  intros ivs. induction ivs as [|iv ivs IH]; intros seqs; [simpl; eauto|].
  cbn [foldl]. destruct (Hbody seqs iv) as [seqs' ->]. apply IH.
Qed.

(** A mask that is nowhere active has no interval. *)
Lemma findIntervals_inactive (flags : list bool) (minLen : Z) :
  Forall (λ f, f = false) flags → SignalProcessor.findIntervals flags minLen = [].
Proof.
  intros Hoff. unfold SignalProcessor.findIntervals.
  lazymatch goal with
  | |- context [forEach flags ?f ([], None)] =>
      assert (forEach flags f ([], None) = ([], None)) as ->; [|done]
  end.
  apply (forEach_inv (λ _ s, s = ([], None))); [done|].
  intros i f s Hf ->. unfold read in Hf. case_decide; [|done].
  rewrite Forall_lookup in Hoff. by rewrite (Hoff _ _ Hf).
Qed.

End Pipelines.

(** With a width of 0 and an interval to decode, neither pipeline returns a
    value: the symbol loop of the first interval has no bound. *)
Lemma extractSequences_width_0 `{Float} (file : list byte) (threshold : num) (minLen : Z) :
  SignalProcessor.findIntervals
    (SignalProcessor.aboveThreshold
       (SignalProcessor.calculatePower
          (SignalProcessor.normalize (SignalProcessor.readIq file))) threshold) minLen ≠ [] →
  SignalProcessor.extractSequences file threshold minLen 0 = None.
Proof.
  intros Hivs. unfold SignalProcessor.extractSequences. cbv zeta.
  pose proof (findIntervals_runs
    (SignalProcessor.aboveThreshold
       (SignalProcessor.calculatePower
          (SignalProcessor.normalize (SignalProcessor.readIq file))) threshold) minLen)
    as [Hruns _].
  destruct (SignalProcessor.findIntervals _ _) as [|[start end_] ivs]; [done|].
  rewrite decide_False by (unfold len; simpl; lia).
  apply Forall_cons in Hruns as [((_ & Hse & _) & _) _]. simpl in Hse.
  assert (∀ diffs : list num, SignalProcessor.decodeBits diffs (start, end_) 0 = None)
    as Hloop.
  { intros diffs. unfold SignalProcessor.decodeBits, floor_div.
    rewrite decide_True by done. by rewrite decide_True by lia. }
  cbn [foldl]. rewrite Hloop. simpl.
  clear. induction ivs as [|iv ivs IH]; [done|]. exact IH.
Qed.

(** C3: for every input buffer and every configuration, the pipeline that
    filters by the sum of the field-length constants and the pipeline that
    filters by the literal 64 have the same outcome; and with a
    samples-per-bit width other than 0 both return, the same list of unique
    bit strings. *)
Theorem C3_extraction_pipelines_agree `{Float} (file : list byte) (threshold : num)
    (minLen samplesPerBit : Z) :
  SignalProcessor.extractSequences file threshold minLen samplesPerBit
  = extractUnique64BitSequences file threshold minLen samplesPerBit ∧
  (samplesPerBit ≠ 0 →
   ∃ sequences,
     SignalProcessor.extractSequences file threshold minLen samplesPerBit = Some sequences ∧
     extractUnique64BitSequences file threshold minLen samplesPerBit = Some sequences).
Proof.
  split; [by rewrite extract_equiv|]. intros Hw.
  destruct (extractSequences_returns file threshold minLen samplesPerBit Hw) as [seqs Hs].
  exists seqs. by rewrite extract_equiv.
Qed.

Lemma C3_extraction_pipelines_agree_witness :
  (2 : Z) ≠ 0 ∧
  ∃ sequences,
    SignalProcessor.extractSequences (H := RealFloat)
      [x90; x80; x80; x90; x70; x80; x80; x80] (of_Z 5) 2 2 = Some sequences ∧
    extractUnique64BitSequences (H := RealFloat)
      [x90; x80; x80; x90; x70; x80; x80; x80] (of_Z 5) 2 2 = Some sequences.
Proof.
  split; [lia|].
  apply (C3_extraction_pipelines_agree (H := RealFloat)
           [x90; x80; x80; x90; x70; x80; x80; x80] (of_Z 5) 2 2). lia.
Defined.

(** Without an interval the pipeline returns at once. *)
Lemma extractSequences_no_interval `{Float} (file : list byte) (threshold : num)
    (minLen samplesPerBit : Z) :
  SignalProcessor.findIntervals
    (SignalProcessor.aboveThreshold
       (SignalProcessor.calculatePower
          (SignalProcessor.normalize (SignalProcessor.readIq file))) threshold) minLen = [] →
  SignalProcessor.extractSequences file threshold minLen samplesPerBit = Some [].
Proof.
  intros Hivs. unfold SignalProcessor.extractSequences. cbv zeta. by rewrite Hivs.
Qed.

(** A capture without an interval publishes nothing. *)
Lemma processFile_no_signal `{Float} (w : world) (file : list byte) :
  SignalProcessor.findIntervals
    (SignalProcessor.aboveThreshold
       (SignalProcessor.calculatePower
          (SignalProcessor.normalize (SignalProcessor.readIq file)))
       (of_Z POWER_THRESHOLD)) MIN_SIGNAL_LENGTH = [] →
  processFile w file = Some w.
Proof.
  intros Hivs. unfold processFile. by rewrite extractSequences_no_interval.
Qed.

(** C8: when no interval meets the minimum length, and so in particular
    when no sample's power exceeds the threshold, the extraction pipeline
    returns the empty list of bit strings; so does the batch pipeline. *)
Theorem C8_no_signal_empty_result `{Float} (file : list byte) (threshold : num)
    (minLen samplesPerBit : Z) :
  let power := SignalProcessor.calculatePower
                 (SignalProcessor.normalize (SignalProcessor.readIq file)) in
  SignalProcessor.findIntervals (SignalProcessor.aboveThreshold power threshold) minLen = []
  ∨ Forall (λ p, gtb p threshold = false) power →
  SignalProcessor.extractSequences file threshold minLen samplesPerBit = Some [] ∧
  extractUnique64BitSequences file threshold minLen samplesPerBit = Some [].
Proof.
  intros power Hnone. rewrite extract_equiv.
  assert (SignalProcessor.findIntervals
            (SignalProcessor.aboveThreshold power threshold) minLen = []) as Hivs.
  { destruct Hnone as [Hnone|Hlow]; [done|]. apply findIntervals_inactive.
    unfold SignalProcessor.aboveThreshold. by apply Forall_fmap. }
  split; by apply extractSequences_no_interval.
Qed.

Lemma C8_no_signal_empty_result_witness :
  Forall (λ p, gtb p (of_Z 5) = false)
    (SignalProcessor.calculatePower (H := RealFloat)
       (SignalProcessor.normalize (SignalProcessor.readIq [x80; x80; x81; x80]))) ∧
  SignalProcessor.extractSequences (H := RealFloat) [x80; x80; x81; x80] (of_Z 5) 1 1
  = Some [] ∧
  extractUnique64BitSequences (H := RealFloat) [x80; x80; x81; x80] (of_Z 5) 1 1 = Some [].
Proof.
  assert (Forall (λ p, gtb p (of_Z 5) = false)
    (SignalProcessor.calculatePower (H := RealFloat)
       (SignalProcessor.normalize (SignalProcessor.readIq [x80; x80; x81; x80]))))
    as Hlow.
  { real_compute. repeat first [apply List.Forall_nil | apply List.Forall_cons];
      destruct (Rlt_dec _ _); first [lra | reflexivity]. }
  split; [exact Hlow|].
  apply (C8_no_signal_empty_result (H := RealFloat) [x80; x80; x81; x80] (of_Z 5) 1 1).
  right. exact Hlow.
Defined.

(** ** The Bit Slicer *)

Lemma len_fmap {A B} (f : A → B) (l : list A) : len (f <$> l) = len l.
Proof. unfold len. by rewrite length_fmap. Qed.

Lemma len_seqZ (m n : Z) : 0 ≤ n → len (seqZ m n) = n.
Proof. intros Hn. unfold len. rewrite length_seqZ. lia. Qed.

Lemma read_fmap_seqZ {A} (h : Z → A) (n s : Z) :
  (h <$> seqZ 0 n).[s] = if decide (0 ≤ s < n) then Some (h s) else None.
Proof.
  unfold read. case_decide.
  - rewrite list_lookup_fmap. destruct (decide (s < n)).
    + rewrite lookup_seqZ_lt by lia. rewrite decide_True by lia.
      simpl. do 2 f_equal. lia.
    + rewrite lookup_seqZ_ge by lia. rewrite decide_False by lia. done.
  - rewrite decide_False by lia. done.
Qed.

Section BitSlicer.
Context `{Float}.

(** The bits of the batch extractor, in closed form: one per whole symbol
    period, 1 where the integral of the period is greater than 0. *)
Lemma decodeFSK_closed (diffs : list num) (start end_ w : Z) :
  w ≠ 0 →
  decodeFSK diffs start end_ w
  = Some ((λ s, if gtb (integrate (symbol_period diffs (start + s * w) w)) (of_Z 0)
                then 1 else 0) <$> seqZ 0 ((end_ - start + 1) / w)).
Proof.
  intros Hw. unfold decodeFSK, floor_div. cbv zeta.
  rewrite decide_False by done. simpl. unfold for_to.
  rewrite foldl_snoc_fmap, !Z.sub_0_r. simpl. f_equal.
  apply list_fmap_ext. intros _ s _.
  unfold integrate, symbol_period. by rewrite foldl_fmap.
Qed.

Lemma decodeBits_closed (diffs : list num) (start end_ w : Z) :
  w ≠ 0 →
  SignalProcessor.decodeBits diffs (start, end_) w
  = Some ((λ s, if gtb (integrate (symbol_period diffs (start + s * w) w)) (of_Z 0)
                then "1" else "0")%string <$> seqZ 0 ((end_ - start + 1) / w)).
Proof.
  intros Hw. rewrite decodeBits_decodeFSK, decodeFSK_closed by done. simpl.
  rewrite <- list_fmap_compose. f_equal. apply list_fmap_ext. intros _ s _. simpl.
  by destruct (gtb _ _).
Qed.

(** Every index of a whole symbol period lies in the interval. *)
Lemma symbol_index_bounds (start end_ w s k : Z) :
  1 ≤ w → start ≤ end_ → 0 ≤ s < (end_ - start + 1) / w → 0 ≤ k < w →
  start ≤ start + s * w + k ≤ end_.
Proof.
  intros Hw Hse Hs Hk.
  assert (w * ((end_ - start + 1) / w) ≤ end_ - start + 1)
    by (apply Z.mul_div_le; lia).
  nia.
Qed.

Lemma symbol_period_ext (diffs diffs' : list num) (offset w : Z) :
  (∀ k, 0 ≤ k < w → diffs'.[offset + k] = diffs.[offset + k]) →
  symbol_period diffs' offset w = symbol_period diffs offset w.
Proof.
  intros Hsame. unfold symbol_period. apply list_eq_read. intros k.
  rewrite !read_fmap_seqZ. case_decide; [|done]. by rewrite Hsame.
Qed.

(** A symbol period inside the array is a slice of it. *)
Lemma symbol_period_slice (diffs : list num) (offset w : Z) :
  0 ≤ offset → 0 ≤ w → offset + w ≤ len diffs →
  symbol_period diffs offset w = take (Z.to_nat w) (drop (Z.to_nat offset) diffs).
Proof.
  intros Ho Hw Hlen. unfold symbol_period. apply list_eq_read. intros k.
  rewrite read_fmap_seqZ. unfold read, len in *.
  destruct (decide (0 ≤ k)); [|by rewrite decide_False by lia].
  destruct (decide (k < w)).
  - rewrite decide_True by lia. rewrite decide_True by lia.
    rewrite lookup_take_lt, lookup_drop by lia.
    replace (Z.to_nat offset + Z.to_nat k)%nat with (Z.to_nat (offset + k)) by lia.
    destruct (lookup_lt_is_Some_2 diffs (Z.to_nat (offset + k))) as [x ->]; [lia|done].
  - rewrite decide_False by lia. symmetry. apply lookup_take_ge. lia.
Qed.

End BitSlicer.

(** C6: for every interval [[start, end]], every array of phase differences
    and every width [w >= 1], the Bit Slicer returns [floor(length / w)]
    bits, where [length = end - start + 1]; bit [s] is '1' exactly when the
    sum of the [w] phase differences of symbol period [s] is greater than 0
    and '0' otherwise, so that a sum of 0 gives '0'; the samples after the
    last whole period are discarded: another end with the same number of
    periods gives the same bits.  The result is this function of the inputs,
    and [decodeFSK] returns the same bits as the numbers 1 and 0. *)
Theorem C6_bit_slicer_integrate_and_dump `{Float} (diffs : list num) (start end_ w : Z) :
  1 ≤ w → start ≤ end_ →
  ∃ bits : list string,
    SignalProcessor.decodeBits diffs (start, end_) w = Some bits ∧
    len bits = (end_ - start + 1) / w ∧
    (∀ s, 0 ≤ s < (end_ - start + 1) / w →
       bits.[s] = Some (if gtb (integrate (symbol_period diffs (start + s * w) w)) (of_Z 0)
                        then "1" else "0")%string) ∧
    (∀ s, 0 ≤ s < (end_ - start + 1) / w →
       integrate (symbol_period diffs (start + s * w) w) = of_Z 0 →
       bits.[s] = Some "0"%string) ∧
    (∀ end', (end' - start + 1) / w = (end_ - start + 1) / w →
       SignalProcessor.decodeBits diffs (start, end') w = Some bits) ∧
    ∃ nbits : list Z,
      decodeFSK diffs start end_ w = Some nbits ∧
      bits = Number_toString <$> nbits ∧
      ∀ s, 0 ≤ s < (end_ - start + 1) / w →
        nbits.[s] = Some (if gtb (integrate (symbol_period diffs (start + s * w) w)) (of_Z 0)
                          then 1 else 0).
Proof.
  intros Hw Hse.
  assert (0 ≤ (end_ - start + 1) / w) as Hn by (apply Z.div_pos; lia).
  eexists. split; [apply decodeBits_closed; lia|].
  split; [by rewrite len_fmap, len_seqZ|].
  split; [intros s Hs; by rewrite read_fmap_seqZ, decide_True|].
  split.
  { intros s Hs Hzero. rewrite read_fmap_seqZ, decide_True by done.
    by rewrite Hzero, gtb_irrefl. }
  split.
  { intros end' Hsame. rewrite decodeBits_closed by lia. by rewrite Hsame. }
  eexists. split; [apply decodeFSK_closed; lia|]. split.
  - rewrite <- list_fmap_compose. apply list_fmap_ext. intros _ s _. simpl.
    by destruct (gtb _ _).
  - intros s Hs. by rewrite read_fmap_seqZ, decide_True.
Qed.

Lemma C6_bit_slicer_integrate_and_dump_witness :
  (1 ≤ 2 ∧ 1 ≤ 5) ∧
  ∃ bits : list string,
    SignalProcessor.decodeBits (H := RealFloat)
      [of_Z 0; of_Z 1; of_Z 2; of_Z (-3); of_Z 1; of_Z 4] (1, 5) 2 = Some bits ∧
    len bits = 2 ∧ bits.[0] = Some "1"%string ∧ bits.[1] = Some "0"%string.
Proof.
  split; [lia|].
  destruct (C6_bit_slicer_integrate_and_dump (H := RealFloat)
              [of_Z 0; of_Z 1; of_Z 2; of_Z (-3); of_Z 1; of_Z 4] 1 5 2)
    as (bits & Hbits & Hlen & Hbit & _); [lia|lia|].
  exists bits. split; [exact Hbits|]. split; [exact Hlen|]. split.
  - rewrite (Hbit 0) by (split; [lia|reflexivity]). f_equal.
    real_compute. destruct (Rlt_dec _ _); [reflexivity|lra].
  - rewrite (Hbit 1) by (split; [lia|reflexivity]). f_equal.
    real_compute. destruct (Rlt_dec _ _); [lra|reflexivity].
Defined.

(** C10: for an interval [[start, end]] inside an array of [n] phase
    differences and a width [w >= 1], every index [start + s*w + k] the Bit
    Slicer reads ([s] below the number of symbols, [k < w]) lies between
    [start] and [end] and is an index of the array; each symbol period is
    then a slice of the array, so the bits are sums over slices, no read
    gives [undefined], and nothing outside the interval is read: an array
    that agrees on the interval gives the same bits. *)
Theorem C10_bit_slicer_reads_in_bounds `{Float} (diffs : list num) (start end_ w : Z) :
  0 ≤ start → start ≤ end_ → end_ < len diffs → 1 ≤ w →
  (∀ s k, 0 ≤ s < (end_ - start + 1) / w → 0 ≤ k < w →
     (start ≤ start + s * w + k ∧ start + s * w + k ≤ end_) ∧
     is_Some diffs.[start + s * w + k]) ∧
  SignalProcessor.decodeBits diffs (start, end_) w
  = Some ((λ s, if gtb (integrate (take (Z.to_nat w)
                                     (drop (Z.to_nat (start + s * w)) diffs))) (of_Z 0)
                then "1" else "0")%string <$> seqZ 0 ((end_ - start + 1) / w)) ∧
  decodeFSK diffs start end_ w
  = Some ((λ s, if gtb (integrate (take (Z.to_nat w)
                                     (drop (Z.to_nat (start + s * w)) diffs))) (of_Z 0)
                then 1 else 0) <$> seqZ 0 ((end_ - start + 1) / w)) ∧
  (∀ diffs' : list num,
     (∀ i, start ≤ i ∧ i ≤ end_ → diffs'.[i] = diffs.[i]) →
     SignalProcessor.decodeBits diffs' (start, end_) w
     = SignalProcessor.decodeBits diffs (start, end_) w ∧
     decodeFSK diffs' start end_ w = decodeFSK diffs start end_ w).
Proof.
  intros H0 Hse Hend Hw.
  assert (∀ s, 0 ≤ s < (end_ - start + 1) / w →
            symbol_period diffs (start + s * w) w
            = take (Z.to_nat w) (drop (Z.to_nat (start + s * w)) diffs)) as Hslice.
  { intros s Hs. apply symbol_period_slice; [nia|lia|].
    pose proof (symbol_index_bounds start end_ w s (w - 1)). lia. }
  split; [|split; [|split]].
  - intros s k Hs Hk. pose proof (symbol_index_bounds start end_ w s k).
    split; [lia|]. apply read_is_Some. lia.
  - rewrite decodeBits_closed by lia. f_equal. apply list_eq_read. intros s.
    rewrite !read_fmap_seqZ. case_decide; [|done]. by rewrite Hslice.
  - rewrite decodeFSK_closed by lia. f_equal. apply list_eq_read. intros s.
    rewrite !read_fmap_seqZ. case_decide; [|done]. by rewrite Hslice.
  - intros diffs' Hsame.
    assert (∀ s, 0 ≤ s < (end_ - start + 1) / w →
              symbol_period diffs' (start + s * w) w
              = symbol_period diffs (start + s * w) w) as Hper.
    { intros s Hs. apply symbol_period_ext. intros k Hk. apply Hsame.
      pose proof (symbol_index_bounds start end_ w s k). lia. }
    rewrite !decodeBits_closed, !decodeFSK_closed by lia.
    split; f_equal; apply list_eq_read; intros s; rewrite !read_fmap_seqZ;
      case_decide; try done; by rewrite Hper.
Qed.

Lemma C10_bit_slicer_reads_in_bounds_witness :
  (0 ≤ 1 ∧ 1 ≤ 5 ∧ 5 < len [of_Z 0; of_Z 1; of_Z 2; of_Z (-3); of_Z 1; of_Z 4]
   ∧ 1 ≤ 2) ∧
  ∀ s k, 0 ≤ s < (5 - 1 + 1) / 2 → 0 ≤ k < 2 →
    (1 ≤ 1 + s * 2 + k ∧ 1 + s * 2 + k ≤ 5) ∧
    is_Some (read (A := num (Float := RealFloat))
               [of_Z 0; of_Z 1; of_Z 2; of_Z (-3); of_Z 1; of_Z 4] (1 + s * 2 + k)).
Proof.
  split; [repeat split; try lia; reflexivity|].
  apply (C10_bit_slicer_reads_in_bounds (H := RealFloat)
           [of_Z 0; of_Z 1; of_Z 2; of_Z (-3); of_Z 1; of_Z 4] 1 5 2);
    try lia; reflexivity.
Defined.

(** ** The Phase Demodulator *)

(** What [computeDiffs] leaves at index [i]: 0 at index 0, and from index 1
    on the difference of the two phases, moved by one turn when it is
    beyond [PI] or below [-PI], then rounded. *)
Lemma computeDiffs_read `{Float} (phases : list num) (i : Z) :
  (SignalProcessor.computeDiffs phases).[i]
  = if decide (0 ≤ i < len phases) then
      Some (if decide (1 ≤ i) then
              let d := sub (val phases.[i]) (val phases.[i - 1]) in
              let d := if gtb d PI then sub d (mul (of_Z 2) PI) else d in
              let d := if ltb d (neg PI) then add d (mul (of_Z 2) PI) else d in
              fround d
            else of_Z 0)
    else None.
Proof.
  unfold SignalProcessor.computeDiffs, for_to, FloatArray. cbv zeta.
  pose proof (len_nonneg phases).
  rewrite (read_fill_loop (λ i,
    fround (if ltb (if gtb (sub (val phases.[i]) (val phases.[i - 1])) PI
                    then sub (sub (val phases.[i]) (val phases.[i - 1])) (mul (of_Z 2) PI)
                    else sub (val phases.[i]) (val phases.[i - 1])) (neg PI)
            then add (if gtb (sub (val phases.[i]) (val phases.[i - 1])) PI
                      then sub (sub (val phases.[i]) (val phases.[i - 1])) (mul (of_Z 2) PI)
                      else sub (val phases.[i]) (val phases.[i - 1])) (mul (of_Z 2) PI)
            else if gtb (sub (val phases.[i]) (val phases.[i - 1])) PI
                 then sub (sub (val phases.[i]) (val phases.[i - 1])) (mul (of_Z 2) PI)
                 else sub (val phases.[i]) (val phases.[i - 1])))).
  rewrite Z2Nat.id by done.
  destruct (decide (0 ≤ i < len phases)); [|done].
  destruct (decide (1 ≤ i)).
  - rewrite decide_True by lia. done.
  - rewrite decide_False by lia. done.
Qed.

Lemma len_computeDiffs `{Float} (phases : list num) :
  len (SignalProcessor.computeDiffs phases) = len phases.
Proof.
  unfold SignalProcessor.computeDiffs, for_to, FloatArray. cbv zeta.
  rewrite len_store_loop, len_replicate. pose proof (len_nonneg phases). lia.
Qed.

(** The wrapping over the reals: a difference of two phases of the closed
    range comes back into the closed range by at most one turn, and only a
    difference of exactly [-π] yields [-π]. *)
Lemma wrap_real (p q : R) :
  (- Rtrigo1.PI <= p <= Rtrigo1.PI)%R → (- Rtrigo1.PI <= q <= Rtrigo1.PI)%R →
  ∃ d : R,
    (let d := sub (Real p) (Real q) in
     let d := if gtb d PI then sub d (mul (of_Z 2) PI) else d in
     let d := if ltb d (neg PI) then add d (mul (of_Z 2) PI) else d in
     fround d) = Real d ∧
    (d = p - q ∨ d = p - q - 2 * Rtrigo1.PI ∨ d = p - q + 2 * Rtrigo1.PI)%R ∧
    (- Rtrigo1.PI <= d <= Rtrigo1.PI)%R ∧
    (p - q ≠ - Rtrigo1.PI → - Rtrigo1.PI < d)%R.
Proof.
  intros Hp Hq. pose proof PI_RGT_0 as Hpi. simpl.
  unfold number_gtb, number_ltb; simpl.
  destruct (decide (Rtrigo1.PI < p - q)%R) as [Hhi|Hhi].
  - rewrite (bool_decide_eq_true_2 _ Hhi). simpl.
    rewrite bool_decide_eq_false_2 by lra.
    eexists. split; [reflexivity|]. repeat split; lra.
  - rewrite (bool_decide_eq_false_2 _ Hhi). simpl.
    destruct (decide (p - q < - Rtrigo1.PI)%R) as [Hlo|Hlo].
    + rewrite (bool_decide_eq_true_2 _ Hlo).
      eexists. split; [reflexivity|]. repeat split; lra.
    + rewrite (bool_decide_eq_false_2 _ Hlo).
      eexists. split; [reflexivity|]. repeat split; lra.
Qed.

(** The phases [Math.atan2] computes lie in the half-open range. *)
Lemma number_atan2_range (y x : R) : in_half_open_range (number_atan2 (Real y) (Real x)).
Proof.
  pose proof PI_RGT_0 as Hpi. simpl.
  destruct (decide (0 < x)%R) as [Hx|Hx].
  { pose proof (atan_bound (y / x)). lra. }
  destruct (decide (x < 0)%R) as [Hx'|Hx'].
  - assert (/ x < 0)%R as Hinv by (by apply Rinv_lt_0_compat).
    pose proof (atan_bound (y / x)) as Hb.
    destruct (decide (y < 0)%R) as [Hy|Hy].
    + assert (0 < y / x)%R as Hpos by (unfold Rdiv; nra).
      pose proof (atan_increasing _ _ Hpos) as Hinc. rewrite atan_0 in Hinc. lra.
    + assert (y / x <= 0)%R as [Hneg|Hzero] by (unfold Rdiv; nra).
      * pose proof (atan_increasing _ _ Hneg) as Hinc. rewrite atan_0 in Hinc. lra.
      * rewrite Hzero, atan_0. lra.
  - destruct (decide (0 < y)%R); [lra|]. destruct (decide (y < 0)%R); lra.
Qed.

(** What [normalize] and [computePhases] leave at index [i]. *)
Lemma normalize_read `{Float} (Is Qs : list byte) (i : Z) :
  (SignalProcessor.normalize (Is, Qs)).1.[i]
  = (if decide (0 ≤ i < len Is)
     then Some (fround (sub (of_byte Is.[i]) (of_Z 128))) else None) ∧
  (SignalProcessor.normalize (Is, Qs)).2.[i]
  = (if decide (0 ≤ i < len Is)
     then Some (fround (sub (of_byte Qs.[i]) (of_Z 128))) else None).
Proof.
  unfold SignalProcessor.normalize, for_to, FloatArray. cbv zeta.
  rewrite foldl_pair. simpl. pose proof (len_nonneg Is).
  rewrite !read_fill_loop, !Z2Nat.id by done.
  split; case_decide; try done; by rewrite decide_True by lia.
Qed.

Lemma len_normalize `{Float} (Is Qs : list byte) :
  len (SignalProcessor.normalize (Is, Qs)).1 = len Is.
Proof.
  unfold SignalProcessor.normalize, for_to, FloatArray. cbv zeta.
  rewrite foldl_pair. simpl. rewrite len_store_loop, len_replicate.
  pose proof (len_nonneg Is). lia.
Qed.

Lemma computePhases_read `{Float} (nI nQ : list num) (i : Z) :
  (SignalProcessor.computePhases (nI, nQ)).[i]
  = if decide (0 ≤ i < len nI) then Some (atan2 (val nQ.[i]) (val nI.[i])) else None.
Proof.
  unfold SignalProcessor.computePhases, for_to, FloatArray. cbv zeta.
  pose proof (len_nonneg nI).
  rewrite (read_fill_loop (λ i, atan2 (val nQ.[i]) (val nI.[i]))), !Z2Nat.id by done.
  case_decide; try done; by rewrite decide_True by lia.
Qed.

(** ** Rounding *)

Section Rounding.
Import IEEE.

Lemma Rabs_le_iff (x a : R) : (Rabs x <= a ↔ - a <= x <= a)%R.
Proof. unfold Rabs. destruct (Rcase_abs x); lra. Qed.

Lemma pow2_pos (e : Z) : (0 < powerRZ 2 e)%R.
Proof. apply powerRZ_lt. lra. Qed.

Lemma pow2_add (a b : Z) : (powerRZ 2 (a + b) = powerRZ 2 a * powerRZ 2 b)%R.
Proof. apply powerRZ_add. lra. Qed.

Lemma pow2_IZR (k : Z) : 0 ≤ k → powerRZ 2 k = IZR (2 ^ k).
Proof.
  intros Hk. rewrite <- (Z2Nat.id k) by done.
  rewrite <- pow_powerRZ, pow_IZR. reflexivity.
Qed.

Lemma pow2_le (a b : Z) : a ≤ b → (powerRZ 2 a <= powerRZ 2 b)%R.
Proof.
  intros Hab. replace b with (a + (b - a)) by lia. rewrite pow2_add.
  rewrite (pow2_IZR (b - a)) by lia.
  assert (1 ≤ 2 ^ (b - a)) as Hone by (apply Z.lt_pred_le, Z.pow_pos_nonneg; lia).
  pose proof (pow2_pos a). apply IZR_le in Hone. nra.
Qed.

(** [j * 2 ^ (e + k)] is [(j * 2 ^ k) * 2 ^ e]. *)
Lemma scale (j e k : Z) :
  0 ≤ k → (IZR j * powerRZ 2 (e + k) = IZR (j * 2 ^ k) * powerRZ 2 e)%R.
Proof. intros Hk. rewrite pow2_add, mult_IZR, (pow2_IZR k) by done. lra. Qed.

Lemma scaled_le (a b e : Z) : (IZR a * powerRZ 2 e <= IZR b * powerRZ 2 e)%R ↔ a ≤ b.
Proof.
  pose proof (pow2_pos e). split.
  - intros Hle. apply le_IZR. nra.
  - intros Hle. apply IZR_le in Hle. nra.
Qed.

Lemma scaled_lt (a b e : Z) : (IZR a * powerRZ 2 e < IZR b * powerRZ 2 e)%R ↔ a < b.
Proof.
  pose proof (pow2_pos e). split.
  - intros Hlt. apply lt_IZR. nra.
  - intros Hlt. apply IZR_lt in Hlt. nra.
Qed.

(** Two numbers compared at their common exponent. *)
Lemma aligned (m1 e1 m2 e2 : Z) :
  let e := Z.min e1 e2 in
  (IZR (m1 * 2 ^ (e1 - e)) * powerRZ 2 e = IZR m1 * powerRZ 2 e1)%R ∧
  (IZR (m2 * 2 ^ (e2 - e)) * powerRZ 2 e = IZR m2 * powerRZ 2 e2)%R.
Proof.
  intros e. split.
  - rewrite <- scale by lia. do 2 f_equal. lia.
  - rewrite <- scale by lia. do 2 f_equal. lia.
Qed.

(** The roundings to both formats, and the operations on doubles, give
    the numbers the standard library's specification of IEEE 754 gives. *)
Lemma round_as_reference :
  forallb (λ m, forallb (λ e,
    same_number (round binary32 m e) (reference_round 24 128 m e)
    && same_number (round binary64 m e) (reference_round 53 1024 m e))
    exponents) significands = true.
Proof. vm_compute. reflexivity. Qed.

Lemma operations_as_reference :
  forallb (λ x, forallb (λ y,
    same_number (add x y)
      (SpecFloat.SFadd 53 1024 (reference_double x) (reference_double y))
    && same_number (sub x y)
         (SpecFloat.SFsub 53 1024 (reference_double x) (reference_double y))
    && same_number (mul x y)
         (SpecFloat.SFmul 53 1024 (reference_double x) (reference_double y))
    && bool_decide (ltb x y
                    = SpecFloat.SFltb (reference_double x) (reference_double y))
    && same_number (fround x)
         (match x with
          | Fin m e => reference_round 24 128 m e
          | _ => reference_double x
          end))
    doubles) doubles = true.
Proof. vm_compute. reflexivity. Qed.

(** Rounding to the nearest integer does not cross a multiple of
    [2 ^ k]. *)
Lemma nearest_even_le (m k j : Z) : 1 ≤ k → m ≤ j * 2 ^ k → nearest_even m k ≤ j.
Proof.
  intros Hk Hm. unfold nearest_even. cbv zeta.
  assert (0 < 2 ^ k) as Hpos by (apply Z.pow_pos_nonneg; lia).
  assert (0 < 2 ^ (k - 1)) as Hhalf by (apply Z.pow_pos_nonneg; lia).
  pose proof (Z.div_mod m (2 ^ k) ltac:(lia)) as Hdm.
  pose proof (Z.mod_pos_bound m (2 ^ k) Hpos) as Hr.
  assert (m / 2 ^ k ≤ j) as Hq by nia.
  assert (0 < m mod 2 ^ k → m / 2 ^ k + 1 ≤ j) as Hq1 by nia.
  repeat case_decide; try destruct (Z.even _); lia.
Qed.

Lemma nearest_even_ge (m k j : Z) : 1 ≤ k → j * 2 ^ k ≤ m → j ≤ nearest_even m k.
Proof.
  intros Hk Hm. unfold nearest_even. cbv zeta.
  assert (0 < 2 ^ k) as Hpos by (apply Z.pow_pos_nonneg; lia).
  pose proof (Z.div_mod m (2 ^ k) ltac:(lia)) as Hdm.
  pose proof (Z.mod_pos_bound m (2 ^ k) Hpos) as Hr.
  assert (j ≤ m / 2 ^ k) as Hq by nia.
  repeat case_decide; try destruct (Z.even _); lia.
Qed.

Lemma log2_abs_bounds (m : Z) :
  m ≠ 0 → 2 ^ Z.log2 (Z.abs m) ≤ Z.abs m ∧ Z.abs m < 2 ^ (Z.log2 (Z.abs m) + 1).
Proof.
  intros Hm. pose proof (Z.log2_spec (Z.abs m) ltac:(lia)) as [? ?].
  rewrite <- Z.add_1_r in *. done.
Qed.

(** Where the last bit of [m * 2 ^ e] lies above the exponent [ef] of a
    number [mf * 2 ^ ef] the format holds, that number is at most
    [2 ^ (L + e)] in magnitude, [L] the position of the leading bit of
    [m]; this power of two is a multiple of the last bit. *)
Lemma below_binade (f : format) (m e mf ef : Z) :
  1 ≤ prec f → held f mf ef → e < last_bit f m e → ¬ last_bit f m e ≤ ef →
  let L := Z.log2 (Z.abs m) in
  let c := last_bit f m e in
  m ≠ 0 ∧ 0 ≤ L ∧ 2 ^ L ≤ Z.abs m ∧
  (- powerRZ 2 (L + e) <= IZR mf * powerRZ 2 ef <= powerRZ 2 (L + e))%R ∧
  (powerRZ 2 (L + e) = IZR (2 ^ (prec f - 1)) * powerRZ 2 c)%R ∧
  (powerRZ 2 (L + e) = IZR (2 ^ L) * powerRZ 2 e)%R ∧
  2 ^ L = 2 ^ (prec f - 1) * 2 ^ (c - e).
Proof.
  intros Hprec [Hmf Hef] Hc Hcef L c.
  assert (c = L + 1 + e - prec f) as Hceq by (unfold c, L, last_bit in *; lia).
  assert (m ≠ 0) as Hm0.
  { intros ->. unfold L in Hceq. simpl in Hceq. unfold c in *. lia. }
  pose proof (log2_abs_bounds m Hm0) as [Hlo _].
  assert (0 ≤ L) as HL by apply Z.log2_nonneg.
  split; [done|]. split; [done|]. split; [done|]. split.
  { apply Rabs_le_iff.
    rewrite Rabs_mult, (Rabs_pos_eq (powerRZ 2 ef)) by (left; apply pow2_pos).
    rewrite <- abs_IZR.
    apply Rle_trans with (IZR (2 ^ prec f) * powerRZ 2 ef)%R.
    - pose proof (pow2_pos ef). apply IZR_le in Hmf. nra.
    - rewrite <- pow2_IZR, <- pow2_add by lia. apply pow2_le. unfold c in *. lia. }
  split; [rewrite <- pow2_IZR, <- pow2_add by lia; f_equal; lia|].
  split; [rewrite <- pow2_IZR, <- pow2_add by lia; f_equal; lia|].
  rewrite <- Z.pow_add_r by (unfold c in *; lia). f_equal; lia.
Qed.

(** Rounding does not cross a number the format holds. *)
Lemma round_significand_le (f : format) (m e mf ef : Z) :
  1 ≤ prec f → held f mf ef →
  (IZR m * powerRZ 2 e <= IZR mf * powerRZ 2 ef)%R →
  (IZR (round_significand f m e).1 * powerRZ 2 (round_significand f m e).2
   <= IZR mf * powerRZ 2 ef)%R.
Proof.
  intros Hprec Hheld Hle. unfold round_significand. cbv zeta.
  destruct (decide (e < last_bit f m e)) as [Hc|Hc]; [|done]. cbn [fst snd].
  destruct (decide (last_bit f m e ≤ ef)) as [Hcef|Hcef].
  - (* the bound is a multiple of the last bit *)
    set (c := last_bit f m e) in *.
    replace ef with (c + (ef - c)) in * by lia.
    rewrite scale in * by lia. apply scaled_le.
    apply nearest_even_le; [lia|].
    replace c with (e + (c - e)) in Hle at 2 by lia.
    rewrite scale in Hle by lia. apply scaled_le in Hle. lia.
  - (* the bound lies below the binade of the number *)
    destruct (below_binade f m e mf ef Hprec Hheld Hc Hcef)
      as (Hm0 & HL & Hlo & HG & HGc & HGe & Hsplit).
    set (c := last_bit f m e) in *. set (L := Z.log2 (Z.abs m)) in *.
    destruct (decide (0 < m)) as [Hpos|Hneg].
    + apply Rle_trans with (IZR m * powerRZ 2 e)%R; [|done].
      apply Rle_trans with (powerRZ 2 (L + e)).
      * rewrite HGc. apply scaled_le. apply nearest_even_le; [lia|].
        rewrite <- Hsplit.
        assert (IZR m * powerRZ 2 e <= IZR (2 ^ L) * powerRZ 2 e)%R as Hm
          by (rewrite <- HGe; lra).
        by apply scaled_le in Hm.
      * rewrite HGe. apply scaled_le. lia.
    + apply Rle_trans with (- powerRZ 2 (L + e))%R; [|lra].
      rewrite HGc, Ropp_mult_distr_l, <- opp_IZR. apply scaled_le.
      apply nearest_even_le; [lia|]. lia.
Qed.

Lemma round_significand_ge (f : format) (m e mf ef : Z) :
  1 ≤ prec f → held f mf ef →
  (IZR mf * powerRZ 2 ef <= IZR m * powerRZ 2 e)%R →
  (IZR mf * powerRZ 2 ef
   <= IZR (round_significand f m e).1 * powerRZ 2 (round_significand f m e).2)%R.
Proof.
  intros Hprec Hheld Hle. unfold round_significand. cbv zeta.
  destruct (decide (e < last_bit f m e)) as [Hc|Hc]; [|done]. cbn [fst snd].
  destruct (decide (last_bit f m e ≤ ef)) as [Hcef|Hcef].
  - set (c := last_bit f m e) in *.
    replace ef with (c + (ef - c)) in * by lia.
    rewrite scale in * by lia. apply scaled_le.
    apply nearest_even_ge; [lia|].
    replace c with (e + (c - e)) in Hle at 2 by lia.
    rewrite scale in Hle by lia. apply scaled_le in Hle. lia.
  - destruct (below_binade f m e mf ef Hprec Hheld Hc Hcef)
      as (Hm0 & HL & Hlo & HG & HGc & HGe & Hsplit).
    set (c := last_bit f m e) in *. set (L := Z.log2 (Z.abs m)) in *.
    destruct (decide (0 < m)) as [Hpos|Hneg].
    + apply Rle_trans with (powerRZ 2 (L + e)); [lra|].
      rewrite HGc. apply scaled_le. apply nearest_even_ge; [lia|]. lia.
    + apply Rle_trans with (IZR m * powerRZ 2 e)%R; [done|].
      apply Rle_trans with (- powerRZ 2 (L + e))%R.
      * rewrite HGe, Ropp_mult_distr_l, <- opp_IZR. apply scaled_le. lia.
      * rewrite HGc, Ropp_mult_distr_l, <- opp_IZR. apply scaled_le.
        apply nearest_even_ge; [lia|]. rewrite Z.mul_opp_l, <- Hsplit.
        assert (IZR (- 2 ^ L) * powerRZ 2 e <= IZR m * powerRZ 2 e)%R as Hm
          by (rewrite opp_IZR, Ropp_mult_distr_l_reverse, <- HGe; lra).
        by apply scaled_le in Hm.
Qed.

(** A number of magnitude at most [mb * 2 ^ eb], a number the format holds
    below its overflow threshold, is rounded to a finite number of
    magnitude at most [mb * 2 ^ eb]. *)
Lemma round_within (f : format) (m e mb eb : Z) :
  1 ≤ prec f → 0 < mb → held f mb eb → Z.log2 mb + 1 + eb ≤ emax f →
  (Rabs (IZR m * powerRZ 2 e) <= IZR mb * powerRZ 2 eb)%R →
  within (Fin mb eb) (round f m e).
Proof.
  intros Hprec Hmb Hheld Hemax [Hge Hle]%Rabs_le_iff.
  assert (held f (- mb) eb) as Hheld' by (destruct Hheld; split; [lia|done]).
  pose proof (round_significand_le f m e mb eb Hprec Hheld Hle) as Hup.
  rewrite Ropp_mult_distr_l, <- opp_IZR in Hge.
  pose proof (round_significand_ge f m e (- mb) eb Hprec Hheld' Hge) as Hdown.
  rewrite opp_IZR, <- Ropp_mult_distr_l in Hdown.
  unfold round. destruct (round_significand f m e) as [m' e']. cbn [fst snd] in *.
  pose proof (pow2_pos eb) as Hpow. apply IZR_lt in Hmb as HmbR.
  destruct (decide (m' = 0)) as [->|Hm'].
  { simpl. rewrite Rmult_0_l, Rabs_R0. nra. }
  destruct (decide (emax f ≤ Z.log2 (Z.abs m') + e')) as [Hover|_].
  - exfalso.
    pose proof (log2_abs_bounds m' Hm') as [Hlog _].
    assert (powerRZ 2 (emax f) <= Rabs (IZR m' * powerRZ 2 e'))%R as Hbig.
    { rewrite Rabs_mult, (Rabs_pos_eq (powerRZ 2 e')) by (left; apply pow2_pos).
      rewrite <- abs_IZR.
      apply Rle_trans with (powerRZ 2 (Z.log2 (Z.abs m') + e')); [by apply pow2_le|].
      rewrite pow2_add, (pow2_IZR (Z.log2 (Z.abs m'))) by apply Z.log2_nonneg.
      pose proof (pow2_pos e'). apply IZR_le in Hlog. nra. }
    assert (IZR mb * powerRZ 2 eb < powerRZ 2 (emax f))%R as Hsmall.
    { apply Rlt_le_trans with (powerRZ 2 (Z.log2 mb + 1 + eb)); [|by apply pow2_le].
      rewrite pow2_add, (pow2_IZR (Z.log2 mb + 1)) by (pose proof (Z.log2_nonneg mb); lia).
      pose proof (Z.log2_spec mb Hmb) as [_ Hlt]. rewrite <- Z.add_1_r in Hlt.
      apply IZR_lt in Hlt. nra. }
    assert (Rabs (IZR m' * powerRZ 2 e') <= IZR mb * powerRZ 2 eb)%R
      by (apply Rabs_le_iff; lra).
    lra.
  - simpl. apply Rabs_le_iff. lra.
Qed.

(** Sums and comparisons of finite numbers, in the reals. *)
Lemma add_finite (m1 e1 m2 e2 : Z) :
  ∃ m e, add (Fin m1 e1) (Fin m2 e2) = round binary64 m e ∧
    (IZR m * powerRZ 2 e = value (Fin m1 e1) + value (Fin m2 e2))%R.
Proof.
  eexists _, _. split; [reflexivity|].
  destruct (aligned m1 e1 m2 e2) as [H1 H2]. simpl in *.
  rewrite plus_IZR. lra.
Qed.

Lemma sub_finite (m1 e1 m2 e2 : Z) :
  ∃ m e, sub (Fin m1 e1) (Fin m2 e2) = round binary64 m e ∧
    (IZR m * powerRZ 2 e = value (Fin m1 e1) - value (Fin m2 e2))%R.
Proof.
  destruct (add_finite m1 e1 (- m2) e2) as (m & e & Heq & Hval).
  exists m, e. split; [exact Heq|]. simpl in *. rewrite opp_IZR in Hval. lra.
Qed.

Lemma ltb_finite (m1 e1 m2 e2 : Z) :
  ltb (Fin m1 e1) (Fin m2 e2) = true ↔ (value (Fin m1 e1) < value (Fin m2 e2))%R.
Proof.
  destruct (aligned m1 e1 m2 e2) as [H1 H2]. simpl in *.
  rewrite bool_decide_eq_true, <- H1, <- H2. symmetry. apply scaled_lt.
Qed.

Lemma within_finite (bound x : double) : within bound x → ∃ m e, x = Fin m e.
Proof. destruct x; [eauto|done..]. Qed.

(** The constants of the wrapping: [2 * Math.PI] is twice [Math.PI],
    exactly, and [Math.PI] rounded to single precision is
    3.1415927410125732. *)
Lemma two_PI : mul (of_Z 2) PI = Fin 1768559438007110 (-48).
Proof. vm_compute. reflexivity. Qed.

Lemma fround_PI : fround PI = Fin 13176795 (-22).
Proof. vm_compute. reflexivity. Qed.

Lemma value_two_PI : (value (Fin 1768559438007110 (-48)) = 2 * value PI)%R.
Proof.
  unfold value, PI. lra.
Qed.

Lemma value_PI_le_single : (value PI <= value (Fin 13176795 (-22)))%R.
Proof.
  unfold value, PI. change (-22) with (-48 + 26). rewrite scale by lia.
  apply scaled_le. vm_compute. discriminate.
Qed.

(** [Math.PI] lies below π, and its rounding to single precision above. *)
Lemma PI_between : (value PI < Rtrigo1.PI < value (fround PI))%R.
Proof.
  rewrite fround_PI. simpl. split.
  - pose proof (PI_2_3_7_ineq 9) as [Hlow _].
    unfold sum_f_R0, tg_alt, PI_2_3_7_tg, Ratan_seq in Hlow. simpl in Hlow. lra.
  - pose proof (PI_2_3_7_ineq 4) as [_ Hhigh].
    unfold sum_f_R0, tg_alt, PI_2_3_7_tg, Ratan_seq in Hhigh. simpl in Hhigh. lra.
Qed.

(** The wrapping in double arithmetic: the difference of two phases within
    [Math.PI] of 0 is brought back within [Math.PI] of 0 by at most one
    turn, and the single-precision number stored for it lies within
    [fround(Math.PI)] of 0. *)
Lemma wrap_double (p q : double) :
  within PI p → within PI q →
  let d := sub p q in
  let turn := mul (of_Z 2) PI in
  let w := if gtb d PI then sub d turn
           else if ltb d (neg PI) then add d turn else d in
  (let d := if gtb d PI then sub d turn else d in
   if ltb d (neg PI) then add d turn else d) = w ∧
  within PI w ∧ within (fround PI) (fround w).
Proof.
  intros Hp Hq.
  destruct (within_finite _ _ Hp) as (mp & ep & ->).
  destruct (within_finite _ _ Hq) as (mq & eq & ->).
  cbv zeta. rewrite two_PI, fround_PI.
  pose proof value_two_PI as Htwo. pose proof value_PI_le_single as Hsingle.
  unfold within in Hp, Hq. apply Rabs_le_iff in Hp, Hq.
  destruct (sub_finite mp ep mq eq) as (m & e & -> & Hval).
  unfold PI in *. cbn [value] in *.
  (* the difference is finite, within two turns *)
  assert (within (Fin 1768559438007110 (-48)) (round binary64 m e)) as Hd.
  { apply round_within; [done|done|split; vm_compute; discriminate|
                         vm_compute; discriminate|].
    rewrite Hval. apply Rabs_le_iff. lra. }
  destruct (within_finite _ _ Hd) as (md & ed & Hdeq). rewrite Hdeq in *.
  unfold within in Hd. apply Rabs_le_iff in Hd. cbn [value] in Hd.
  assert (∀ x, within (Fin 884279719003555 (-48)) x →
               within (Fin 13176795 (-22)) (fround x)) as Hstore.
  { intros x Hx. destruct (within_finite _ _ Hx) as (mx & ex & ->).
    apply round_within; [done|done|split; vm_compute; discriminate|
                         vm_compute; discriminate|].
    unfold within in Hx. cbn [value] in Hx. lra. }
  unfold gtb.
  destruct (ltb (Fin 884279719003555 (-48)) (Fin md ed)) eqn:Hgt.
  - (* above Math.PI: one turn down *)
    apply ltb_finite in Hgt. cbn [value] in Hgt.
    destruct (sub_finite md ed 1768559438007110 (-48)) as (m' & e' & Hw & Hval').
    cbn [value] in Hval'.
    assert (within (Fin 884279719003555 (-48))
              (sub (Fin md ed) (Fin 1768559438007110 (-48)))) as Hin.
    { rewrite Hw. apply round_within; [done|done|split; vm_compute; discriminate|
                                       vm_compute; discriminate|].
      rewrite Hval'. apply Rabs_le_iff. lra. }
    destruct (within_finite _ _ Hin) as (mw & ew & Hweq). rewrite Hweq in *.
    assert (ltb (Fin mw ew) (neg (Fin 884279719003555 (-48))) = false) as ->.
    { apply not_true_is_false. intros Hlt%ltb_finite.
      unfold within in Hin. apply Rabs_le_iff in Hin.
      cbn [value neg] in Hlt, Hin. rewrite opp_IZR in Hlt. lra. }
    split; [done|]. split; [done|]. by apply Hstore.
  - apply not_true_iff_false in Hgt. rewrite ltb_finite in Hgt. cbn [value] in Hgt.
    destruct (ltb (Fin md ed) (neg (Fin 884279719003555 (-48)))) eqn:Hlt.
    + (* below -Math.PI: one turn up *)
      apply ltb_finite in Hlt. cbn [value neg] in Hlt. rewrite opp_IZR in Hlt.
      destruct (add_finite md ed 1768559438007110 (-48)) as (m' & e' & Hw & Hval').
      cbn [value] in Hval'.
      assert (within (Fin 884279719003555 (-48))
                (add (Fin md ed) (Fin 1768559438007110 (-48)))) as Hin.
      { rewrite Hw. apply round_within; [done|done|split; vm_compute; discriminate|
                                         vm_compute; discriminate|].
        rewrite Hval'. apply Rabs_le_iff. lra. }
      split; [done|]. split; [done|]. by apply Hstore.
    + apply not_true_iff_false in Hlt. cbn [neg] in Hlt. rewrite ltb_finite in Hlt.
      cbn [value] in Hlt. rewrite opp_IZR in Hlt.
      assert (within (Fin 884279719003555 (-48)) (Fin md ed)) as Hin.
      { unfold within. apply Rabs_le_iff. cbn [value]. lra. }
      split; [done|]. split; [done|]. by apply Hstore.
Qed.

End Rounding.

Lemma within_PI_PI : IEEE.within IEEE.PI IEEE.PI.
Proof.
  unfold IEEE.within, IEEE.PI, IEEE.value. apply Rabs_le_iff.
  pose proof (pow2_pos (-48)). lra.
Qed.

Lemma within_PI_0 : IEEE.within IEEE.PI (IEEE.of_Z 0).
Proof.
  change (IEEE.of_Z 0) with (IEEE.Fin 0 0).
  unfold IEEE.within, IEEE.PI, IEEE.value. apply Rabs_le_iff.
  pose proof (pow2_pos (-48)). lra.
Qed.

(** C2, as the code has it: for every sequence of phases [Math.atan2] can
    return (finite doubles within [Math.PI] of 0), the difference output of
    both demodulators has the length of the sequence and 0 at index 0; for
    every [i >= 1], [diff[i]] is the double difference
    [d = phase[i] - phase[i-1]], taken one turn [2 * Math.PI] down when
    [d > Math.PI] and one turn up when [d < -Math.PI], never both, and
    rounded to single precision.  Before the rounding it lies within
    [Math.PI] of 0, both ends included; the number stored lies within
    [fround(Math.PI)] = 13176795 / 2^22 of 0, a range wider than [-π, π],
    since [Math.PI < π < fround(Math.PI)]. *)
Theorem C2_phase_differences_single_precision_range
    (math_atan2 : IEEE.double → IEEE.double → IEEE.double) (phases : list IEEE.double) :
  Forall (IEEE.within IEEE.PI) phases →
  let diffs := SignalProcessor.computeDiffs (H := IEEEFloat math_atan2) phases in
  computePhaseDiff (H := IEEEFloat math_atan2) phases = diffs ∧
  len diffs = len phases ∧
  (0 < len phases → diffs.[0] = Some (IEEE.of_Z 0)) ∧
  (∀ i p q, 1 ≤ i → phases.[i] = Some p → phases.[i - 1] = Some q →
     let d := IEEE.sub p q in
     let turn := IEEE.mul (IEEE.of_Z 2) IEEE.PI in
     let w := if IEEE.gtb d IEEE.PI then IEEE.sub d turn
              else if IEEE.ltb d (IEEE.neg IEEE.PI) then IEEE.add d turn else d in
     diffs.[i] = Some (IEEE.fround w) ∧
     IEEE.within IEEE.PI w ∧
     IEEE.within (IEEE.fround IEEE.PI) (IEEE.fround w)) ∧
  IEEE.fround IEEE.PI = IEEE.Fin 13176795 (-22) ∧
  (IEEE.value IEEE.PI < Rtrigo1.PI < IEEE.value (IEEE.fround IEEE.PI))%R.
Proof.
  intros Hrange diffs. subst diffs.
  split; [exact (computePhaseDiff_computeDiffs (H := IEEEFloat math_atan2) phases)|].
  split; [exact (len_computeDiffs (H := IEEEFloat math_atan2) phases)|].
  split; [|split; [|split; [exact fround_PI|exact PI_between]]].
  - intros Hlen. rewrite (computeDiffs_read (H := IEEEFloat math_atan2)).
    cbn [num IEEEFloat]. rewrite decide_True by lia. done.
  - intros i p q Hi Hp Hq.
    assert (∀ j x, phases.[j] = Some x → IEEE.within IEEE.PI x) as Hin.
    { intros j x Hj. unfold read in Hj. case_decide; [|done].
      rewrite Forall_lookup in Hrange. exact (Hrange _ _ Hj). }
    destruct (wrap_double p q (Hin _ _ Hp) (Hin _ _ Hq)) as (Hcode & Hw & Hstored).
    split; [|split; [exact Hw|exact Hstored]].
    rewrite (computeDiffs_read (H := IEEEFloat math_atan2)).
    cbn [num IEEEFloat]. pose proof (read_Some_lt _ _ _ Hp) as Hlt.
    rewrite decide_True by done. rewrite decide_True by done.
    rewrite Hp, Hq. cbn [val default].
    cbn [sub add mul neg gtb ltb of_Z fround PI IEEEFloat].
    f_equal. f_equal. exact Hcode.
Qed.

Lemma C2_phase_differences_single_precision_range_witness :
  Forall (IEEE.within IEEE.PI) [IEEE.PI; IEEE.of_Z 0] ∧
  (SignalProcessor.computeDiffs (H := IEEEFloat atan2_of_zero) [IEEE.PI; IEEE.of_Z 0]).[1]
  = Some (IEEE.Fin (-13176795) (-22)) ∧
  IEEE.within (IEEE.fround IEEE.PI) (IEEE.Fin (-13176795) (-22)).
Proof.
  assert (Forall (IEEE.within IEEE.PI) [IEEE.PI; IEEE.of_Z 0]) as Hin.
  { repeat first [apply List.Forall_nil | apply List.Forall_cons];
      [exact within_PI_PI|exact within_PI_0]. }
  split; [exact Hin|].
  destruct (C2_phase_differences_single_precision_range atan2_of_zero
              [IEEE.PI; IEEE.of_Z 0] Hin) as (_ & _ & _ & Hdiff & _).
  destruct (Hdiff 1 (IEEE.of_Z 0) IEEE.PI) as (Hd & _ & Hstored);
    [lia|reflexivity|reflexivity|].
  split; [exact Hd|exact Hstored].
Defined.

(** The capture of the two samples [(I, Q) = (0, 128)] and [(255, 128)]:
    its Q samples are 0 after the offset, so that any [Math.atan2] gives
    the phases [Math.PI] and 0.  Their difference is [-Math.PI], which is
    not below [-Math.PI] and is left as it is; the store rounds it to
    single precision, to -13176795 / 2^22 = -3.1415927410125732, which is
    below -π.  In the same way the phases 0 and [Math.PI] give
    3.1415927410125732, which is above π. *)
Lemma C2_counterexample_below_minus_pi :
  let phases := SignalProcessor.computePhases (H := IEEEFloat atan2_of_zero)
                  (SignalProcessor.normalize (H := IEEEFloat atan2_of_zero)
                     (SignalProcessor.readIq [x00; x80; xff; x80])) in
  phases = [IEEE.PI; IEEE.of_Z 0] ∧
  Forall (IEEE.within IEEE.PI) phases ∧
  (SignalProcessor.computeDiffs (H := IEEEFloat atan2_of_zero) phases).[1]
  = Some (IEEE.Fin (-13176795) (-22)) ∧
  (computePhaseDiff (H := IEEEFloat atan2_of_zero) phases).[1]
  = Some (IEEE.Fin (-13176795) (-22)) ∧
  (IEEE.value (IEEE.Fin (-13176795) (-22)) < - Rtrigo1.PI)%R ∧
  (SignalProcessor.computeDiffs (H := IEEEFloat atan2_of_zero)
     [IEEE.of_Z 0; IEEE.PI]).[1] = Some (IEEE.Fin 13176795 (-22)) ∧
  (Rtrigo1.PI < IEEE.value (IEEE.Fin 13176795 (-22)))%R.
Proof.
  assert (SignalProcessor.computePhases (H := IEEEFloat atan2_of_zero)
            (SignalProcessor.normalize (H := IEEEFloat atan2_of_zero)
               (SignalProcessor.readIq [x00; x80; xff; x80]))
          = [IEEE.PI; IEEE.of_Z 0]) as -> by (vm_compute; reflexivity).
  cbv zeta. pose proof PI_between as [_ Hpi]. rewrite fround_PI in Hpi.
  split; [done|]. split.
  { repeat first [apply List.Forall_nil | apply List.Forall_cons];
      [exact within_PI_PI|exact within_PI_0]. }
  split; [vm_compute; reflexivity|]. split; [vm_compute; reflexivity|].
  split; [|split; [vm_compute; reflexivity|exact Hpi]].
  unfold IEEE.value in *. lra.
Qed.

(** ** The Frame Parser *)

Lemma append_cons (c : ascii) (a b : string) :
  (String c a ++ b)%string = String c (a ++ b)%string.
Proof. reflexivity. Qed.

Lemma slen_cons (c : ascii) (a : string) : slen (String c a) = slen a + 1.
Proof. unfold slen. simpl. lia. Qed.

Lemma slen_app (a b : string) : slen (a ++ b) = slen a + slen b.
Proof.
  induction a as [|c a IH]; [done|]. rewrite append_cons, !slen_cons, IH. lia.
Qed.

Lemma slen_nonneg (a : string) : 0 ≤ slen a.
Proof. unfold slen. lia. Qed.

Lemma substring_prefix (x post : string) :
  substring 0 (String.length x) (x ++ post) = x.
Proof.
  induction x as [|c x IH]; [by destruct post|].
  rewrite append_cons. simpl. by rewrite IH.
Qed.

Lemma substring_skip (pre s : string) (n m : nat) :
  substring (String.length pre + n) m (pre ++ s) = substring n m s.
Proof.
  induction pre as [|c pre IH]; [done|]. rewrite append_cons. simpl. apply IH.
Qed.

(** The slice between the ends of a prefix and of the field after it is the
    field. *)
Lemma slice_field (pre x post : string) :
  slice (pre ++ x ++ post) (slen pre) (slen pre + slen x) = x.
Proof.
  unfold slice. rewrite !slen_app.
  pose proof (slen_nonneg pre). pose proof (slen_nonneg x). pose proof (slen_nonneg post).
  rewrite !decide_False by lia.
  rewrite Z.min_l, Z.min_l by lia.
  replace (Z.to_nat (slen pre)) with (String.length pre + 0)%nat by (unfold slen; lia).
  replace (Z.to_nat (slen pre + slen x - slen pre)) with (String.length x)
    by (unfold slen; lia).
  rewrite substring_skip. apply substring_prefix.
Qed.

Lemma string_app_assoc (a b c : string) : ((a ++ b) ++ c = a ++ (b ++ c))%string.
Proof.
  induction a as [|x a IH]; [done|]. rewrite !append_cons. by rewrite IH.
Qed.

Lemma string_app_nil_r (a : string) : (a ++ "")%string = a.
Proof. induction a as [|x a IH]; [done|]. rewrite append_cons. by rewrite IH. Qed.

Lemma foldl_string_app {A} (F : A → string) (l : list A) : ∀ acc : string,
  foldl (λ h i, h ++ F i)%string acc l = (acc ++ foldl (λ h i, h ++ F i) "" l)%string.
Proof.
  induction l as [|x l IH]; intros acc; simpl; [by rewrite string_app_nil_r|].
  change ("" ++ F x)%string with (F x).
  rewrite IH. rewrite (IH (F x)). by rewrite string_app_assoc.
Qed.

Lemma Qceiling_quarter (k : Z) : Qceiling (inject_Z (4 * k) / inject_Z 4) = k.
Proof.
  unfold Qceiling, Qfloor, Qopp, Qdiv, Qmult, Qinv, inject_Z; simpl.
  replace (- (4 * k * 1)) with (- k * 4) by lia. rewrite Z.div_mul by lia. lia.
Qed.

(** The chunk loop of [binToHex], digit by digit: on a string whose length
    is a multiple of 4 it makes one digit of each group of four. *)
Lemma chunk_loop_nibbles (k : nat) : ∀ (pre suf : string) (m : Z),
  slen pre = 4 * m → slen suf = 4 * Z.of_nat k →
  foldl (λ h i, h ++ toString16 (parseInt2 (slice (pre ++ suf) i (i + 4))))%string ""
    ((λ j, 0 + 4 * j) <$> seqZ m (Z.of_nat k))
  = hex_of_nibbles suf.
Proof.
  induction k as [|k IH]; intros pre suf m Hpre Hsuf.
  - destruct suf as [|c suf]; [done|]. rewrite slen_cons in Hsuf.
    pose proof (slen_nonneg suf). lia.
  - destruct suf as [|c1 [|c2 [|c3 [|c4 rest]]]];
      try (unfold slen in Hsuf; simpl in Hsuf; lia).
    rewrite seqZ_cons by lia. rewrite fmap_cons. cbn [foldl].
    replace (Z.pred (Z.of_nat (S k))) with (Z.of_nat k) by lia.
    rewrite foldl_string_app. simpl hex_of_nibbles. f_equal.
    + assert (slice (pre ++ String c1 (String c2 (String c3 (String c4 rest))))
                (slen pre) (slen pre + 4)
              = String c1 (String c2 (String c3 (String c4 ""))))%string as Hs
        by exact (slice_field pre (String c1 (String c2 (String c3 (String c4 "")))) rest).
      rewrite Hpre in Hs. replace (0 + 4 * m) with (4 * m) by lia.
      change ("" ++ ?x)%string with x. by rewrite Hs.
    + assert ((pre ++ String c1 (String c2 (String c3 (String c4 ""))))
                ++ rest = pre ++ String c1 (String c2 (String c3 (String c4 rest))))%string
        as Happ by (by rewrite string_app_assoc).
      rewrite <- Happ. apply IH.
      * rewrite slen_app, Hpre. unfold slen. simpl. lia.
      * rewrite !slen_cons in Hsuf. lia.
Qed.

Lemma binToHex_nibbles (b : string) (k : Z) :
  slen b = 4 * k → FrameParser.binToHex b = hex_of_nibbles b.
Proof.
  intros Hb. pose proof (slen_nonneg b). unfold FrameParser.binToHex, padStart. cbv zeta.
  rewrite Hb, Qceiling_quarter. replace (k * 4 - 4 * k) with 0 by lia. simpl repeat_char.
  change ("" ++ b)%string with b. unfold for_step. rewrite Hb, Z.sub_0_r, Qceiling_quarter.
  replace k with (Z.of_nat (Z.to_nat k)) at 1 by lia.
  apply (chunk_loop_nibbles (Z.to_nat k) "" b 0); [reflexivity|lia].
Qed.

(** A group of four bits becomes the hexadecimal digit that stands for
    them. *)
Lemma nibble_digit (c1 c2 c3 c4 : ascii) :
  bit_string (String c1 (String c2 (String c3 (String c4 "")))) →
  ∃ d : ascii,
    toString16 (parseInt2 (String c1 (String c2 (String c3 (String c4 "")))))
    = String d "" ∧
    hex_digit_bits d = String c1 (String c2 (String c3 (String c4 ""))).
Proof.
  intros ([-> | ->] & [-> | ->] & [-> | ->] & [-> | ->] & _);
    eexists; split; reflexivity.
Qed.

(** The digits [binToHex] makes of a bit string of [4k] bits are [k]
    digits that stand for these bits. *)
Lemma hex_of_nibbles_roundtrip (k : nat) : ∀ b : string,
  slen b = 4 * Z.of_nat k → bit_string b →
  slen (hex_of_nibbles b) = Z.of_nat k ∧ hexToBin (hex_of_nibbles b) = b.
Proof.
  induction k as [|k IH]; intros b Hlen Hbits.
  - destruct b as [|c b]; [done|]. rewrite slen_cons in Hlen.
    pose proof (slen_nonneg b). lia.
  - destruct b as [|c1 [|c2 [|c3 [|c4 rest]]]];
      try (unfold slen in Hlen; simpl in Hlen; lia).
    rewrite !slen_cons in Hlen.
    destruct Hbits as (H1 & H2 & H3 & H4 & Hrest).
    destruct (nibble_digit c1 c2 c3 c4) as (d & Hd & Hback); [simpl; tauto|].
    destruct (IH rest) as [IHlen IHback]; [lia|done|].
    simpl hex_of_nibbles. rewrite Hd, append_cons.
    change ("" ++ ?x)%string with x. split.
    + rewrite slen_cons, IHlen. lia.
    + simpl hexToBin. rewrite Hback, IHback. reflexivity.
Qed.

Lemma slice_field_at (pre x post : string) (a b : Z) :
  a = slen pre → b = a + slen x → slice (pre ++ x ++ post) a b = x.
Proof. intros -> ->. apply slice_field. Qed.

Lemma lookup_or_COMMANDS (commandBits : string) :
  lookup_or COMMANDS commandBits "UNKNOWN"
  = (if decide (commandBits = "001") then "OPEN"
     else if decide (commandBits = "010") then "CLOSE" else "UNKNOWN")%string.
Proof.
  unfold lookup_or, COMMANDS.
  destruct (decide (commandBits = "001"%string)) as [->|H1]; [done|].
  destruct (decide (commandBits = "010"%string)) as [->|H2]; [done|].
  rewrite lookup_insert_ne by done. by rewrite lookup_singleton_ne.
Qed.

Lemma lookup_or_BATTERY_STATUS (batteryBit : string) :
  lookup_or BATTERY_STATUS batteryBit "UNKNOWN"
  = (if decide (batteryBit = "1") then "OK"
     else if decide (batteryBit = "0") then "LOW" else "UNKNOWN")%string.
Proof.
  unfold lookup_or, BATTERY_STATUS.
  destruct (decide (batteryBit = "1"%string)) as [->|H1]; [done|].
  destruct (decide (batteryBit = "0"%string)) as [->|H2]; [done|].
  rewrite lookup_insert_ne by done. by rewrite lookup_singleton_ne.
Qed.

(** The fields [parse] cuts out of a frame put together from fields of the
    protocol's widths. *)
Lemma parse_fields (pre sync_ id cmd bat : string) :
  slen pre = PREAMBLE_LENGTH → slen sync_ = SYNC_WORD_LENGTH →
  slen id = DEVICE_ID_LENGTH → slen cmd = COMMAND_LENGTH → slen bat = BATTERY_LENGTH →
  FrameParser.parse (pre ++ sync_ ++ id ++ cmd ++ bat)
  = {| sync := sync_;
       deviceId := "0x" ++ FrameParser.binToHex id;
       command := lookup_or COMMANDS cmd "UNKNOWN";
       battery := lookup_or BATTERY_STATUS bat "UNKNOWN" |}%string.
Proof.
  intros Hpre Hsync Hid Hcmd Hbat. unfold FrameParser.parse. cbv zeta.
  rewrite (slice_field_at pre sync_) by lia.
  rewrite <- (string_app_assoc pre sync_).
  rewrite (slice_field_at (pre ++ sync_) id) by (rewrite ?slen_app; lia).
  rewrite <- (string_app_assoc (pre ++ sync_) id).
  rewrite (slice_field_at ((pre ++ sync_) ++ id) cmd) by (rewrite ?slen_app; lia).
  rewrite <- (string_app_nil_r bat) at 1.
  rewrite <- (string_app_assoc (((pre ++ sync_) ++ id)) cmd).
  rewrite (slice_field_at (((pre ++ sync_) ++ id) ++ cmd) bat) by (rewrite ?slen_app; lia).
  done.
Qed.

(** C4: a frame put together from a preamble, sync bits, 20 device-id
    bits, command bits and a battery bit is parsed back into these values:
    the sync field is the sync bits; the device id is "0x" and five
    hexadecimal digits that stand for exactly the device-id bits
    ("00000000000000000001" gives "0x00001"); the command bits "001" give
    OPEN and "010" give CLOSE, and any other, such as "111", give UNKNOWN;
    the battery bit "1" gives OK and "0" gives LOW. *)
Theorem C4_frame_round_trip (pre sync_ id cmd bat : string) :
  slen pre = 24 → slen sync_ = 16 → slen id = 20 → slen cmd = 3 → slen bat = 1 →
  bit_string id →
  let f := FrameParser.parse (pre ++ sync_ ++ id ++ cmd ++ bat) in
  sync f = sync_ ∧
  (∃ h, deviceId f = ("0x" ++ h)%string ∧ slen h = 5 ∧ hexToBin h = id) ∧
  (id = "00000000000000000001"%string → deviceId f = "0x00001"%string) ∧
  (cmd = "001"%string → command f = "OPEN"%string) ∧
  (cmd = "010"%string → command f = "CLOSE"%string) ∧
  (cmd = "111"%string → command f = "UNKNOWN"%string) ∧
  (cmd ≠ "001"%string → cmd ≠ "010"%string → command f = "UNKNOWN"%string) ∧
  (bat = "1"%string → battery f = "OK"%string) ∧
  (bat = "0"%string → battery f = "LOW"%string).
Proof.
  intros Hpre Hsync Hid Hcmd Hbat Hbits f. subst f.
  rewrite parse_fields by done. simpl sync; simpl deviceId; simpl command; simpl battery.
  rewrite lookup_or_COMMANDS, lookup_or_BATTERY_STATUS.
  rewrite (binToHex_nibbles id 5) by lia.
  destruct (hex_of_nibbles_roundtrip 5 id) as [Hlen Hback]; [lia|done|].
  split; [done|]. split; [eauto|].
  split; [by intros ->|]. split; [by intros ->|]. split; [by intros ->|].
  split; [by intros ->|].
  split; [intros H1 H2; by rewrite !decide_False by done|].
  split; by intros ->.
Qed.

Lemma C4_frame_round_trip_witness :
  (slen "101010101010101010101010" = 24 ∧ slen SYNC_WORD = 16 ∧
   slen "00000000000000000001" = 20 ∧ slen "001" = 3 ∧ slen "1" = 1 ∧
   bit_string "00000000000000000001") ∧
  let f := FrameParser.parse
    ("101010101010101010101010" ++ SYNC_WORD ++ "00000000000000000001" ++ "001" ++ "1") in
  sync f = SYNC_WORD ∧ deviceId f = "0x00001"%string ∧
  command f = "OPEN"%string ∧ battery f = "OK"%string.
Proof.
  assert (bit_string "00000000000000000001") as Hbits by (simpl; tauto).
  split; [repeat (split; [reflexivity|]); exact Hbits|].
  destruct (C4_frame_round_trip "101010101010101010101010" SYNC_WORD
              "00000000000000000001" "001" "1"
              eq_refl eq_refl eq_refl eq_refl eq_refl Hbits)
    as (Hs & _ & Hd & Hc & _ & _ & _ & Hb & _).
  split; [exact Hs|]. split; [exact (Hd eq_refl)|].
  split; [exact (Hc eq_refl)|exact (Hb eq_refl)].
Defined.

Lemma string_split (n : nat) : ∀ s : string,
  (n ≤ String.length s)%nat → ∃ x y : string, s = (x ++ y)%string ∧ String.length x = n.
Proof.
  induction n as [|n IH]; intros s Hn.
  - by exists ""%string, s.
  - destruct s as [|c s]; simpl in Hn; [lia|].
    destruct (IH s) as (x & y & -> & Hx); [lia|].
    exists (String c x), y. split; [done|]. simpl. by rewrite Hx.
Qed.

Lemma string_split_Z (n : Z) (s : string) :
  0 ≤ n ≤ slen s → ∃ x y : string, s = (x ++ y)%string ∧ slen x = n ∧ slen y = slen s - n.
Proof.
  intros Hn. destruct (string_split (Z.to_nat n) s) as (x & y & -> & Hx);
    [unfold slen in Hn; lia|].
  exists x, y. split; [done|]. rewrite slen_app. unfold slen in *. lia.
Qed.

(** A string of the protocol's length is made of the five fields. *)
Lemma frame_fields (frame : string) :
  slen frame = 64 →
  ∃ pre sync_ id cmd bat : string,
    frame = (pre ++ sync_ ++ id ++ cmd ++ bat)%string ∧
    slen pre = 24 ∧ slen sync_ = 16 ∧ slen id = 20 ∧ slen cmd = 3 ∧ slen bat = 1.
Proof.
  intros Hlen.
  destruct (string_split_Z 24 frame) as (pre & r1 & -> & Hpre & H1); [lia|].
  destruct (string_split_Z 16 r1) as (sy & r2 & -> & Hsy & H2); [lia|].
  destruct (string_split_Z 20 r2) as (id & r3 & -> & Hid & H3); [lia|].
  destruct (string_split_Z 3 r3) as (cmd & bat & -> & Hcmd & H4); [lia|].
  exists pre, sy, id, cmd, bat. repeat split; try done. lia.
Qed.

Lemma bit_string_app (a b : string) : bit_string (a ++ b) ↔ bit_string a ∧ bit_string b.
Proof.
  induction a as [|c a IH]; [simpl; tauto|]. rewrite append_cons. simpl. tauto.
Qed.

(** C9: for every string of the protocol's length, [parse] returns a frame:
    its sync field is the 16 characters after the preamble as they are,
    whatever they are; the command and the battery are what the tables give
    and UNKNOWN for a code that is in neither; for a bit string the device
    id has five digits and the battery is not UNKNOWN.  It is the caller,
    [processFile], that drops a frame whose sync field differs from the sync
    word (the state is left as it was), and publishes any other. *)
Theorem C9_parser_total_sync_left_to_caller (frame : string) :
  slen frame = 64 →
  let f := FrameParser.parse frame in
  sync f = slice frame 24 40 ∧ slen (sync f) = 16 ∧
  deviceId f = ("0x" ++ FrameParser.binToHex (slice frame 40 60))%string ∧
  command f = (if decide (slice frame 60 63 = "001") then "OPEN"
               else if decide (slice frame 60 63 = "010") then "CLOSE"
               else "UNKNOWN")%string ∧
  battery f = (if decide (slice frame 63 64 = "1") then "OK"
               else if decide (slice frame 63 64 = "0") then "LOW"
               else "UNKNOWN")%string ∧
  (bit_string frame →
   (∃ h, deviceId f = ("0x" ++ h)%string ∧ slen h = 5) ∧ battery f ≠ "UNKNOWN"%string) ∧
  (∀ w, sync f ≠ SYNC_WORD → processFrame w frame = w) ∧
  (∀ w, sync f = SYNC_WORD →
     console (processFrame w frame) = console w ++ [(deviceId f, command f, battery f)]).
Proof.
  intros Hlen f.
  assert (sync f = slice frame 24 40 ∧
          deviceId f = ("0x" ++ FrameParser.binToHex (slice frame 40 60))%string ∧
          command f = lookup_or COMMANDS (slice frame 60 63) "UNKNOWN" ∧
          battery f = lookup_or BATTERY_STATUS (slice frame 63 64) "UNKNOWN")
    as (Hsync & Hdev & Hcmd & Hbat) by done.
  destruct (frame_fields frame Hlen)
    as (pre & sy & id & cmd & bat & Hframe & Hpre & Hsy & Hid & Hc & Hb).
  pose proof (parse_fields pre sy id cmd bat Hpre Hsy Hid Hc Hb) as Hparse.
  rewrite <- Hframe in Hparse. fold f in Hparse.
  split; [done|]. split; [by rewrite Hparse|]. split; [done|].
  split; [by rewrite Hcmd, lookup_or_COMMANDS|].
  split; [by rewrite Hbat, lookup_or_BATTERY_STATUS|].
  split; [|split].
  - intros Hbits. rewrite Hframe in Hbits.
    apply bit_string_app in Hbits as (_ & Hbits).
    apply bit_string_app in Hbits as (_ & Hbits).
    apply bit_string_app in Hbits as (Hbid & Hbits).
    apply bit_string_app in Hbits as (_ & Hbbat).
    rewrite Hparse. simpl deviceId; simpl battery. split.
    + rewrite (binToHex_nibbles id 5) by lia.
      destruct (hex_of_nibbles_roundtrip 5 id) as [Hl _]; [lia|done|]. eauto.
    + destruct bat as [|c [|c' bat]]; try (unfold slen in Hb; simpl in Hb; lia).
      destruct Hbbat as [[-> | ->] _]; done.
  - intros w Hne. unfold processFrame. fold f. by rewrite decide_True.
  - intros w Heq. unfold processFrame. fold f. rewrite decide_False by (intros ?; done).
    cbv zeta. destruct (decide (deviceId f ∈ discovered w)); reflexivity.
Qed.

Lemma C9_parser_total_sync_left_to_caller_witness :
  slen "1010101010101010101010101111111111111111000000000000000000011111" = 64 ∧
  sync (FrameParser.parse
          "1010101010101010101010101111111111111111000000000000000000011111")
  = "1111111111111111"%string ∧
  command (FrameParser.parse
          "1010101010101010101010101111111111111111000000000000000000011111")
  = "UNKNOWN"%string ∧
  processFrame {| sent := []; discovered := []; console := [] |}
    "1010101010101010101010101111111111111111000000000000000000011111"
  = {| sent := []; discovered := []; console := [] |}.
Proof.
  split; [reflexivity|].
  destruct (C9_parser_total_sync_left_to_caller
              "1010101010101010101010101111111111111111000000000000000000011111" eq_refl)
    as (Hsync & _ & _ & Hcmd & _ & _ & Hdrop & _).
  split; [rewrite Hsync; reflexivity|]. split; [rewrite Hcmd; reflexivity|].
  apply Hdrop. rewrite Hsync. discriminate.
Defined.

(** * Further properties of the code *)

(** ** The Sample Loader and interleaving *)

Lemma length_interleave (Is : list byte) : ∀ Qs : list byte,
  length Is = length Qs → length (interleave Is Qs) = (2 * length Is)%nat.
Proof.
  induction Is as [|i Is IH]; intros [|q Qs] Hlen; simpl in *; try done.
  rewrite IH by lia. lia.
Qed.

Lemma lookup_interleave (Is : list byte) : ∀ (Qs : list byte) (k : nat),
  length Is = length Qs →
  interleave Is Qs !! (2 * k)%nat = Is !! k ∧
  interleave Is Qs !! (2 * k + 1)%nat = Qs !! k.
Proof.
  induction Is as [|i Is IH]; intros [|q Qs] k Hlen; try done.
  destruct k as [|k]; [done|].
  replace (2 * S k)%nat with (S (S (2 * k))) by lia.
  replace (S (S (2 * k)) + 1)%nat with (S (S (2 * k + 1))) by lia.
  cbn [interleave]. rewrite !lookup_cons. apply IH. simpl in Hlen. lia.
Qed.

Lemma read_interleave (Is Qs : list byte) (i : Z) :
  length Is = length Qs → 0 ≤ i →
  (interleave Is Qs).[2 * i] = Is.[i] ∧ (interleave Is Qs).[2 * i + 1] = Qs.[i].
Proof.
  intros Hlen Hi. unfold read. rewrite !decide_True by lia.
  destruct (lookup_interleave Is Qs (Z.to_nat i) Hlen) as [He Ho].
  replace (Z.to_nat (2 * i)) with (2 * Z.to_nat i)%nat by lia.
  replace (Z.to_nat (2 * i + 1)) with (2 * Z.to_nat i + 1)%nat by lia.
  done.
Qed.

(** De-interleaving is the inverse of interleaving: a buffer made of [Is] at
    the even and [Qs] at the odd positions is loaded as [(Is, Qs)], and a
    buffer of even length is the interleaving of what is loaded from it. *)
Theorem readIq_interleave_round_trip (Is Qs buffer : list byte) :
  length Is = length Qs → Z.even (len buffer) = true →
  SignalProcessor.readIq (interleave Is Qs) = (Is, Qs) ∧
  readCU8File (interleave Is Qs) = (Is, Qs) ∧
  interleave (SignalProcessor.readIq buffer).1 (SignalProcessor.readIq buffer).2 = buffer.
Proof.
  intros Hlen Heven. rewrite readCU8File_readIq.
  assert (∀ Is Qs : list byte, length Is = length Qs →
            SignalProcessor.readIq (interleave Is Qs) = (Is, Qs)) as Hload.
  { clear. intros Is Qs Hlen.
    pose proof (λ i, readIq_spec (interleave Is Qs) i) as Hspec.
    destruct (SignalProcessor.readIq (interleave Is Qs)) as [Is' Qs'].
    assert (len (interleave Is Qs) / 2 = len Is) as Hhalf.
    { unfold len. rewrite length_interleave by done. Z.div_mod_to_equations. lia. }
    f_equal; apply list_eq_read; intros i; destruct (Hspec i) as (_ & _ & HI & HQ);
      rewrite Hhalf in HI, HQ; rewrite ?HI, ?HQ;
      destruct (decide (0 ≤ i < len Is)) as [Hi|Hi].
    - apply (read_interleave Is Qs i Hlen). lia.
    - symmetry. by apply read_None.
    - apply (read_interleave Is Qs i Hlen). lia.
    - symmetry. apply read_None. unfold len in *. lia. }
  split; [by apply Hload|]. split; [by apply Hload|].
  pose proof (λ i, readIq_spec buffer i) as Hspec.
  destruct (SignalProcessor.readIq buffer) as [Is' Qs']. simpl.
  destruct (Hspec 0) as (HlI & HlQ & _).
  assert (len buffer = 2 * (len buffer / 2)) as Hn.
  { pose proof (Zmod_even (len buffer)) as Hm. rewrite Heven in Hm.
    pose proof (Z.div_mod (len buffer) 2). lia. }
  assert (length Is' = length Qs') as Hlen' by (unfold len in *; lia).
  apply list_eq_read. intros j.
  destruct (decide (0 ≤ j < len buffer)) as [Hj|Hj].
  - destruct (Z.even j) eqn:Hpar.
    + assert (j = 2 * (j / 2)) as Hj2.
      { pose proof (Zmod_even j) as Hm. rewrite Hpar in Hm.
        pose proof (Z.div_mod j 2). lia. }
      rewrite Hj2 at 1. destruct (read_interleave Is' Qs' (j / 2) Hlen') as [-> _];
        [Z.div_mod_to_equations; lia|].
      destruct (Hspec (j / 2)) as (_ & _ & -> & _).
      rewrite decide_True by (Z.div_mod_to_equations; lia). by rewrite <- Hj2.
    + assert (j = 2 * (j / 2) + 1) as Hj2.
      { pose proof (Zmod_even j) as Hm. rewrite Hpar in Hm.
        pose proof (Z.div_mod j 2). lia. }
      rewrite Hj2 at 1. destruct (read_interleave Is' Qs' (j / 2) Hlen') as [_ ->];
        [Z.div_mod_to_equations; lia|].
      destruct (Hspec (j / 2)) as (_ & _ & _ & ->).
      rewrite decide_True by (Z.div_mod_to_equations; lia). by rewrite <- Hj2.
  - rewrite (read_None buffer) by done. apply read_None.
    unfold len in *. rewrite length_interleave by done. lia.
Qed.

Lemma readIq_interleave_round_trip_witness :
  (length [x01; x03] = length [x02; x04] ∧ Z.even (len [x0a; x0b; x0c; x0d]) = true) ∧
  SignalProcessor.readIq (interleave [x01; x03] [x02; x04]) = ([x01; x03], [x02; x04]) ∧
  readCU8File (interleave [x01; x03] [x02; x04]) = ([x01; x03], [x02; x04]) ∧
  interleave (SignalProcessor.readIq [x0a; x0b; x0c; x0d]).1
             (SignalProcessor.readIq [x0a; x0b; x0c; x0d]).2 = [x0a; x0b; x0c; x0d].
Proof.
  split; [split; reflexivity|].
  apply (readIq_interleave_round_trip [x01; x03] [x02; x04] [x0a; x0b; x0c; x0d]);
    reflexivity.
Defined.

(** ** The Normalizer, the Power Detector and the mask, over the reals *)

Lemma byte_val_range (b : byte) : 0 ≤ byte_val b ≤ 255.
Proof. unfold byte_val. pose proof (Byte.to_N_bounded b). lia. Qed.

Lemma calculatePower_read `{Float} (nI nQ : list num) (i : Z) :
  (SignalProcessor.calculatePower (nI, nQ)).[i]
  = if decide (0 ≤ i < len nI)
    then Some (fround (add (mul (val nI.[i]) (val nI.[i])) (mul (val nQ.[i]) (val nQ.[i]))))
    else None.
Proof.
  unfold SignalProcessor.calculatePower, for_to, FloatArray. cbv zeta.
  pose proof (len_nonneg nI).
  rewrite (read_fill_loop (λ i, fround (add (mul (val nI.[i]) (val nI.[i]))
                                            (mul (val nQ.[i]) (val nQ.[i]))))),
    !Z2Nat.id by done.
  case_decide; try done; by rewrite decide_True by lia.
Qed.

Lemma len_calculatePower `{Float} (nI nQ : list num) :
  len (SignalProcessor.calculatePower (nI, nQ)) = len nI.
Proof.
  unfold SignalProcessor.calculatePower, for_to, FloatArray. cbv zeta.
  rewrite len_store_loop, len_replicate. pose proof (len_nonneg nI). lia.
Qed.

Lemma len_normalize_Q `{Float} (Is Qs : list byte) :
  len (SignalProcessor.normalize (Is, Qs)).2 = len Is.
Proof.
  unfold SignalProcessor.normalize, for_to, FloatArray. cbv zeta.
  rewrite foldl_pair. simpl. rewrite len_store_loop, len_replicate.
  pose proof (len_nonneg Is). lia.
Qed.

(** The Normalizer, over the reals: both outputs have the length of [I];
    a sample [b] becomes exactly [b - 128], between -128 and 127; where [Q]
    has no sample for an index of [I], the output holds NaN. *)
Theorem normalize_offset_128 (Is Qs : list byte) (i : Z) (b : byte) :
  Is.[i] = Some b →
  let '(nI, nQ) := SignalProcessor.normalize (H := RealFloat) (Is, Qs) in
  len nI = len Is ∧ len nQ = len Is ∧
  nI.[i] = Some (Real (IZR (byte_val b - 128))) ∧
  -128 ≤ byte_val b - 128 ≤ 127 ∧
  (∀ q, Qs.[i] = Some q → nQ.[i] = Some (Real (IZR (byte_val q - 128)))) ∧
  (Qs.[i] = None → nQ.[i] = Some NaN).
Proof.
  intros Hb.
  pose proof (normalize_read (H := RealFloat) Is Qs i) as [HI HQ].
  pose proof (len_normalize (H := RealFloat) Is Qs) as HlI.
  pose proof (len_normalize_Q (H := RealFloat) Is Qs) as HlQ.
  destruct (SignalProcessor.normalize (Is, Qs)) as [nI nQ]. simpl in *.
  pose proof (read_Some_lt _ _ _ Hb) as Hi. pose proof (byte_val_range b).
  rewrite decide_True in HI, HQ by done.
  split; [done|]. split; [done|]. split.
  { rewrite HI, Hb. simpl. by rewrite minus_IZR. }
  split; [lia|]. split.
  - intros q Hq. rewrite HQ, Hq. simpl. by rewrite minus_IZR.
  - intros Hq. by rewrite HQ, Hq.
Qed.

Lemma normalize_offset_128_witness :
  [x00; xff].[1] = Some xff ∧
  let '(nI, nQ) := SignalProcessor.normalize (H := RealFloat) ([x00; xff], [x80]) in
  nI.[1] = Some (Real (IZR 127)) ∧ nQ.[1] = Some NaN.
Proof.
  split; [reflexivity|].
  pose proof (normalize_offset_128 [x00; xff] [x80] 1 xff eq_refl) as Hn.
  destruct (SignalProcessor.normalize ([x00; xff], [x80])) as [nI nQ].
  destruct Hn as (_ & _ & HI & _ & _ & HQ). split; [exact HI|].
  apply HQ. reflexivity.
Defined.

(** The power of sample [i] of a capture, over the reals. *)
Lemma pipeline_power_read (file : list byte) (i : Z) (bi bq : byte) :
  file.[2 * i] = Some bi → file.[2 * i + 1] = Some bq → 0 ≤ i →
  (SignalProcessor.calculatePower (H := RealFloat)
     (SignalProcessor.normalize (SignalProcessor.readIq file))).[i]
  = Some (Real (IZR (sample_power bi bq))).
Proof.
  intros Hbi Hbq Hi.
  pose proof (readIq_spec file i) as Hraw.
  destruct (SignalProcessor.readIq file) as [Is Qs].
  destruct Hraw as (HlI & HlQ & HI & HQ).
  pose proof (read_Some_lt _ _ _ Hbq) as Hlt.
  assert (0 ≤ i < len file / 2) as Hin by (Z.div_mod_to_equations; lia).
  rewrite decide_True in HI, HQ by done. rewrite Hbi in HI. rewrite Hbq in HQ.
  pose proof (normalize_read (H := RealFloat) Is Qs i) as [HnI HnQ].
  pose proof (len_normalize (H := RealFloat) Is Qs) as Hlen.
  destruct (SignalProcessor.normalize (Is, Qs)) as [nI nQ]. simpl in HnI, HnQ, Hlen.
  rewrite (calculatePower_read (H := RealFloat)). cbn [num RealFloat] in *.
  rewrite Hlen, HlI, decide_True by done.
  rewrite HnI, HnQ, HlI, !decide_True, HI, HQ by done. simpl.
  unfold sample_power. rewrite plus_IZR, !mult_IZR, !minus_IZR. done.
Qed.

(** The Power Detector, over the reals: there is one power value per
    complete sample; the power of sample [i] is exactly
    [(I - 128)^2 + (Q - 128)^2], an integer from 0 to 32768, and it is 0
    only when both bytes are 128. *)
Theorem power_exact_nonnegative (file : list byte) (i : Z) (bi bq : byte) :
  file.[2 * i] = Some bi → file.[2 * i + 1] = Some bq → 0 ≤ i →
  let power := SignalProcessor.calculatePower (H := RealFloat)
                 (SignalProcessor.normalize (SignalProcessor.readIq file)) in
  len power = len file / 2 ∧
  power.[i] = Some (Real (IZR (sample_power bi bq))) ∧
  0 ≤ sample_power bi bq ≤ 32768 ∧
  (sample_power bi bq = 0 ↔ byte_val bi = 128 ∧ byte_val bq = 128).
Proof.
  intros Hbi Hbq Hi power. subst power. split; [|split; [|split]].
  - pose proof (readIq_spec file 0) as Hraw.
    destruct (SignalProcessor.readIq file) as [Is Qs]. destruct Hraw as (HlI & _).
    pose proof (len_normalize (H := RealFloat) Is Qs) as Hlen.
    destruct (SignalProcessor.normalize (Is, Qs)) as [nI nQ]. simpl in Hlen.
    rewrite (len_calculatePower (H := RealFloat)). cbn [num RealFloat] in *. lia.
  - by apply pipeline_power_read.
  - pose proof (byte_val_range bi). pose proof (byte_val_range bq).
    unfold sample_power.
    assert (∀ a, -128 ≤ a ≤ 127 → 0 ≤ a * a ≤ 16384) as Hsq.
    { intros a Ha. pose proof (Z.mul_nonneg_nonneg (a + 128) (127 - a)). nia. }
    pose proof (Hsq (byte_val bi - 128)). pose proof (Hsq (byte_val bq - 128)). lia.
  - unfold sample_power. split; [|intros [-> ->]; lia]. intros Hz.
    pose proof (Z.square_nonneg (byte_val bi - 128)) as Hi2.
    pose proof (Z.square_nonneg (byte_val bq - 128)) as Hq2.
    assert ((byte_val bi - 128) * (byte_val bi - 128) = 0) as Hi0 by lia.
    assert ((byte_val bq - 128) * (byte_val bq - 128) = 0) as Hq0 by lia.
    apply Z.eq_mul_0 in Hi0, Hq0. lia.
Qed.

Lemma power_exact_nonnegative_witness :
  ([x80; x80; x83; x7c].[2 * 1] = Some x83 ∧ [x80; x80; x83; x7c].[2 * 1 + 1] = Some x7c
   ∧ 0 ≤ 1) ∧
  (SignalProcessor.calculatePower (H := RealFloat)
     (SignalProcessor.normalize (SignalProcessor.readIq [x80; x80; x83; x7c]))).[1]
  = Some (Real (IZR 25)).
Proof.
  split; [repeat split; try reflexivity; lia|].
  destruct (power_exact_nonnegative [x80; x80; x83; x7c] 1 x83 x7c) as (_ & Hp & _);
    [reflexivity|reflexivity|lia|].
  exact Hp.
Defined.

Lemma read_fmap {A B} (f : A → B) (l : list A) (i : Z) : (f <$> l).[i] = f <$> l.[i].
Proof. unfold read. case_decide; [|done]. apply list_lookup_fmap. Qed.

Lemma read_zip_with {A B C} (f : A → B → C) (l : list A) (k : list B) (i : Z) :
  (zip_with f l k).[i] = (x ← l.[i]; y ← k.[i]; Some (f x y)).
Proof. unfold read. case_decide; [|done]. apply lookup_zip_with. Qed.

(** The activity mask, over the reals and for an integer threshold, is the
    mask computed in integers: sample [i] is active exactly when its integer
    power is strictly above the threshold, so a power equal to the threshold
    is inactive; the intervals are those of the integer mask. *)
Theorem mask_strict_integer (file : list byte) (threshold minLen : Z) :
  let mask := SignalProcessor.aboveThreshold (H := RealFloat)
                (SignalProcessor.calculatePower
                   (SignalProcessor.normalize (SignalProcessor.readIq file)))
                (of_Z threshold) in
  mask = integer_mask file threshold ∧
  len mask = len file / 2 ∧
  (∀ i bi bq, 0 ≤ i → file.[2 * i] = Some bi → file.[2 * i + 1] = Some bq →
     mask.[i] = Some (bool_decide (threshold < sample_power bi bq))) ∧
  SignalProcessor.findIntervals mask minLen
  = SignalProcessor.findIntervals (integer_mask file threshold) minLen.
Proof.
  intros mask.
  assert (∀ i bi bq, 0 ≤ i → file.[2 * i] = Some bi → file.[2 * i + 1] = Some bq →
            mask.[i] = Some (bool_decide (threshold < sample_power bi bq))) as Hact.
  { intros i bi bq Hi Hbi Hbq. subst mask. unfold SignalProcessor.aboveThreshold.
    rewrite read_fmap, (pipeline_power_read file i bi bq) by done. simpl. f_equal.
    unfold number_gtb, number_ltb. apply bool_decide_ext.
    split; [apply lt_IZR|apply IZR_lt]. }
  assert (len mask = len file / 2) as Hlen.
  { subst mask. unfold SignalProcessor.aboveThreshold. rewrite len_fmap.
    pose proof (readIq_spec file 0) as Hraw.
    destruct (SignalProcessor.readIq file) as [Is Qs]. destruct Hraw as (HlI & _).
    pose proof (len_normalize (H := RealFloat) Is Qs) as Hn.
    destruct (SignalProcessor.normalize (Is, Qs)) as [nI nQ]. simpl in Hn.
    rewrite (len_calculatePower (H := RealFloat)). cbn [num RealFloat] in *. lia. }
  assert (mask = integer_mask file threshold) as Heq.
  { apply list_eq_read. intros i. unfold integer_mask.
    pose proof (readIq_spec file i) as Hraw.
    destruct (SignalProcessor.readIq file) as [Is Qs].
    destruct Hraw as (_ & _ & HI & HQ). rewrite read_zip_with, HI, HQ.
    destruct (decide (0 ≤ i < len file / 2)) as [Hi|Hi].
    - destruct (read_is_Some file (2 * i)) as [bi Hbi];
        [Z.div_mod_to_equations; lia|].
      destruct (read_is_Some file (2 * i + 1)) as [bq Hbq];
        [Z.div_mod_to_equations; lia|].
      rewrite Hbi, Hbq. simpl. apply Hact; [lia|done|done].
    - simpl. apply read_None. lia. }
  split; [done|]. split; [done|]. split; [done|]. by rewrite Heq.
Qed.

Lemma mask_strict_integer_witness :
  (0 ≤ 1 ∧ [x80; x80; x83; x7c].[2 * 1] = Some x83 ∧
   [x80; x80; x83; x7c].[2 * 1 + 1] = Some x7c) ∧
  (SignalProcessor.aboveThreshold (H := RealFloat)
     (SignalProcessor.calculatePower
        (SignalProcessor.normalize (SignalProcessor.readIq [x80; x80; x83; x7c])))
     (of_Z 25)).[1] = Some false.
Proof.
  split; [repeat split; try reflexivity; lia|].
  destruct (mask_strict_integer [x80; x80; x83; x7c] 25 1) as (_ & _ & Hact & _).
  exact (Hact 1 x83 x7c ltac:(lia) eq_refl eq_refl).
Defined.

(** ** The Interval Extractor: which intervals are returned *)

(** Two runs that end at the same sample and cannot be extended to the left
    start at the same sample. *)
Lemma run_start_unique (mask : list bool) (s s' e : Z) :
  s ≤ e → s' ≤ e →
  (∀ i, s ≤ i ∧ i ≤ e → mask.[i] = Some true) →
  (∀ i, s' ≤ i ∧ i ≤ e → mask.[i] = Some true) →
  mask.[s - 1] ≠ Some true → mask.[s' - 1] ≠ Some true → s = s'.
Proof.
  intros Hs Hs' Hrun Hrun' Hleft Hleft'.
  destruct (Z.lt_trichotomy s s') as [Hlt|[Heq|Hgt]]; [|done|].
  - exfalso. apply Hleft'. apply Hrun. lia.
  - exfalso. apply Hleft. apply Hrun'. lia.
Qed.

(** The intervals returned are exactly the maximal runs of the mask that are
    at least [minLen] long: no run is missed, none is cut short or merged
    with another, and a single inactive sample ends a run. *)
Theorem findIntervals_exactly_maximal_runs (mask : list bool) (minLen : Z) (iv : Z * Z) :
  iv ∈ SignalProcessor.findIntervals mask minLen
  ↔ maximal_run mask iv ∧ minLen ≤ iv.2 - iv.1 + 1.
Proof.
  unfold SignalProcessor.findIntervals.
  set (closed := λ (k : Z) (iv : Z * Z),
    (0 ≤ iv.1 ∧ iv.1 ≤ iv.2 ∧ iv.2 + 1 < k) ∧
    (∀ i, iv.1 ≤ i ∧ i ≤ iv.2 → mask.[i] = Some true) ∧
    mask.[iv.1 - 1] ≠ Some true ∧ mask.[iv.2 + 1] = Some false ∧
    minLen ≤ iv.2 - iv.1 + 1).
  set (Inv := λ (k : Z) (s : list (Z * Z) * option Z),
    0 ≤ k ≤ len mask ∧
    (∀ iv, iv ∈ s.1 ↔ closed k iv) ∧
    match s.2 with
    | Some st =>
        0 ≤ st < k ∧ (∀ i, st ≤ i < k → mask.[i] = Some true) ∧
        mask.[st - 1] ≠ Some true
    | None => k = 0 ∨ mask.[k - 1] = Some false
    end).
  lazymatch goal with
  | |- context [forEach mask ?f ([], None)] =>
      assert (Inv (len mask) (forEach mask f ([], None))) as HInv
  end.
  { apply forEach_inv.
    - unfold Inv, closed; simpl. pose proof (len_nonneg mask).
      split; [lia|]. split; [|auto]. intros iv'. rewrite elem_of_nil. split; [done|].
      intros ((? & ? & ?) & _). lia.
    - intros k f [ivs start] Hf (Hk & Hivs & Hopen); simpl in *.
      pose proof (read_Some_lt _ _ _ Hf) as Hlt.
      assert (∀ iv', closed k iv' → closed (k + 1) iv') as Hmono.
      { intros iv' ((? & ? & ?) & ? & ? & ? & ?). unfold closed. repeat split; auto; lia. }
      assert (∀ iv', closed (k + 1) iv' → iv'.2 + 1 ≠ k → closed k iv') as Hback.
      { intros iv' ((? & ? & ?) & ? & ? & ? & ?) Hne. unfold closed.
        repeat split; auto; lia. }
      destruct start as [st|], f; simpl.
      + (* inside a run *)
        destruct Hopen as (Hst & Htrue & Hleft). split; [lia|]. split.
        * intros iv'. rewrite Hivs. split; [apply Hmono|]. intros Hc. apply Hback; [done|].
          intros He. destruct Hc as (_ & _ & _ & Hfalse & _).
          rewrite He, Hf in Hfalse. done.
        * split; [lia|]. split; [|done]. intros i Hi.
          destruct (decide (i = k)) as [->|]; [done|]. apply Htrue. lia.
      + (* the run from [st] ends at [k - 1] *)
        destruct Hopen as (Hst & Htrue & Hleft).
        assert (∀ iv', closed (k + 1) iv' → iv'.2 + 1 = k → iv' = (st, k - 1)) as Hlast.
        { intros [s e] ((? & ? & ?) & Hrun & Hl & _ & _) He. simpl in *.
          assert (s = st); [|f_equal; lia].
          apply (run_start_unique mask s st e); auto; try lia.
          intros i Hi. apply Htrue. lia. }
        split; [lia|]. split; [|right; by replace (k + 1 - 1) with k by lia].
        intros iv'. case_decide as Hlong; cbn [fst].
        * rewrite elem_of_app, list_elem_of_singleton, Hivs. split.
          -- intros [Hc | ->]; [by apply Hmono|]. unfold closed. simpl.
             replace (k - 1 + 1) with k by lia.
             repeat split; auto; try lia. intros i Hi. apply Htrue. lia.
          -- intros Hc. destruct (decide (iv'.2 + 1 = k)) as [He|He].
             ++ right. by apply Hlast.
             ++ left. by apply Hback.
        * rewrite Hivs. split; [apply Hmono|]. intros Hc. apply Hback; [done|].
          intros He. pose proof (Hlast _ Hc He) as ->.
          destruct Hc as (_ & _ & _ & _ & Hmin). simpl in Hmin. lia.
      + (* a run starts at [k] *)
        split; [lia|]. split.
        * intros iv'. rewrite Hivs. split; [apply Hmono|]. intros Hc. apply Hback; [done|].
          intros He. destruct Hc as (_ & _ & _ & Hfalse & _).
          rewrite He, Hf in Hfalse. done.
        * split; [lia|]. split; [intros i Hi; by replace i with k by lia|].
          destruct Hopen as [-> | Hfalse]; [|by rewrite Hfalse].
          rewrite read_None by lia. done.
      + (* outside a run *)
        split; [lia|]. split; [|right; by replace (k + 1 - 1) with k by lia].
        intros iv'. rewrite Hivs. split; [apply Hmono|]. intros Hc. apply Hback; [done|].
        intros He. destruct Hc as ((H0 & Hse & _) & Hrun & _).
        destruct Hopen as [-> | Hfalse]; [lia|].
        specialize (Hrun iv'.2 ltac:(lia)).
        replace (k - 1) with iv'.2 in Hfalse by lia. rewrite Hrun in Hfalse. done. }
  destruct (forEach mask _ _) as [ivs start].
  destruct HInv as (Hk & Hivs & Hopen); simpl in *.
  assert (∀ iv', closed (len mask) iv' → maximal_run mask iv' ∧ minLen ≤ iv'.2 - iv'.1 + 1)
    as Hclosed_max.
  { intros iv' ((? & ? & ?) & ? & ? & Hfalse & ?). unfold maximal_run.
    repeat split; auto; try lia. by rewrite Hfalse. }
  assert (∀ iv', maximal_run mask iv' → minLen ≤ iv'.2 - iv'.1 + 1 →
            iv'.2 + 1 < len mask → closed (len mask) iv') as Hmax_closed.
  { intros iv' ((? & ? & ?) & ? & ? & Hright) ? ?. unfold closed.
    repeat split; auto; try lia.
    destruct (read_is_Some mask (iv'.2 + 1)) as [[|] Hb]; [lia|done|done]. }
  destruct start as [st|].
  - destruct Hopen as (Hst & Htrue & Hleft).
    assert (∀ iv', maximal_run mask iv' → iv'.2 + 1 = len mask → iv' = (st, len mask - 1))
      as Hlast.
    { intros [s e] ((? & ? & ?) & Hrun & Hl & _) He. simpl in *.
      assert (s = st); [|f_equal; lia].
      apply (run_start_unique mask s st e); auto; try lia.
      intros i Hi. apply Htrue. lia. }
    assert (maximal_run mask (st, len mask - 1)) as Hmax.
    { unfold maximal_run. simpl. repeat split; auto; try lia.
      - intros i Hi. apply Htrue. lia.
      - rewrite read_None by lia. done. }
    case_decide as Hlong.
    + rewrite elem_of_app, list_elem_of_singleton, Hivs. split.
      * intros [Hc | ->]; [by apply Hclosed_max|]. split; [done|]. simpl. lia.
      * intros [Hm Hmin]. destruct Hm as ((H0 & Hse & He) & Hm').
        destruct (decide (iv.2 + 1 = len mask)) as [Hend|Hend].
        -- right. apply Hlast; [|done]. unfold maximal_run. auto.
        -- left. apply Hmax_closed; [unfold maximal_run; auto|done|lia].
    + rewrite Hivs. split; [apply Hclosed_max|].
      intros [Hm Hmin]. destruct Hm as ((H0 & Hse & He) & Hm').
      destruct (decide (iv.2 + 1 = len mask)) as [Hend|Hend].
      * assert (iv = (st, len mask - 1)) as ->
          by (apply Hlast; [unfold maximal_run; auto|done]).
        simpl in Hmin. lia.
      * apply Hmax_closed; [unfold maximal_run; auto|done|lia].
  - rewrite Hivs. split; [apply Hclosed_max|].
    intros [Hm Hmin]. destruct Hm as ((H0 & Hse & He) & Hrun & Hm').
    apply Hmax_closed; [unfold maximal_run; auto|done|].
    destruct (decide (iv.2 + 1 = len mask)) as [Hend|Hend]; [|lia].
    destruct Hopen as [Hz | Hfalse]; [lia|].
    specialize (Hrun iv.2 ltac:(lia)).
    replace (len mask - 1) with iv.2 in Hfalse by lia. rewrite Hrun in Hfalse. done.
Qed.

(** The minimum length only filters: the intervals for a larger minimum are
    those for a smaller one that are long enough, in the same order. *)
Theorem findIntervals_minLen_filters (mask : list bool) (minLen minLen' : Z) :
  minLen' ≤ minLen →
  SignalProcessor.findIntervals mask minLen
  = filter (λ iv, minLen ≤ iv.2 - iv.1 + 1) (SignalProcessor.findIntervals mask minLen').
Proof.
  intros Hle. unfold SignalProcessor.findIntervals, forEach.
  set (P := λ iv : Z * Z, minLen ≤ iv.2 - iv.1 + 1).
  set (R := λ (s t : list (Z * Z) * option Z), s.1 = filter P t.1 ∧ s.2 = t.2).
  lazymatch goal with
  | |- (let '(_, _) := forEach_from 0 mask ?f _ in _)
       = filter _ (let '(_, _) := forEach_from 0 mask ?g _ in _) =>
      assert (R (forEach_from 0 mask f ([], None)) (forEach_from 0 mask g ([], None)))
        as HR
  end.
  { apply forEach_from_rel; [|done].
    intros [ivs st] [ivs' st'] f i [Hivs Hst]; simpl in *; subst ivs st'.
    destruct st as [st|], f; unfold R; simpl; auto.
    destruct (decide (minLen ≤ i - st)) as [Hlong|Hshort].
    - rewrite decide_True by lia. simpl. rewrite filter_app. split; [|done].
      f_equal. rewrite filter_cons_True by (unfold P; simpl; lia). done.
    - split; [|done]. case_decide; simpl; [|done].
      rewrite filter_app, filter_cons_False by (unfold P; simpl; lia).
      by rewrite filter_nil, app_nil_r. }
  destruct (forEach_from 0 mask _ _) as [ivs st].
  destruct (forEach_from 0 mask _ _) as [ivs' st'].
  destruct HR as [Hivs Hst]; simpl in *; subst ivs st'.
  destruct st as [st|]; [|done].
  destruct (decide (minLen ≤ len mask - st)) as [Hlong|Hshort].
  - rewrite decide_True by lia. rewrite filter_app.
    f_equal. rewrite filter_cons_True by (unfold P; simpl; lia). done.
  - case_decide; [|done].
    rewrite filter_app, filter_cons_False by (unfold P; simpl; lia).
    by rewrite filter_nil, app_nil_r.
Qed.

Lemma findIntervals_minLen_filters_witness :
  0 ≤ 3 ∧
  SignalProcessor.findIntervals mask13 3
  = filter (λ iv, 3 ≤ iv.2 - iv.1 + 1) (SignalProcessor.findIntervals mask13 0).
Proof.
  split; [lia|]. apply (findIntervals_minLen_filters mask13 3 0). lia.
Defined.

(** ** The Phase Demodulator on a capture *)

(** The phase of sample [i] of a capture, over the reals. *)
Lemma pipeline_phase_read (file : list byte) (i : Z) (bi bq : byte) :
  file.[2 * i] = Some bi → file.[2 * i + 1] = Some bq → 0 ≤ i →
  (SignalProcessor.computePhases (H := RealFloat)
     (SignalProcessor.normalize (SignalProcessor.readIq file))).[i]
  = Some (number_atan2 (Real (IZR (byte_val bq - 128))) (Real (IZR (byte_val bi - 128)))).
Proof.
  intros Hbi Hbq Hi.
  pose proof (readIq_spec file i) as Hraw.
  destruct (SignalProcessor.readIq file) as [Is Qs].
  destruct Hraw as (HlI & HlQ & HI & HQ).
  pose proof (read_Some_lt _ _ _ Hbq) as Hlt.
  assert (0 ≤ i < len file / 2) as Hin by (Z.div_mod_to_equations; lia).
  rewrite decide_True in HI, HQ by done. rewrite Hbi in HI. rewrite Hbq in HQ.
  pose proof (normalize_read (H := RealFloat) Is Qs i) as [HnI HnQ].
  pose proof (len_normalize (H := RealFloat) Is Qs) as Hlen.
  destruct (SignalProcessor.normalize (Is, Qs)) as [nI nQ]. simpl in HnI, HnQ, Hlen.
  rewrite (computePhases_read (H := RealFloat)). cbn [num RealFloat] in *.
  rewrite Hlen, HlI, decide_True by done.
  rewrite HnI, HnQ, HlI, !decide_True, HI, HQ by done. simpl val.
  cbn [of_byte of_Z sub fround RealFloat number_lift atan2].
  by rewrite <- !minus_IZR.
Qed.

Lemma len_computePhases `{Float} (nI nQ : list num) :
  len (SignalProcessor.computePhases (nI, nQ)) = len nI.
Proof.
  unfold SignalProcessor.computePhases, for_to, FloatArray. cbv zeta.
  rewrite len_store_loop, len_replicate. pose proof (len_nonneg nI). lia.
Qed.

(** A normalized sample is a finite number. *)
Lemma normalized_sample_finite (b : byte) :
  ∃ m e, IEEE.fround (IEEE.sub (IEEE.of_Z (Z.of_N (Byte.to_N b))) (IEEE.of_Z 128))
         = IEEE.Fin m e.
Proof. destruct b; vm_compute; eauto. Qed.

(** On every capture, whatever [Math.atan2] is as long as its results for
    numbers are finite and within [Math.PI] of 0: there is one phase and
    one phase difference per complete sample; every phase lies within
    [Math.PI] of 0, and every phase difference stored, by either
    demodulator, within [fround(Math.PI)] = 13176795 / 2^22 of 0. *)
Theorem capture_phases_and_differences_in_range
    (math_atan2 : IEEE.double → IEEE.double → IEEE.double) (file : list byte) :
  (∀ y x, y ≠ IEEE.Nan → x ≠ IEEE.Nan → IEEE.within IEEE.PI (math_atan2 y x)) →
  let phases := SignalProcessor.computePhases (H := IEEEFloat math_atan2)
                  (SignalProcessor.normalize (H := IEEEFloat math_atan2)
                     (SignalProcessor.readIq file)) in
  len phases = len file / 2 ∧
  len (SignalProcessor.computeDiffs (H := IEEEFloat math_atan2) phases) = len file / 2 ∧
  Forall (IEEE.within IEEE.PI) phases ∧
  Forall (IEEE.within (IEEE.Fin 13176795 (-22)))
    (SignalProcessor.computeDiffs (H := IEEEFloat math_atan2) phases) ∧
  Forall (IEEE.within (IEEE.Fin 13176795 (-22)))
    (computePhaseDiff (H := IEEEFloat math_atan2) phases) ∧
  (IEEE.value (IEEE.Fin 13176795 (-22)) = 13176795 / 4194304)%R.
Proof.
  intros Hatan2 phases.
  assert (len phases = len file / 2 ∧ Forall (IEEE.within IEEE.PI) phases)
    as [Hlen Hphases].
  { subst phases. pose proof (λ i, readIq_spec file i) as Hraw.
    destruct (SignalProcessor.readIq file) as [Is Qs].
    pose proof (λ i, normalize_read (H := IEEEFloat math_atan2) Is Qs i) as Hnorm.
    pose proof (len_normalize (H := IEEEFloat math_atan2) Is Qs) as Hn.
    destruct (SignalProcessor.normalize (Is, Qs)) as [nI nQ]. simpl in Hnorm, Hn.
    destruct (Hraw 0) as (HlI & HlQ & _).
    split.
    { rewrite (len_computePhases (H := IEEEFloat math_atan2)). cbn [num IEEEFloat] in *. lia. }
    apply Forall_lookup. intros k x Hk.
    assert ((SignalProcessor.computePhases (H := IEEEFloat math_atan2) (nI, nQ)).[Z.of_nat k]
            = Some x) as Hx
      by (unfold read; rewrite decide_True by lia; by rewrite Nat2Z.id).
    rewrite (computePhases_read (H := IEEEFloat math_atan2)) in Hx.
    cbn [num IEEEFloat] in *. rewrite Hn in Hx. case_decide as Hin; [|done]. injection Hx as <-.
    destruct (Hnorm (Z.of_nat k)) as [-> ->]. rewrite !decide_True by done.
    destruct (read_is_Some Is (Z.of_nat k)) as [bi ->]; [lia|].
    destruct (read_is_Some Qs (Z.of_nat k)) as [bq ->]; [lia|].
    cbn [val default atan2 fround sub of_Z of_byte IEEEFloat].
    destruct (normalized_sample_finite bi) as (mi & ei & ->).
    destruct (normalized_sample_finite bq) as (mq & eq & ->).
    by apply Hatan2. }
  assert (Forall (IEEE.within (IEEE.Fin 13176795 (-22)))
            (SignalProcessor.computeDiffs (H := IEEEFloat math_atan2) phases)) as Hdiffs.
  { apply Forall_lookup. intros k x Hk.
    assert ((SignalProcessor.computeDiffs (H := IEEEFloat math_atan2) phases).[Z.of_nat k]
            = Some x) as Hx
      by (unfold read; rewrite decide_True by lia; by rewrite Nat2Z.id).
    pose proof (read_Some_lt _ _ _ Hx) as Hlt.
    rewrite (len_computeDiffs (H := IEEEFloat math_atan2)) in Hlt.
    destruct (decide (1 ≤ Z.of_nat k)) as [H1|H0].
    - destruct (read_is_Some phases (Z.of_nat k)) as [p Hp]; [done|].
      destruct (read_is_Some phases (Z.of_nat k - 1)) as [q Hq]; [lia|].
      assert (∀ j y, phases.[j] = Some y → IEEE.within IEEE.PI y) as Hin.
      { intros j y Hj. unfold read in Hj. case_decide; [|done].
        rewrite Forall_lookup in Hphases. exact (Hphases _ _ Hj). }
      destruct (wrap_double p q (Hin _ _ Hp) (Hin _ _ Hq)) as (Hcode & _ & Hstored).
      rewrite fround_PI in Hstored.
      rewrite (computeDiffs_read (H := IEEEFloat math_atan2)) in Hx.
      cbn [num IEEEFloat] in Hx, Hp, Hq.
      rewrite decide_True in Hx by done. rewrite decide_True in Hx by done.
      rewrite Hp, Hq in Hx. cbn [val default] in Hx.
      cbn [sub add mul neg gtb ltb of_Z fround PI IEEEFloat] in Hx.
      match type of Hstored with
      | IEEE.within _ ?t =>
          assert (x = t) as -> by (injection Hx as <-; f_equal; exact Hcode)
      end.
      exact Hstored.
    - rewrite (computeDiffs_read (H := IEEEFloat math_atan2)) in Hx.
      cbn [num IEEEFloat] in Hx.
      rewrite decide_True in Hx by done. rewrite decide_False in Hx by done.
      injection Hx as <-. change (IEEE.of_Z 0) with (IEEE.Fin 0 0).
      unfold IEEE.within, IEEE.value. apply Rabs_le_iff.
      pose proof (pow2_pos (-22)). lra. }
  split; [done|].
  split; [by rewrite (len_computeDiffs (H := IEEEFloat math_atan2))|].
  split; [done|]. split; [done|].
  split; [by rewrite (computePhaseDiff_computeDiffs (H := IEEEFloat math_atan2))|].
  unfold IEEE.value. simpl. lra.
Qed.

Lemma capture_phases_and_differences_in_range_witness :
  (∀ y x, y ≠ IEEE.Nan → x ≠ IEEE.Nan → IEEE.within IEEE.PI (atan2_of_zero y x)) ∧
  Forall (IEEE.within (IEEE.Fin 13176795 (-22)))
    (SignalProcessor.computeDiffs (H := IEEEFloat atan2_of_zero)
       (SignalProcessor.computePhases (H := IEEEFloat atan2_of_zero)
          (SignalProcessor.normalize (H := IEEEFloat atan2_of_zero)
             (SignalProcessor.readIq [x00; x80; xff; x80])))).
Proof.
  assert (∀ y x, y ≠ IEEE.Nan → x ≠ IEEE.Nan →
            IEEE.within IEEE.PI (atan2_of_zero y x)) as Hatan2.
  { intros y x _ Hx. unfold atan2_of_zero.
    destruct x as [m e|s|]; [| |done];
      destruct (IEEE.ltb _ _); first [exact within_PI_PI|exact within_PI_0]. }
  split; [exact Hatan2|].
  exact (proj1 (proj2 (proj2 (proj2
    (capture_phases_and_differences_in_range atan2_of_zero [x00; x80; xff; x80] Hatan2))))).
Defined.

(** ** The Bit Slicer: composition and the shape of its output *)

Lemma read_app {A} (a b : list A) (i : Z) :
  (a ++ b).[i] = if decide (i < len a) then a.[i] else b.[i - len a].
Proof.
  unfold read, len. destruct (decide (0 ≤ i)) as [Hi|Hi].
  - destruct (decide (i < Z.of_nat (length a))) as [Hlt|Hge].
    + rewrite lookup_app_l by lia. done.
    + rewrite lookup_app_r by lia. rewrite decide_True by lia. f_equal. lia.
  - case_decide; [done|]. rewrite decide_False by lia. done.
Qed.

(** Cutting an interval at a symbol boundary cuts the bit string: the bits
    of the whole interval are the bits of the first [m] symbol periods
    followed by the bits of the rest. *)
Theorem decodeBits_split_at_symbol_boundary `{Float} (diffs : list num)
    (start end_ w m : Z) :
  1 ≤ w → 0 ≤ m → start + m * w ≤ end_ + 1 →
  ∃ bits1 bits2 : list string,
    SignalProcessor.decodeBits diffs (start, start + m * w - 1) w = Some bits1 ∧
    SignalProcessor.decodeBits diffs (start + m * w, end_) w = Some bits2 ∧
    len bits1 = m ∧
    SignalProcessor.decodeBits diffs (start, end_) w = Some (bits1 ++ bits2).
Proof.
  intros Hw Hm Hcut. rewrite !decodeBits_closed by lia.
  eexists _, _. split; [reflexivity|]. split; [reflexivity|].
  assert ((start + m * w - 1 - start + 1) / w = m) as H1.
  { replace (start + m * w - 1 - start + 1) with (m * w) by lia. apply Z.div_mul. lia. }
  assert ((end_ - (start + m * w) + 1) / w = (end_ - start + 1) / w - m) as H2.
  { replace (end_ - (start + m * w) + 1) with (end_ - start + 1 + (- m) * w) by lia.
    rewrite Z.div_add by lia. lia. }
  assert (m ≤ (end_ - start + 1) / w) as Hmn.
  { apply Z.div_le_lower_bound; lia. }
  rewrite H1, H2. split; [by rewrite len_fmap, len_seqZ|].
  f_equal. apply list_eq_read. intros s.
  rewrite read_app, len_fmap, len_seqZ, !read_fmap_seqZ by lia.
  destruct (decide (s < m)).
  - destruct (decide (0 ≤ s < m)); [by rewrite decide_True by lia|].
    by rewrite decide_False by lia.
  - destruct (decide (0 ≤ s < (end_ - start + 1) / w)).
    + rewrite decide_True by lia.
      replace (start + m * w + (s - m) * w) with (start + s * w) by lia. done.
    + by rewrite decide_False by lia.
Qed.

Lemma decodeBits_split_at_symbol_boundary_witness :
  (1 ≤ 2 ∧ 0 ≤ 1 ∧ 1 + 1 * 2 ≤ 5 + 1) ∧
  ∃ bits1 bits2 : list string,
    SignalProcessor.decodeBits (H := RealFloat)
      [of_Z 0; of_Z 1; of_Z 2; of_Z (-3); of_Z 1; of_Z 4] (1, 1 + 1 * 2 - 1) 2
    = Some bits1 ∧
    SignalProcessor.decodeBits (H := RealFloat)
      [of_Z 0; of_Z 1; of_Z 2; of_Z (-3); of_Z 1; of_Z 4] (1 + 1 * 2, 5) 2 = Some bits2 ∧
    len bits1 = 1 ∧
    SignalProcessor.decodeBits (H := RealFloat)
      [of_Z 0; of_Z 1; of_Z 2; of_Z (-3); of_Z 1; of_Z 4] (1, 5) 2
    = Some (bits1 ++ bits2).
Proof.
  split; [lia|].
  apply (decodeBits_split_at_symbol_boundary (H := RealFloat)
           [of_Z 0; of_Z 1; of_Z 2; of_Z (-3); of_Z 1; of_Z 4] 1 5 2 1); lia.
Defined.

(** Whatever the width, the bits returned are the strings "0" and "1". *)
Lemma decodeBits_bits `{Float} (diffs : list num) (iv : Z * Z) (w : Z) (bits : list string) :
  SignalProcessor.decodeBits diffs iv w = Some bits →
  Forall (λ b, b = "0"%string ∨ b = "1"%string) bits.
Proof.
  destruct iv as [start end_]. unfold SignalProcessor.decodeBits. cbv zeta.
  destruct (floor_div _ _); simpl; intros Hb; simplify_eq; try by constructor.
  unfold for_to. rewrite foldl_snoc_fmap. simpl. apply Forall_fmap, Forall_true.
  intros s. simpl. destruct (gtb _ _); auto.
Qed.

(** Joining bits gives a bit string with one character per bit. *)
Lemma concat_bits (bits : list string) :
  Forall (λ b, b = "0"%string ∨ b = "1"%string) bits →
  slen (String.concat "" bits) = len bits ∧ bit_string (String.concat "" bits).
Proof.
  induction 1 as [|b bits Hb Hbits [IHlen IHbits]]; [done|].
  assert (String.concat "" (b :: bits) = (b ++ String.concat "" bits)%string) as ->.
  { destruct bits as [|b' bits]; [by rewrite string_app_nil_r|done]. }
  rewrite slen_app, IHlen, bit_string_app. unfold len. simpl length.
  destruct Hb as [-> | ->]; (split; [unfold slen; simpl; lia|]); simpl; auto.
Qed.

Lemma Set_add_NoDup (set : list string) (x : string) :
  NoDup set → NoDup (Set_add set x).
Proof.
  intros Hnd. unfold Set_add. case_decide; [done|].
  apply NoDup_app. split; [done|]. split; [|apply NoDup_singleton].
  intros y Hy ->%list_elem_of_singleton. done.
Qed.

Lemma Set_add_length (set : list string) (x : string) :
  (length set ≤ length (Set_add set x) ≤ S (length set))%nat.
Proof. unfold Set_add. case_decide; [lia|]. rewrite length_app. simpl. lia. Qed.

(** An invariant of the loop over the intervals: [P] holds of the set and
    of the number of intervals seen when it is kept by adding a bit string of
    64 characters and by leaving the set as it is. *)
Lemma extract_loop_inv `{Float} (diffs : list num) (samplesPerBit : Z)
    (P : list string → nat → Prop) :
  (∀ seqs n s, P seqs n → slen s = 64 → bit_string s → P (Set_add seqs s) (S n)) →
  (∀ seqs n, P seqs n → P seqs (S n)) →
  ∀ (ivs : list (Z * Z)) (seqs : list string) (n : nat) (r : list string),
    P seqs n →
    foldl (λ sequences interval,
      sequences ← sequences;
      bits ← SignalProcessor.decodeBits diffs interval samplesPerBit;
      Some (if decide (len bits = PREAMBLE_LENGTH + SYNC_WORD_LENGTH + DEVICE_ID_LENGTH
                                  + COMMAND_LENGTH + BATTERY_LENGTH)
            then Set_add sequences (String.concat "" bits)
            else sequences)) (Some seqs) ivs = Some r →
    P r (n + length ivs)%nat.
Proof.
  intros Hadd Hskip ivs. induction ivs as [|iv ivs IH]; intros seqs n r HP Hr.
  - simpl in Hr. simplify_eq. by rewrite Nat.add_0_r.
  - cbn [foldl] in Hr. cbv beta in Hr.
    destruct (SignalProcessor.decodeBits diffs iv samplesPerBit) as [bits|] eqn:Hbits.
    + replace (n + length (iv :: ivs))%nat with (S n + length ivs)%nat by (simpl; lia).
      simpl in Hr. eapply IH; [|exact Hr].
      case_decide as Hlen; [|by apply Hskip].
      destruct (concat_bits bits (decodeBits_bits _ _ _ _ Hbits)) as [Hl Hb].
      apply Hadd; [done| |done]. rewrite Hl, Hlen. reflexivity.
    + exfalso. simpl in Hr. clear -Hr.
      induction ivs as [|iv' ivs IH]; [done|]. exact (IH Hr).
Qed.

(** What the extraction returns: strings without repetition, each a bit
    string of exactly 64 characters (shorter and longer ones are left out),
    at most one per interval; the batch pipeline returns the same. *)
Theorem extractSequences_unique_64_bit_strings `{Float} (file : list byte)
    (threshold : num) (minLen samplesPerBit : Z) (sequences : list string) :
  SignalProcessor.extractSequences file threshold minLen samplesPerBit = Some sequences →
  NoDup sequences ∧
  Forall (λ s, slen s = 64 ∧ bit_string s) sequences ∧
  (length sequences ≤
   length (SignalProcessor.findIntervals
             (SignalProcessor.aboveThreshold
                (SignalProcessor.calculatePower
                   (SignalProcessor.normalize (SignalProcessor.readIq file)))
                threshold) minLen))%nat ∧
  extractUnique64BitSequences file threshold minLen samplesPerBit = Some sequences.
Proof.
  intros Hex. rewrite extract_equiv. split; [|split; [|split; [|done]]];
    revert Hex; unfold SignalProcessor.extractSequences; cbv zeta;
    (case_decide; [intros; simplify_eq; first [constructor | simpl; lia]|]);
    intros Hr.
  - apply (extract_loop_inv _ _ (λ seqs _, NoDup seqs)) with (n := 0%nat) in Hr;
      [done| | |constructor]; [|done].
    intros seqs n s Hnd _ _. by apply Set_add_NoDup.
  - apply (extract_loop_inv _ _ (λ seqs _, Forall (λ s, slen s = 64 ∧ bit_string s) seqs))
      with (n := 0%nat) in Hr; [done| | |constructor]; [|done].
    intros seqs n s Hall Hl Hb. unfold Set_add. case_decide; [done|].
    apply Forall_app. split; [done|]. by apply Forall_singleton.
  - apply (extract_loop_inv _ _ (λ seqs n, (length seqs ≤ n)%nat)) with (n := 0%nat) in Hr;
      [done| |auto|simpl; lia].
    intros seqs n s Hle _ _. pose proof (Set_add_length seqs s). lia.
Qed.

(** ** The Frame Parser: [binToHex] on any bit string *)

Lemma slen_repeat_char (n : nat) (c : ascii) : slen (repeat_char n c) = Z.of_nat n.
Proof. induction n as [|n IH]; [done|]. simpl repeat_char. rewrite slen_cons, IH. lia. Qed.

Lemma bit_string_repeat_0 (n : nat) : bit_string (repeat_char n "0").
Proof. induction n as [|n IH]; simpl; auto. Qed.

Lemma Qceiling_div4 (n : Z) : Qceiling (inject_Z n / 4) = (n + 3) / 4.
Proof.
  unfold Qceiling, Qfloor, Qopp, Qdiv, Qmult, Qinv, inject_Z; simpl.
  replace (- (n * 1)) with (- n) by lia. Z.div_mod_to_equations. lia.
Qed.

(** [binToHex] runs its chunk loop on the padded string. *)
Lemma binToHex_padded (b : string) :
  FrameParser.binToHex b
  = hex_of_nibbles (padStart b ((slen b + 3) / 4 * 4) "0") ∧
  slen (padStart b ((slen b + 3) / 4 * 4) "0") = 4 * ((slen b + 3) / 4).
Proof.
  pose proof (slen_nonneg b) as Hn.
  assert (slen (padStart b ((slen b + 3) / 4 * 4) "0") = 4 * ((slen b + 3) / 4)) as Hlen.
  { unfold padStart. rewrite slen_app, slen_repeat_char.
    Z.div_mod_to_equations. lia. }
  split; [|done].
  unfold FrameParser.binToHex. cbv zeta. rewrite Qceiling_div4.
  set (b' := padStart b _ _) in *. unfold for_step.
  rewrite Hlen, Z.sub_0_r, Qceiling_quarter.
  assert (0 ≤ (slen b + 3) / 4) as Hk by (Z.div_mod_to_equations; lia).
  replace ((slen b + 3) / 4) with (Z.of_nat (Z.to_nat ((slen b + 3) / 4))) at 1 by lia.
  apply (chunk_loop_nibbles (Z.to_nat ((slen b + 3) / 4)) "" b' 0); [reflexivity|lia].
Qed.

(** For a bit string of any length [n], [binToHex] returns [ceil(n / 4)]
    hexadecimal digits, and these stand for exactly the bits padded on the
    left with zeros to a multiple of four; nothing is returned for the empty
    string. *)
Theorem binToHex_pads_left_round_trip (b : string) :
  bit_string b →
  slen (FrameParser.binToHex b) = (slen b + 3) / 4 ∧
  hexToBin (FrameParser.binToHex b) = padStart b ((slen b + 3) / 4 * 4) "0" ∧
  (b = ""%string → FrameParser.binToHex b = ""%string).
Proof.
  intros Hbits. pose proof (slen_nonneg b) as Hn.
  destruct (binToHex_padded b) as [-> Hlen].
  assert (0 ≤ (slen b + 3) / 4) as Hk by (Z.div_mod_to_equations; lia).
  destruct (hex_of_nibbles_roundtrip (Z.to_nat ((slen b + 3) / 4))
              (padStart b ((slen b + 3) / 4 * 4) "0")) as [Hl Hback].
  - rewrite Hlen. lia.
  - unfold padStart. apply bit_string_app. split; [apply bit_string_repeat_0|done].
  - split; [rewrite Hl; lia|]. split; [done|]. by intros ->.
Qed.

Lemma binToHex_pads_left_round_trip_witness :
  bit_string "101101" ∧
  slen (FrameParser.binToHex "101101") = 2 ∧
  hexToBin (FrameParser.binToHex "101101") = "00101101"%string.
Proof.
  assert (bit_string "101101") as Hbits by (simpl; tauto).
  split; [exact Hbits|].
  destruct (binToHex_pads_left_round_trip "101101" Hbits) as (Hl & Hback & _).
  split; [exact Hl|exact Hback].
Defined.

(** ** The Frame Parser: what it reads of a frame *)

Lemma substring_app_l (s t : string) : ∀ n m : nat,
  (n + m ≤ String.length s)%nat → substring n m (s ++ t) = substring n m s.
Proof.
  induction s as [|c s IH]; intros n m Hnm.
  - simpl in Hnm. replace n with 0%nat by lia. replace m with 0%nat by lia.
    by destruct t.
  - rewrite append_cons. destruct n as [|n]; destruct m as [|m]; simpl; try done.
    + f_equal. apply IH. simpl in Hnm. lia.
    + apply IH. simpl in Hnm. lia.
    + apply IH. simpl in Hnm. lia.
Qed.

Lemma substring_beyond (s : string) : ∀ n m : nat,
  (String.length s ≤ n)%nat → substring n m s = ""%string.
Proof.
  induction s as [|c s IH]; intros n m Hn.
  - by destruct n, m.
  - destruct n as [|n]; simpl in *; [lia|]. apply IH. lia.
Qed.

Lemma substring_none (s : string) : ∀ n : nat, substring n 0 s = ""%string.
Proof. induction s as [|c s IH]; intros [|n]; simpl; auto. Qed.

(** A slice that ends inside [s] is not changed by what follows [s]. *)
Lemma slice_app_l (s t : string) (a b : Z) :
  0 ≤ a → 0 ≤ b ≤ slen s → slice (s ++ t) a b = slice s a b.
Proof.
  intros Ha Hb. unfold slice. rewrite slen_app. pose proof (slen_nonneg t).
  rewrite !decide_False by lia.
  replace (Z.min b (slen s + slen t)) with (Z.min b (slen s)) by lia.
  destruct (decide (a ≤ b)) as [Hab|Hab].
  - replace (Z.min a (slen s + slen t)) with (Z.min a (slen s)) by lia.
    apply substring_app_l. unfold slen in *. lia.
  - replace (Z.to_nat (Z.min b (slen s) - Z.min a (slen s + slen t))) with 0%nat by lia.
    replace (Z.to_nat (Z.min b (slen s) - Z.min a (slen s))) with 0%nat by lia.
    by rewrite !substring_none.
Qed.

(** A slice that starts at or after the end of the string is empty. *)
Lemma slice_beyond (s : string) (a b : Z) :
  slen s ≤ a → 0 ≤ b → slice s a b = ""%string.
Proof.
  intros Ha Hb. unfold slice. pose proof (slen_nonneg s).
  rewrite !decide_False by lia. apply substring_beyond. unfold slen in *. lia.
Qed.

Lemma parse_app_tail (frame tail : string) :
  64 ≤ slen frame → FrameParser.parse (frame ++ tail) = FrameParser.parse frame.
Proof.
  intros Hlen. unfold FrameParser.parse. cbv zeta.
  rewrite !(slice_app_l frame tail)
    by (unfold PREAMBLE_LENGTH, SYNC_WORD_LENGTH, DEVICE_ID_LENGTH, COMMAND_LENGTH,
          BATTERY_LENGTH; lia).
  done.
Qed.

(** [parse] reads the characters 24 to 63 only: a frame with another
    preamble, or with anything after the 64th character, is parsed the
    same. *)
Theorem parse_reads_fields_only (pre pre' fields tail : string) :
  slen pre = 24 → slen pre' = 24 → slen fields = 40 →
  FrameParser.parse (pre ++ fields ++ tail) = FrameParser.parse (pre' ++ fields).
Proof.
  intros Hpre Hpre' Hf.
  rewrite <- string_app_assoc, parse_app_tail by (rewrite slen_app; lia).
  destruct (string_split_Z 16 fields) as (sy & r2 & -> & Hsy & H2); [lia|].
  rewrite slen_app in Hf.
  destruct (string_split_Z 20 r2) as (id & r3 & -> & Hid & H3); [lia|].
  rewrite slen_app in Hf.
  destruct (string_split_Z 3 r3) as (cmd & bat & -> & Hcmd & H4); [lia|].
  rewrite slen_app in Hf.
  assert (slen bat = 1) as Hbat by lia.
  by rewrite !parse_fields.
Qed.

Lemma parse_reads_fields_only_witness :
  (slen "101010101010101010101010" = 24 ∧ slen "000000000000000000000000" = 24 ∧
   slen "0010110111010100000000000000000000010011" = 40) ∧
  FrameParser.parse ("101010101010101010101010"
                     ++ "0010110111010100000000000000000000010011" ++ "1111")
  = FrameParser.parse ("000000000000000000000000"
                       ++ "0010110111010100000000000000000000010011").
Proof.
  split; [repeat split; reflexivity|].
  apply (parse_reads_fields_only "101010101010101010101010" "000000000000000000000000"
           "0010110111010100000000000000000000010011" "1111"); reflexivity.
Defined.

(** A frame too short to hold a sync field is still parsed: the sync field
    is empty, the device id is "0x" with no digit, and the command and the
    battery are UNKNOWN. *)
Theorem parse_short_frame (frame : string) :
  slen frame ≤ 24 →
  FrameParser.parse frame
  = {| sync := ""; deviceId := "0x"; command := "UNKNOWN"; battery := "UNKNOWN" |}%string.
Proof.
  intros Hlen. unfold FrameParser.parse. cbv zeta.
  rewrite !(slice_beyond frame)
    by (unfold PREAMBLE_LENGTH, SYNC_WORD_LENGTH, DEVICE_ID_LENGTH, COMMAND_LENGTH,
          BATTERY_LENGTH; lia).
  reflexivity.
Qed.

Lemma parse_short_frame_witness :
  slen "10101" ≤ 24 ∧
  FrameParser.parse "10101"
  = {| sync := ""; deviceId := "0x"; command := "UNKNOWN"; battery := "UNKNOWN" |}%string.
Proof.
  split; [unfold slen; simpl; lia|]. apply parse_short_frame. unfold slen; simpl; lia.
Defined.

(** ** Publication *)

(** The three messages for a device seen for the first time, and the one
    message for a device already announced. *)
Lemma processFrame_sent (w : world) (frameBits : string) :
  sync (FrameParser.parse frameBits) = SYNC_WORD →
  let f := FrameParser.parse frameBits in
  let state :=
    {| topic := "rtl_433/" ++ deviceId f;
       body := State (bool_decide (command f = "OPEN"%string))
                     (bool_decide (battery f = "LOW"%string));
       retain := false |}%string in
  (deviceId f ∈ discovered w →
   sent (processFrame w frameBits) = sent w ++ [state] ∧
   discovered (processFrame w frameBits) = discovered w) ∧
  (deviceId f ∉ discovered w →
   sent (processFrame w frameBits)
   = sent w ++
     [ {| topic := "homeassistant/binary_sensor/" ++ deviceId f ++ "/contact/config";
          body := ContactConfig (deviceId f); retain := true |};
       {| topic := "homeassistant/binary_sensor/" ++ deviceId f ++ "/battery_low/config";
          body := BatteryConfig (deviceId f); retain := true |};
       state ]%string ∧
   discovered (processFrame w frameBits) = discovered w ++ [deviceId f]).
Proof.
  intros Hsync f state. unfold processFrame. fold f.
  rewrite decide_False by (intros ?; done). cbv zeta. split; intros Hd.
  - rewrite decide_True by done. done.
  - rewrite decide_False by done. simpl. unfold Set_add.
    rewrite decide_False by done. split; [|done].
    rewrite <- !(assoc_L (++)). done.
Qed.

(** A frame with the sync word, from a device not yet announced: the two
    retained discovery configurations of the device are published, then its
    state, not retained; the device is recorded as announced and a line is
    printed. *)
Lemma processFrame_first_sighting (w : world) (frameBits : string) :
  sync (FrameParser.parse frameBits) = SYNC_WORD →
  deviceId (FrameParser.parse frameBits) ∉ discovered w →
  let f := FrameParser.parse frameBits in
  sent (processFrame w frameBits)
  = sent w ++
    [ {| topic := "homeassistant/binary_sensor/" ++ deviceId f ++ "/contact/config";
         body := ContactConfig (deviceId f); retain := true |};
      {| topic := "homeassistant/binary_sensor/" ++ deviceId f ++ "/battery_low/config";
         body := BatteryConfig (deviceId f); retain := true |};
      {| topic := "rtl_433/" ++ deviceId f;
         body := State (bool_decide (command f = "OPEN"%string))
                       (bool_decide (battery f = "LOW"%string));
         retain := false |} ]%string ∧
  discovered (processFrame w frameBits) = discovered w ++ [deviceId f] ∧
  console (processFrame w frameBits) = console w ++ [(deviceId f, command f, battery f)].
Proof.
  intros Hsync Hnew f.
  destruct (processFrame_sent w frameBits Hsync) as [_ Hfirst].
  destruct (Hfirst Hnew) as [Hsent Hdisc]. split; [exact Hsent|]. split; [exact Hdisc|].
  unfold processFrame. fold f. rewrite decide_False by (intros ?; done).
  cbv zeta. rewrite decide_False by done. reflexivity.
Qed.

(** A frame with the sync word, from a device already announced: only its
    state is published, and the set of announced devices is unchanged. *)
Lemma processFrame_known_device (w : world) (frameBits : string) :
  sync (FrameParser.parse frameBits) = SYNC_WORD →
  deviceId (FrameParser.parse frameBits) ∈ discovered w →
  let f := FrameParser.parse frameBits in
  sent (processFrame w frameBits)
  = sent w ++
    [ {| topic := "rtl_433/" ++ deviceId f;
         body := State (bool_decide (command f = "OPEN"%string))
                       (bool_decide (battery f = "LOW"%string));
         retain := false |} ]%string ∧
  discovered (processFrame w frameBits) = discovered w ∧
  console (processFrame w frameBits) = console w ++ [(deviceId f, command f, battery f)].
Proof.
  intros Hsync Hknown f.
  destruct (processFrame_sent w frameBits Hsync) as [Hsame _].
  destruct (Hsame Hknown) as [Hsent Hdisc]. split; [exact Hsent|]. split; [exact Hdisc|].
  unfold processFrame. fold f. rewrite decide_False by (intros ?; done).
  cbv zeta. rewrite decide_True by done. reflexivity.
Qed.

Lemma carrying_app (b : payload) (l l' : list message) :
  carrying b (l ++ l') = carrying b l ++ carrying b l'.
Proof. apply filter_app. Qed.

Lemma carrying_cons (b : payload) (m : message) (l : list message) :
  carrying b (m :: l) = if decide (body m = b) then m :: carrying b l else carrying b l.
Proof. unfold carrying. by rewrite filter_cons. Qed.

(** One frame keeps the record of announcements exact, and only appends to
    what was sent, announced and printed. *)
Lemma processFrame_announced_once (w : world) (frameBits : string) :
  announced_once w →
  announced_once (processFrame w frameBits) ∧
  (∃ more, sent (processFrame w frameBits) = sent w ++ more) ∧
  (∃ new, discovered (processFrame w frameBits) = discovered w ++ new) ∧
  (length (console (processFrame w frameBits)) ≤ S (length (console w)))%nat.
Proof.
  intros [Hnd Hcount].
  destruct (decide (sync (FrameParser.parse frameBits) = SYNC_WORD)) as [Hsync|Hsync].
  - destruct (processFrame_sent w frameBits Hsync) as [Hknown Hnew].
    destruct (decide (deviceId (FrameParser.parse frameBits) ∈ discovered w)) as [Hd|Hd].
    + destruct (Hknown Hd) as [Hs Hdisc].
      assert (length (console (processFrame w frameBits)) ≤ S (length (console w)))%nat
        as Hcons.
      { destruct (processFrame_known_device w frameBits Hsync Hd) as (_ & _ & ->).
        rewrite length_app. simpl. lia. }
      split; [|rewrite Hs, Hdisc; split; [eauto|]].
      * unfold announced_once. rewrite Hs, Hdisc. split; [done|].
        intros d. rewrite !carrying_app.
        destruct (Hcount d) as [-> ->]. rewrite !carrying_cons. simpl body.
        rewrite (decide_False (P := State _ _ = ContactConfig d)) by done.
        rewrite (decide_False (P := State _ _ = BatteryConfig d)) by done.
        unfold carrying. simpl. by rewrite !app_nil_r.
      * split; [exists []; by rewrite app_nil_r|done].
    + destruct (Hnew Hd) as [Hs Hdisc].
      assert (length (console (processFrame w frameBits)) ≤ S (length (console w)))%nat
        as Hcons.
      { destruct (processFrame_first_sighting w frameBits Hsync Hd) as (_ & _ & ->).
        rewrite length_app. simpl. lia. }
      split; [|rewrite Hs, Hdisc; eauto].
      unfold announced_once. rewrite Hs, Hdisc.
      generalize dependent (deviceId (FrameParser.parse frameBits)). intros d0 _ _ Hd _ _.
      split.
      * apply NoDup_app. split; [done|]. split; [|apply NoDup_singleton].
        intros x Hx ->%list_elem_of_singleton. done.
      * intros d. rewrite !carrying_app.
        destruct (Hcount d) as [-> ->]. rewrite !carrying_cons. simpl body.
        unfold carrying at 1 2. simpl filter.
        rewrite (decide_False (P := BatteryConfig d0 = ContactConfig d)) by done.
        rewrite (decide_False (P := State _ _ = ContactConfig d)) by done.
        rewrite (decide_False (P := ContactConfig d0 = BatteryConfig d)) by done.
        rewrite (decide_False (P := State _ _ = BatteryConfig d)) by done.
        destruct (decide (d0 = d)) as [->|Hne].
        -- rewrite (decide_True (P := ContactConfig d = ContactConfig d)) by done.
           rewrite (decide_True (P := BatteryConfig d = BatteryConfig d)) by done.
           rewrite !(decide_False (P := d ∈ discovered w)) by done.
           rewrite !decide_True by (apply elem_of_app; right; by apply list_elem_of_singleton).
           done.
        -- rewrite (decide_False (P := ContactConfig d0 = ContactConfig d)) by congruence.
           rewrite (decide_False (P := BatteryConfig d0 = BatteryConfig d)) by congruence.
           rewrite !app_nil_r.
           destruct (decide (d ∈ discovered w)) as [Hin|Hin].
           ++ by rewrite !decide_True by (apply elem_of_app; by left).
           ++ rewrite !decide_False; [done|..];
                rewrite elem_of_app, list_elem_of_singleton; intros [?|?]; congruence.
  - unfold processFrame. rewrite decide_True by done.
    split; [done|]. split; [exists []; by rewrite app_nil_r|].
    split; [exists []; by rewrite app_nil_r|lia].
Qed.

(** Over any sequence of frames, each discovery configuration is published
    once per device and never again: if the record of announcements is exact
    before, it is exact after; what was sent and announced before is kept, in
    order; and at most one line is printed per frame. *)
Theorem discovery_published_once (w : world) (frames : list string) :
  announced_once w →
  announced_once (foldl processFrame w frames) ∧
  (∃ more, sent (foldl processFrame w frames) = sent w ++ more) ∧
  (∃ new, discovered (foldl processFrame w frames) = discovered w ++ new) ∧
  (length (console (foldl processFrame w frames))
   ≤ length (console w) + length frames)%nat.
Proof.
  revert w. induction frames as [|frame frames IH]; intros w Hw; simpl.
  - split; [done|]. split; [exists []; by rewrite app_nil_r|].
    split; [exists []; by rewrite app_nil_r|lia].
  - destruct (processFrame_announced_once w frame Hw)
      as (Hw' & [more Hs] & [new Hd] & Hc).
    destruct (IH _ Hw') as (Hall & [more' Hs'] & [new' Hd'] & Hc').
    split; [done|]. split; [|split].
    + exists (more ++ more'). by rewrite Hs', Hs, (assoc_L (++)).
    + exists (new ++ new'). by rewrite Hd', Hd, (assoc_L (++)).
    + lia.
Qed.

Lemma discovery_published_once_witness :
  announced_once {| sent := []; discovered := []; console := [] |} ∧
  announced_once
    (foldl processFrame {| sent := []; discovered := []; console := [] |}
       ["1010101010101010101010100010110111010100000000000000000000010011";
        "1010101010101010101010100010110111010100000000000000000000010101"]).
Proof.
  assert (announced_once {| sent := []; discovered := []; console := [] |}) as Hempty.
  { split; [constructor|]. intros d. split; reflexivity. }
  split; [exact Hempty|].
  apply (discovery_published_once _
           ["1010101010101010101010100010110111010100000000000000000000010011";
            "1010101010101010101010100010110111010100000000000000000000010101"] Hempty).
Defined.

(** A frame with the sync word is published as the state of its device:
    the last message sent goes to the topic of the device id in
    hexadecimal, is not retained, and says [contact] exactly for the command
    bits "001" and [battery_low] exactly for the battery bit "0"; so CLOSE
    and every unknown command are published as no contact.  Afterwards the
    device is recorded as announced. *)
Theorem valid_frame_state_published (w : world) (pre id cmd bat : string) :
  slen pre = 24 → slen id = 20 → slen cmd = 3 → slen bat = 1 → bit_string id →
  let w' := processFrame w (pre ++ SYNC_WORD ++ id ++ cmd ++ bat) in
  ∃ h : string,
    slen h = 5 ∧ hexToBin h = id ∧
    last (sent w')
    = Some {| topic := "rtl_433/0x" ++ h;
              body := State (bool_decide (cmd = "001"%string))
                            (bool_decide (bat = "0"%string));
              retain := false |}%string ∧
    ("0x" ++ h)%string ∈ discovered w' ∧
    (length (sent w') = length (sent w) + 1 ∨ length (sent w') = length (sent w) + 3)%nat.
Proof.
  intros Hpre Hid Hcmd Hbat Hbits w'.
  pose proof (parse_fields pre SYNC_WORD id cmd bat Hpre eq_refl Hid Hcmd Hbat) as Hparse.
  assert (sync (FrameParser.parse (pre ++ SYNC_WORD ++ id ++ cmd ++ bat)) = SYNC_WORD)
    as Hsync by (by rewrite Hparse).
  destruct (processFrame_sent w _ Hsync) as [Hknown Hnew]. fold w' in Hknown, Hnew.
  rewrite Hparse in Hknown, Hnew. simpl deviceId in *. simpl command in *.
  simpl battery in *.
  rewrite (binToHex_nibbles id 5) in Hknown, Hnew by lia.
  destruct (hex_of_nibbles_roundtrip 5 id) as [Hl Hback]; [lia|done|].
  assert (bool_decide (lookup_or COMMANDS cmd "UNKNOWN" = "OPEN"%string)
          = bool_decide (cmd = "001"%string)) as Hc.
  { rewrite lookup_or_COMMANDS. apply bool_decide_ext.
    destruct (decide (cmd = "001"%string)); [done|].
    destruct (decide (cmd = "010"%string)); done. }
  assert (bool_decide (lookup_or BATTERY_STATUS bat "UNKNOWN" = "LOW"%string)
          = bool_decide (bat = "0"%string)) as Hb.
  { rewrite lookup_or_BATTERY_STATUS. apply bool_decide_ext.
    destruct (decide (bat = "1"%string)) as [->|]; [done|].
    destruct (decide (bat = "0"%string)); done. }
  rewrite Hc, Hb in Hknown, Hnew.
  exists (hex_of_nibbles id). split; [done|]. split; [done|].
  destruct (decide (("0x" ++ hex_of_nibbles id)%string ∈ discovered w)) as [Hd|Hd].
  - destruct (Hknown Hd) as [-> ->]. split; [by rewrite last_snoc|]. split; [done|].
    left. rewrite length_app. simpl. lia.
  - destruct (Hnew Hd) as [-> ->]. split.
    + by rewrite last_app_cons.
    + split; [apply elem_of_app; right; by apply list_elem_of_singleton|].
      right. rewrite length_app. simpl. lia.
Qed.

Lemma valid_frame_state_published_witness :
  (slen "101010101010101010101010" = 24 ∧ slen "00000000000000000001" = 20 ∧
   slen "111" = 3 ∧ slen "0" = 1 ∧ bit_string "00000000000000000001") ∧
  ∃ h : string,
    slen h = 5 ∧ hexToBin h = "00000000000000000001"%string ∧
    last (sent (processFrame {| sent := []; discovered := []; console := [] |}
                  ("101010101010101010101010" ++ SYNC_WORD ++ "00000000000000000001"
                   ++ "111" ++ "0")))
    = Some {| topic := "rtl_433/0x" ++ h; body := State false true; retain := false |}%string.
Proof.
  assert (bit_string "00000000000000000001") as Hbits by (simpl; tauto).
  split; [repeat (split; [reflexivity|]); exact Hbits|].
  destruct (valid_frame_state_published {| sent := []; discovered := []; console := [] |}
              "101010101010101010101010" "00000000000000000001" "111" "0"
              eq_refl eq_refl eq_refl eq_refl Hbits) as (h & Hl & Hback & Hlast & _).
  exists h. split; [exact Hl|]. split; [exact Hback|exact Hlast].
Defined.

(** ** [processFile] as a whole *)

(** A digit stands for four bits; no other character stands for any. *)
Lemma hex_digit_bits_length (c : ascii) :
  (slen (hex_digit_bits c) = 4 ∧ hex_digit c) ∨ slen (hex_digit_bits c) = 0.
Proof.
  unfold hex_digit_bits, hex_digit.
  repeat (case_decide;
          [left; subst; split; [reflexivity|simpl; repeat constructor]|]).
  by right.
Qed.

(** A string whose characters all stand for four bits is a string of
    hexadecimal digits. *)
Lemma hexToBin_length (h : string) :
  slen (hexToBin h) ≤ 4 * slen h ∧ (slen (hexToBin h) = 4 * slen h → hex_string h).
Proof.
  induction h as [|c h [IHle IH]]; [by split|].
  simpl hexToBin. rewrite slen_app, slen_cons. pose proof (slen_nonneg (hexToBin h)).
  destruct (hex_digit_bits_length c) as [[-> Hc]| ->].
  - split; [lia|]. intros Heq. split; [done|]. apply IH. lia.
  - split; [lia|]. intros Heq. lia.
Qed.

Lemma deviceId_of_bit_frame (frame : string) :
  slen frame = 64 → bit_string frame → well_formed_id (deviceId (FrameParser.parse frame)).
Proof.
  intros Hlen Hbits.
  destruct (frame_fields frame Hlen)
    as (pre & sy & id & cmd & bat & -> & Hpre & Hsy & Hid & Hc & Hb).
  rewrite parse_fields by done. simpl.
  apply bit_string_app in Hbits as (_ & Hbits).
  apply bit_string_app in Hbits as (_ & Hbits).
  apply bit_string_app in Hbits as (Hbid & _).
  rewrite (binToHex_nibbles id 5) by lia.
  destruct (hex_of_nibbles_roundtrip 5 id) as [Hl Hback]; [lia|done|].
  exists (hex_of_nibbles id). split; [done|]. split; [done|].
  apply hexToBin_length. rewrite Hback, Hl, Hid. lia.
Qed.

(** The strings the extraction returns are bit strings of 64 characters. *)
Lemma extractSequences_bit_frames `{Float} (file : list byte) (threshold : num)
    (minLen samplesPerBit : Z) (sequences : list string) :
  SignalProcessor.extractSequences file threshold minLen samplesPerBit = Some sequences →
  Forall (λ s, slen s = 64 ∧ bit_string s) sequences.
Proof.
  unfold SignalProcessor.extractSequences. cbv zeta.
  case_decide; [intros; simplify_eq; constructor|]. intros Hr.
  apply (extract_loop_inv _ _ (λ seqs _, Forall (λ s, slen s = 64 ∧ bit_string s) seqs))
    with (n := 0%nat) in Hr; [done| | |constructor]; [|done].
  intros seqs n s Hall Hl Hb. unfold Set_add. case_decide; [done|].
  apply Forall_app. split; [done|]. by apply Forall_singleton.
Qed.

(** One frame of 64 bits keeps the ids of the announced devices well
    formed. *)
Lemma processFrame_well_formed_ids (w : world) (frame : string) :
  slen frame = 64 → bit_string frame →
  Forall well_formed_id (discovered w) →
  Forall well_formed_id (discovered (processFrame w frame)).
Proof.
  intros Hlen Hbits Hwf.
  destruct (decide (sync (FrameParser.parse frame) = SYNC_WORD)) as [Hsync|Hsync].
  - destruct (processFrame_sent w frame Hsync) as [Hknown Hnew].
    destruct (decide (deviceId (FrameParser.parse frame) ∈ discovered w)) as [Hd|Hd].
    + destruct (Hknown Hd) as [_ ->]. done.
    + destruct (Hnew Hd) as [_ ->]. apply Forall_app. split; [done|].
      apply Forall_singleton. by apply deviceId_of_bit_frame.
  - unfold processFrame. by rewrite decide_True.
Qed.

(** [processFile] returns for every capture, with the constants of the
    program; it only appends to what was sent and announced; it keeps the
    record of announcements exact, so that no discovery configuration is
    published twice; and every device it announces has an id of "0x" and
    five hexadecimal digits. *)
Theorem processFile_returns_and_keeps_record `{Float} (w : world) (file : list byte) :
  announced_once w → Forall well_formed_id (discovered w) →
  ∃ w' : world,
    processFile w file = Some w' ∧
    announced_once w' ∧ Forall well_formed_id (discovered w') ∧
    (∃ more, sent w' = sent w ++ more) ∧ (∃ new, discovered w' = discovered w ++ new).
Proof.
  intros Hw Hwf. unfold processFile.
  destruct (extractSequences_returns file (of_Z POWER_THRESHOLD) MIN_SIGNAL_LENGTH
              SAMPLES_PER_BIT) as [frames Hframes]; [done|].
  rewrite Hframes. simpl. eexists. split; [reflexivity|].
  pose proof (extractSequences_bit_frames _ _ _ _ _ Hframes) as Hbits.
  clear Hframes. revert w Hw Hwf.
  induction Hbits as [|frame frames [Hlen Hb] _ IH]; intros w Hw Hwf; simpl.
  - split; [done|]. split; [done|].
    split; exists []; by rewrite app_nil_r.
  - destruct (processFrame_announced_once w frame Hw) as (Hw' & [more Hs] & [new Hd] & _).
    pose proof (processFrame_well_formed_ids w frame Hlen Hb Hwf) as Hwf'.
    destruct (IH _ Hw' Hwf') as (Hall & Hids & [more' Hs'] & [new' Hd']).
    split; [done|]. split; [done|]. split.
    + exists (more ++ more'). by rewrite Hs', Hs, (assoc_L (++)).
    + exists (new ++ new'). by rewrite Hd', Hd, (assoc_L (++)).
Qed.

Lemma processFile_returns_and_keeps_record_witness :
  let w0 := processFrame {| sent := []; discovered := []; console := [] |}
              "1010101010101010101010100010110111010100000000000000000000010011" in
  (discovered w0 = ["0x00001"%string] ∧
   announced_once w0 ∧ Forall well_formed_id (discovered w0)) ∧
  ∃ w' : world,
    processFile (H := RealFloat) w0 (carrier (Z.to_nat 40640) x90 x80) = Some w' ∧
    announced_once w' ∧ Forall well_formed_id (discovered w').
Proof.
  intros w0.
  assert (announced_once {| sent := []; discovered := []; console := [] |}) as Hempty.
  { split; [constructor|]. intros d. split; reflexivity. }
  assert (bit_string "1010101010101010101010100010110111010100000000000000000000010011")
    as Hbits by (simpl; tauto).
  assert (announced_once w0) as Hw0 by apply (processFrame_announced_once _ _ Hempty).
  assert (Forall well_formed_id (discovered w0)) as Hids
    by (apply processFrame_well_formed_ids; [reflexivity|exact Hbits|constructor]).
  split; [split; [vm_compute; reflexivity|split; [exact Hw0|exact Hids]]|].
  destruct (processFile_returns_and_keeps_record (H := RealFloat) w0
              (carrier (Z.to_nat 40640) x90 x80) Hw0 Hids) as (w' & Hw' & Hall & Hids' & _).
  exists w'. split; [exact Hw'|]. split; [exact Hall|exact Hids'].
Defined.

(** ** [processDirectory] *)

(** With a width other than 0 and entries of distinct names,
    [processDirectory] returns an object that holds, under the name of each
    regular file, the bit strings extracted from it, and nothing under any
    other name: entries that are not regular files are skipped, and a file
    named [__proto__] leaves no property. *)
Theorem processDirectory_one_result_per_file `{Float} (dirPath : list (string * entry))
    (powerThreshold : num) (minSignalLength samplesPerBit : Z) :
  samplesPerBit ≠ 0 → NoDup dirPath.*1 →
  ∃ results : gmap string (list string),
    processDirectory dirPath powerThreshold minSignalLength samplesPerBit = Some results ∧
    (∀ file content, (file, RegularFile content) ∈ dirPath → file ≠ "__proto__"%string →
       results !! file
       = extractUnique64BitSequences content powerThreshold minSignalLength samplesPerBit) ∧
    (∀ file, (∀ content, (file, RegularFile content) ∉ dirPath) → results !! file = None) ∧
    results !! "__proto__"%string = None.
Proof.
  intros Hw. unfold processDirectory. cbv zeta.
  induction dirPath as [|[name e] l IH] using rev_ind; intros Hnd.
  - exists ∅. split; [done|]. split; [intros ?? []%elem_of_nil|]. done.
  - rewrite fmap_app in Hnd. apply NoDup_app in Hnd as (Hnd & Hfresh & _).
    assert (name ∉ l.*1) as Hname.
    { intros Hin. apply (Hfresh name Hin). simpl. apply list_elem_of_singleton. done. }
    destruct (IH Hnd) as (results & Hres & Hfiles & Hother & Hproto).
    rewrite foldl_snoc, Hres. simpl.
    assert (∀ c, (name, RegularFile c) ∉ l) as Hnotin.
    { intros c Hin. apply Hname. apply list_elem_of_fmap. by exists (name, RegularFile c). }
    destruct e as [content|].
    + destruct (extractSequences_returns content powerThreshold minSignalLength
                  samplesPerBit Hw) as [value Hvalue].
      rewrite <- extract_equiv in Hvalue. rewrite Hvalue. simpl.
      eexists. split; [reflexivity|]. unfold assign.
      destruct (decide (name = "__proto__"%string)) as [->|Hnp].
      * split; [|split; [|done]].
        -- intros file c [Hin | Heq%list_elem_of_singleton]%elem_of_app Hne;
             [by apply Hfiles|]. by simplify_eq.
        -- intros file Hnone. apply Hother. intros c Hin.
           apply (Hnone c). apply elem_of_app. by left.
      * split; [|split].
        -- intros file c [Hin | Heq%list_elem_of_singleton]%elem_of_app Hne.
           ++ rewrite lookup_insert_ne; [by apply Hfiles|].
              intros ->. by apply (Hnotin c).
           ++ simplify_eq. by rewrite lookup_insert_eq.
        -- intros file Hnone. rewrite lookup_insert_ne.
           ++ apply Hother. intros c Hin. apply (Hnone c). apply elem_of_app. by left.
           ++ intros ->. apply (Hnone content). apply elem_of_app. right.
              by apply list_elem_of_singleton.
        -- by rewrite lookup_insert_ne.
    + exists results. split; [done|]. split; [|split; [|done]].
      * intros file c [Hin | Heq%list_elem_of_singleton]%elem_of_app Hne;
          [by apply Hfiles|done].
      * intros file Hnone. apply Hother. intros c Hin.
        apply (Hnone c). apply elem_of_app. by left.
Qed.

Lemma processDirectory_one_result_per_file_witness :
  ((635 : Z) ≠ 0 ∧
   NoDup [("a.cu8", RegularFile [x80; x80]); ("sub", NotAFile)]%string.*1) ∧
  ∃ results : gmap string (list string),
    processDirectory (H := RealFloat)
      [("a.cu8", RegularFile [x80; x80]); ("sub", NotAFile)]%string (of_Z 5) 35000 635
    = Some results ∧
    results !! "sub"%string = None.
Proof.
  assert (NoDup [("a.cu8", RegularFile [x80; x80]); ("sub", NotAFile)]%string.*1) as Hnd.
  { simpl. apply NoDup_cons. split; [|apply NoDup_singleton].
    intros Hin%list_elem_of_singleton. discriminate. }
  split; [split; [lia|exact Hnd]|].
  destruct (processDirectory_one_result_per_file (H := RealFloat)
              [("a.cu8", RegularFile [x80; x80]); ("sub", NotAFile)]%string
              (of_Z 5) 35000 635 ltac:(lia) Hnd) as (results & Hres & _ & Hother & _).
  exists results. split; [exact Hres|]. apply Hother.
  intros content Hin. apply elem_of_cons in Hin as [Heq | Hin]; [discriminate|].
  apply list_elem_of_singleton in Hin. discriminate.
Defined.

(** ** An unmodulated carrier, end to end *)

Lemma list_eq_replicate {A} (l : list A) (n : nat) (c : A) :
  len l = Z.of_nat n → (∀ i, 0 ≤ i < Z.of_nat n → l.[i] = Some c) → l = replicate n c.
Proof.
  intros Hlen Hall. apply list_eq_read. intros i. rewrite read_replicate.
  case_decide; [by apply Hall|]. apply read_None. lia.
Qed.

Lemma readIq_of_interleave (Is Qs : list byte) :
  length Is = length Qs → SignalProcessor.readIq (interleave Is Qs) = (Is, Qs).
Proof.
  intros Hlen.
  pose proof (λ i, readIq_spec (interleave Is Qs) i) as Hspec.
  destruct (SignalProcessor.readIq (interleave Is Qs)) as [Is' Qs'].
  assert (len (interleave Is Qs) / 2 = len Is) as Hhalf.
  { unfold len. rewrite length_interleave by done. Z.div_mod_to_equations. lia. }
  f_equal; apply list_eq_read; intros i; destruct (Hspec i) as (_ & _ & HI & HQ);
    rewrite Hhalf in HI, HQ; rewrite ?HI, ?HQ;
    destruct (decide (0 ≤ i < len Is)) as [Hi|Hi].
  - apply (read_interleave Is Qs i Hlen). lia.
  - symmetry. by apply read_None.
  - apply (read_interleave Is Qs i Hlen). lia.
  - symmetry. apply read_None. unfold len in *. lia.
Qed.

Lemma read_carrier (n : nat) (bi bq : byte) (i : Z) :
  0 ≤ i < Z.of_nat n →
  (carrier n bi bq).[2 * i] = Some bi ∧ (carrier n bi bq).[2 * i + 1] = Some bq.
Proof.
  intros Hi. unfold carrier.
  destruct (read_interleave (replicate n bi) (replicate n bq) i) as [-> ->];
    [by rewrite !length_replicate|lia|].
  rewrite !read_replicate, !decide_True by done. done.
Qed.

Lemma len_carrier (n : nat) (bi bq : byte) : len (carrier n bi bq) / 2 = Z.of_nat n.
Proof.
  unfold carrier, len. rewrite length_interleave by (by rewrite !length_replicate).
  rewrite length_replicate. Z.div_mod_to_equations. lia.
Qed.

Lemma len_pipeline_normalized (file : list byte) :
  len (SignalProcessor.normalize (H := RealFloat) (SignalProcessor.readIq file)).1
  = len file / 2.
Proof.
  pose proof (readIq_spec file 0) as Hraw.
  destruct (SignalProcessor.readIq file) as [Is Qs]. destruct Hraw as (HlI & _).
  rewrite (len_normalize (H := RealFloat)). done.
Qed.

(** The mask of a carrier above the threshold is active throughout. *)
Lemma carrier_mask (n : nat) (bi bq : byte) (threshold : Z) :
  threshold < sample_power bi bq →
  SignalProcessor.aboveThreshold (H := RealFloat)
    (SignalProcessor.calculatePower
       (SignalProcessor.normalize (SignalProcessor.readIq (carrier n bi bq))))
    (of_Z threshold)
  = replicate n true.
Proof.
  intros Hpow. apply list_eq_replicate.
  - unfold SignalProcessor.aboveThreshold. rewrite len_fmap.
    pose proof (len_pipeline_normalized (carrier n bi bq)) as Hn.
    destruct (SignalProcessor.normalize _) as [nI nQ]. simpl in Hn.
    rewrite (len_calculatePower (H := RealFloat)). cbn [num RealFloat] in *.
    by rewrite Hn, len_carrier.
  - intros i Hi. destruct (read_carrier n bi bq i Hi) as [Hbi Hbq].
    unfold SignalProcessor.aboveThreshold.
    rewrite read_fmap, (pipeline_power_read _ i bi bq) by (done || lia). simpl.
    f_equal. unfold number_gtb, number_ltb. apply bool_decide_eq_true_2. by apply IZR_lt.
Qed.

(** An active mask is one run. *)
Lemma findIntervals_all_active (n : nat) (minLen : Z) :
  (1 ≤ n)%nat → minLen ≤ Z.of_nat n →
  SignalProcessor.findIntervals (replicate n true) minLen = [(0, Z.of_nat n - 1)].
Proof.
  intros Hn Hmin. unfold SignalProcessor.findIntervals.
  lazymatch goal with
  | |- context [forEach (replicate n true) ?f ([], None)] =>
      assert (forEach (replicate n true) f ([], None)
              = ([], if len (replicate n true) =? 0 then None else Some 0)) as ->
  end.
  { apply (forEach_inv (λ k (s : list (Z * Z) * option Z),
             s = ([], if k =? 0 then None else Some 0))); [done|].
    intros i x s Hx ->.
    apply read_Some_lt in Hx as Hlt. unfold read in Hx.
    rewrite decide_True in Hx by lia. apply lookup_replicate in Hx as [-> _].
    replace (i + 1 =? 0) with false by lia.
    destruct (Z.eqb_spec i 0) as [->|]; done. }
  rewrite len_replicate. replace (Z.of_nat n =? 0) with false by lia.
  rewrite decide_True by lia. done.
Qed.

(** The phases of a carrier are all the same. *)
Lemma carrier_phases (n : nat) (bi bq : byte) :
  ∃ φ : R,
    (- Rtrigo1.PI <= φ <= Rtrigo1.PI)%R ∧
    SignalProcessor.computePhases (H := RealFloat)
      (SignalProcessor.normalize (SignalProcessor.readIq (carrier n bi bq)))
    = replicate n (Real φ).
Proof.
  pose proof (number_atan2_range (IZR (byte_val bq - 128)) (IZR (byte_val bi - 128)))
    as Hrange.
  destruct (number_atan2 _ _) as [φ|] eqn:Hφ; [|done]. simpl in Hrange.
  exists φ. split; [lra|]. apply list_eq_replicate.
  - pose proof (len_pipeline_normalized (carrier n bi bq)) as Hn.
    destruct (SignalProcessor.normalize _) as [nI nQ]. simpl in Hn.
    rewrite (len_computePhases (H := RealFloat)). cbn [num RealFloat] in *.
    by rewrite Hn, len_carrier.
  - intros i Hi. destruct (read_carrier n bi bq i Hi) as [Hbi Hbq].
    rewrite (pipeline_phase_read _ i bi bq) by (done || lia). by rewrite Hφ.
Qed.

(** Equal phases have the phase difference 0 everywhere. *)
Lemma computeDiffs_constant (n : nat) (φ : R) :
  (- Rtrigo1.PI <= φ <= Rtrigo1.PI)%R →
  SignalProcessor.computeDiffs (H := RealFloat) (replicate n (Real φ))
  = replicate n (Real 0).
Proof.
  intros Hφ. pose proof PI_RGT_0 as Hpi. apply list_eq_replicate.
  - rewrite (len_computeDiffs (H := RealFloat)). apply len_replicate.
  - intros i Hi. rewrite (computeDiffs_read (H := RealFloat)). cbn [num RealFloat].
    rewrite len_replicate, decide_True by done.
    destruct (decide (1 ≤ i)) as [H1|H1]; [|done].
    rewrite !read_replicate, !decide_True by lia. simpl val.
    destruct (wrap_real φ φ Hφ Hφ) as (d & Hwrap & Hd & Hr & _).
    transitivity (Some (Real d)); [exact (f_equal Some Hwrap)|].
    do 2 f_equal. lra.
Qed.

Lemma integrate_zeros (k : nat) : integrate (H := RealFloat) (replicate k (Real 0)) = Real 0.
Proof.
  unfold integrate. simpl add. simpl of_Z.
  induction k as [|k IH]; [done|]. simpl.
  replace (0 + 0)%R with 0%R by lra. exact IH.
Qed.

(** The bits of phase differences that are all 0 are all "0". *)
Lemma decodeBits_zeros (n : nat) (w : Z) :
  1 ≤ w →
  SignalProcessor.decodeBits (H := RealFloat) (replicate n (Real 0)) (0, Z.of_nat n - 1) w
  = Some (replicate (Z.to_nat (Z.of_nat n / w)) "0"%string).
Proof.
  intros Hw. rewrite (decodeBits_closed (H := RealFloat)) by lia. f_equal.
  replace (Z.of_nat n - 1 - 0 + 1) with (Z.of_nat n) by lia.
  assert (0 ≤ Z.of_nat n / w) as HN by (apply Z.div_pos; lia).
  apply list_eq_replicate; [rewrite len_fmap, len_seqZ; lia|].
  intros s Hs. rewrite read_fmap_seqZ, decide_True by lia. f_equal.
  assert (w * (Z.of_nat n / w) ≤ Z.of_nat n) by (apply Z.mul_div_le; lia).
  rewrite (symbol_period_slice (H := RealFloat)); [|lia|lia|rewrite len_replicate; nia].
  rewrite drop_replicate, take_replicate.
  replace (Z.to_nat w `min` (n - Z.to_nat (0 + s * w)))%nat with (Z.to_nat w) by nia.
  rewrite integrate_zeros. simpl. unfold number_gtb, number_ltb.
  rewrite bool_decide_eq_false_2 by (apply Rlt_irrefl). done.
Qed.

(** The pipeline on a carrier. *)
Lemma carrier_extract (n : nat) (bi bq : byte) (threshold minLen w : Z) :
  (1 ≤ n)%nat → 1 ≤ w → minLen ≤ Z.of_nat n → threshold < sample_power bi bq →
  SignalProcessor.extractSequences (H := RealFloat) (carrier n bi bq) (of_Z threshold)
    minLen w
  = Some (if decide (Z.of_nat n / w = 64) then [repeat_char 64 "0"] else []).
Proof.
  intros Hn Hw Hmin Hpow. unfold SignalProcessor.extractSequences. cbv zeta.
  rewrite carrier_mask, findIntervals_all_active by done.
  rewrite decide_False by done.
  destruct (carrier_phases n bi bq) as (φ & Hφ & ->).
  rewrite computeDiffs_constant by done. cbn [foldl]. cbv beta.
  rewrite decodeBits_zeros by done. simpl.
  assert (0 ≤ Z.of_nat n / w) as HN by (apply Z.div_pos; lia).
  rewrite len_replicate, Z2Nat.id by done.
  change (PREAMBLE_LENGTH + SYNC_WORD_LENGTH + DEVICE_ID_LENGTH + COMMAND_LENGTH
          + BATTERY_LENGTH) with 64.
  destruct (decide (Z.of_nat n / w = 64)) as [->|Hne]; [|done].
  reflexivity.
Qed.

(** A capture of [n] equal samples above the threshold, at least [minLen]
    of them, decodes to all zeros: when [n] holds exactly 64 whole symbol
    periods, both pipelines return the one frame of 64 zeros, and otherwise
    they return no frame.  With the constants of the program this is a
    capture of 40640 to 41274 samples. *)
Theorem unmodulated_carrier_decodes_to_zeros (n : nat) (bi bq : byte)
    (threshold minLen w : Z) :
  (1 ≤ n)%nat → 1 ≤ w → minLen ≤ Z.of_nat n → threshold < sample_power bi bq →
  SignalProcessor.extractSequences (H := RealFloat) (carrier n bi bq) (of_Z threshold)
    minLen w
  = Some (if decide (Z.of_nat n / w = 64) then [repeat_char 64 "0"] else []) ∧
  extractUnique64BitSequences (H := RealFloat) (carrier n bi bq) (of_Z threshold) minLen w
  = Some (if decide (Z.of_nat n / w = 64) then [repeat_char 64 "0"] else []) ∧
  (w = SAMPLES_PER_BIT → (Z.of_nat n / w = 64 ↔ 40640 ≤ Z.of_nat n ≤ 41274)).
Proof.
  intros Hn Hw Hmin Hpow.
  split; [by apply carrier_extract|].
  split; [rewrite (extract_equiv (H := RealFloat)); by apply carrier_extract|].
  intros ->. unfold SAMPLES_PER_BIT. split; intros Hq; Z.div_mod_to_equations; lia.
Qed.

Lemma unmodulated_carrier_decodes_to_zeros_witness :
  ((1 ≤ 64)%nat ∧ 1 ≤ 1 ∧ 35 ≤ Z.of_nat 64 ∧ 5 < sample_power x90 x80) ∧
  SignalProcessor.extractSequences (H := RealFloat) (carrier 64 x90 x80) (of_Z 5) 35 1
  = Some ["0000000000000000000000000000000000000000000000000000000000000000"%string].
Proof.
  split; [repeat split; try lia; reflexivity|].
  refine (proj1 (unmodulated_carrier_decodes_to_zeros 64 x90 x80 5 35 1 _ _ _ _));
    try lia; reflexivity.
Defined.

Lemma extractSequences_unique_64_bit_strings_witness :
  SignalProcessor.extractSequences (H := RealFloat) (carrier 64 x90 x80) (of_Z 5) 35 1
  = Some ["0000000000000000000000000000000000000000000000000000000000000000"%string] ∧
  NoDup ["0000000000000000000000000000000000000000000000000000000000000000"%string] ∧
  Forall (λ s, slen s = 64 ∧ bit_string s)
    ["0000000000000000000000000000000000000000000000000000000000000000"%string].
Proof.
  assert (SignalProcessor.extractSequences (H := RealFloat) (carrier 64 x90 x80)
            (of_Z 5) 35 1
          = Some ["0000000000000000000000000000000000000000000000000000000000000000"%string])
    as Hex.
  { refine (carrier_extract 64 x90 x80 5 35 1 _ _ _ _); try lia; reflexivity. }
  split; [exact Hex|].
  destruct (extractSequences_unique_64_bit_strings (H := RealFloat) _ _ _ _ _ Hex)
    as (Hnd & Hall & _).
  split; [exact Hnd|exact Hall].
Defined.

(** ** Widths that are not positive *)

Lemma decodeBits_negative_width `{Float} (diffs : list num) (start end_ w : Z) :
  w < 0 → start ≤ end_ → SignalProcessor.decodeBits diffs (start, end_) w = Some [].
Proof.
  intros Hw Hse. unfold SignalProcessor.decodeBits, floor_div. cbv zeta.
  rewrite decide_False by lia.
  assert ((end_ - start + 1) / w < 0) as Hq by (Z.div_mod_to_equations; nia).
  cbn [for_quotient]. unfold for_to at 1. rewrite (seqZ_nil 0) by lia. reflexivity.
Qed.

(** A loop with a bound returns what [for_to] computes, given enough rounds
    and an array that can hold the bits. *)
Lemma push_loop_bounded {A} (limit n : Z) (bit : Z → A) (rounds : nat) :
  ∀ (s : Z) (bits : list A),
    len bits = s → n ≤ limit → (Z.to_nat (n - s) < rounds)%nat →
    push_loop limit rounds (Finite n) bit s bits
    = Returned (foldl (λ bits s, bits ++ [bit s]) bits (seqZ s (n - s))).
Proof.
  induction rounds as [|rounds IH]; intros s bits Hlen Hn Hr; [lia|].
  cbn [push_loop below]. case_bool_decide as Hs.
  - unfold push. rewrite decide_True by lia.
    rewrite IH by (rewrite ?length_app, ?len_app; unfold len in *;
                   rewrite ?length_app; simpl; lia).
    rewrite (seqZ_cons s) by lia. cbn [foldl].
    do 3 f_equal; lia.
  - by rewrite seqZ_nil by lia.
Qed.

(** A loop without a bound throws, given enough rounds: when the array is
    full. *)
Lemma push_loop_unbounded {A} (limit : Z) (bit : Z → A) (rounds : nat) :
  ∀ (s : Z) (bits : list A),
    len bits = s → (Z.to_nat (limit - s) < rounds)%nat →
    push_loop limit rounds PlusInfinity bit s bits = Threw.
Proof.
  induction rounds as [|rounds IH]; intros s bits Hlen Hr; [lia|].
  cbn [push_loop below]. unfold push. case_decide as Hfull; [|done].
  apply IH; [unfold len in *; rewrite length_app; simpl; lia|lia].
Qed.

(** The run of [decodeBits] ends as [decodeBits] says: it returns the bits,
    or, where [decodeBits] has no result, it throws. *)
Lemma decodeBits_run_decodeBits `{Float} (limit : Z) (rounds : nat) (diffs : list num)
    (start end_ w : Z) :
  Z.abs (end_ - start + 1) ≤ limit → (Z.to_nat limit < rounds)%nat →
  decodeBits_run limit rounds diffs (start, end_) w
  = match SignalProcessor.decodeBits diffs (start, end_) w with
    | Some bits => Returned bits
    | None => Threw
    end.
Proof.
  intros Htotal Hrounds.
  unfold decodeBits_run, SignalProcessor.decodeBits, floor_div. cbv zeta.
  destruct (decide (w = 0)) as [->|Hw].
  - destruct (decide (0 < end_ - start + 1)).
    + cbn [for_quotient]. apply push_loop_unbounded; [done|lia].
    + destruct (decide (end_ - start + 1 < 0)); by destruct rounds; [lia|].
  - cbn [for_quotient]. unfold for_to.
    assert ((end_ - start + 1) / w ≤ limit) as Hq
      by (Z.div_mod_to_equations; nia).
    rewrite push_loop_bounded; [done|done|done|].
    destruct (decide (0 ≤ (end_ - start + 1) / w)); lia.
Qed.

(** The extraction with a width of 0 returns no value once there is an
    interval to decode: the division by 0 makes the symbol count infinite,
    and the symbol loop of the interval pushes bits until the array is
    full and [push] throws, whatever the limit of the array.  With a
    negative width the extraction returns no bit string at all.  Both
    pipelines behave so. *)
Theorem extraction_with_degenerate_width `{Float} (file : list byte) (threshold : num)
    (minLen samplesPerBit : Z) :
  samplesPerBit ≤ 0 →
  let intervals :=
    SignalProcessor.findIntervals
      (SignalProcessor.aboveThreshold
         (SignalProcessor.calculatePower
            (SignalProcessor.normalize (SignalProcessor.readIq file))) threshold) minLen in
  (samplesPerBit = 0 → intervals ≠ [] →
   SignalProcessor.extractSequences file threshold minLen samplesPerBit = None ∧
   extractUnique64BitSequences file threshold minLen samplesPerBit = None ∧
   ∀ interval diffs limit rounds,
     interval ∈ intervals → 0 ≤ limit → (Z.to_nat limit < rounds)%nat →
     decodeBits_run limit rounds diffs interval samplesPerBit = Threw) ∧
  (samplesPerBit < 0 →
   SignalProcessor.extractSequences file threshold minLen samplesPerBit = Some [] ∧
   extractUnique64BitSequences file threshold minLen samplesPerBit = Some []).
Proof.
  intros Hw intervals.
  pose proof (findIntervals_runs
    (SignalProcessor.aboveThreshold
       (SignalProcessor.calculatePower
          (SignalProcessor.normalize (SignalProcessor.readIq file))) threshold) minLen)
    as [Hruns _]. fold intervals in Hruns.
  split.
  - intros -> Hivs. rewrite extract_equiv.
    split; [by apply extractSequences_width_0|].
    split; [by apply extractSequences_width_0|].
    intros [start end_] diffs limit rounds Hin Hlimit Hrounds.
    rewrite List.Forall_forall in Hruns.
    destruct (Hruns (start, end_)) as ((_ & Hse & _) & _).
    { by apply list_elem_of_In. }
    simpl in Hse. unfold decodeBits_run, floor_div. cbv zeta.
    rewrite decide_True by done. rewrite decide_True by lia.
    apply push_loop_unbounded; [done|lia].
  - intros Hneg. rewrite extract_equiv.
    assert (SignalProcessor.extractSequences file threshold minLen samplesPerBit = Some [])
      as Hex; [|done].
    unfold SignalProcessor.extractSequences. cbv zeta. fold intervals.
    destruct (decide (len intervals = 0)) as [|_]; [done|].
    induction Hruns as [|[start end_] ivs ((_ & Hse & _) & _) _ IH]; [done|].
    cbn [foldl]. cbv beta. simpl in Hse.
    rewrite decodeBits_negative_width by done. simpl. exact IH.
Qed.

Lemma extraction_with_degenerate_width_witness :
  (0 : Z) ≤ 0 ∧
  SignalProcessor.extractSequences (H := RealFloat) (carrier 2 x90 x80) (of_Z 5) 1 0 = None ∧
  decodeBits_run (H := RealFloat) 1000 1001 [] (0, 1) 0 = Threw.
Proof.
  split; [lia|].
  destruct (extraction_with_degenerate_width (H := RealFloat) (carrier 2 x90 x80)
              (of_Z 5) 1 0 ltac:(lia)) as [Hzero _].
  assert (SignalProcessor.findIntervals
            (SignalProcessor.aboveThreshold (H := RealFloat)
               (SignalProcessor.calculatePower
                  (SignalProcessor.normalize (SignalProcessor.readIq (carrier 2 x90 x80))))
               (of_Z 5)) 1 = [(0, 1)]) as Hivs.
  { rewrite carrier_mask by (vm_compute; reflexivity).
    rewrite findIntervals_all_active by lia. reflexivity. }
  destruct Hzero as (Hnone & _ & Hthrow); [reflexivity|by rewrite Hivs|].
  split; [exact Hnone|].
  apply Hthrow; [rewrite Hivs; apply list_elem_of_singleton; reflexivity|lia|lia].
Defined.
